(** * The join-planning memo of go-mysql-server ([sql/memo])

    A shallow embedding of [sql/memo/memo.go] and of the generated
    [sql/memo/memo.og.go]: the memo with its expression groups, the
    memoizing constructors, the table-name registry, [optimizeMemoGroup]
    and [updateBest].

    Go objects reached through pointers live in two stores of the memo, one
    for expression groups and one for relational expressions; a pointer is
    an index into its store and [None] is [nil].  An allocation appends to
    the store, so a fresh object never aliases an existing one. *)

From Stdlib Require Import ZArith List Bool Lia.
From stdpp Require Import base option list gmap.

Local Open Scope Z_scope.

(** ** Go strings and identifiers

    A table name is the sequence of its runes (code points). *)

Definition rune := Z.
Definition gostring := list rune.

Definition MaxASCII : rune := 127.

(** [type GroupId uint16]: arithmetic on group ids wraps at 2^16. *)
Definition GroupId := Z.
Definition uint16 (z : Z) : Z := z mod 65536.

Definition ColumnId := Z.

(** Pointers: [*ExprGroup], and the interface value [RelExpr] that holds a
    pointer to an expression node. *)
Definition pExprGroup := option nat.
Definition pRelExpr := option nat.

(** ASCII case folding, the reference notion of two names being equal up
    to the case of their ASCII letters. *)
Definition foldASCII (r : rune) : rune :=
  if (65 <=? r) && (r <=? 90) then r + 32 else r.

Definition EqualFoldASCII (s t : gostring) : Prop :=
  map foldASCII s = map foldASCII t.

(** [distinctOp] (memo.go, 596-607). *)
Inductive distinctOp :=
| unknownDistinctOp
| noDistinctOp
| SortedDistinctOp
| HashDistinctOp.

Definition IsHash (d : distinctOp) : bool :=
  match d with HashDistinctOp => true | _ => false end.

(** ** [tableProps]: the table-name registry (memo.go, 520-545) *)

Record tableProps := mkTableProps {
  grpToName : gmap Z (list Z);
  nameToGrp : gmap (list Z) Z
}.

Definition newTableProps : tableProps :=
  {| grpToName := ∅; nameToGrp := ∅ |}.

Definition addTable (p : tableProps) (n : gostring) (id : GroupId) : tableProps :=
  {| grpToName := <[id := n]> (grpToName p);
     nameToGrp := <[n := id]> (nameToGrp p) |}.

(** A Go map read [v, ok := m[k]] yields the zero value and [false] on a
    missing key. *)
Definition GetTable (p : tableProps) (id : GroupId) : gostring * bool :=
  match grpToName p !! id with
  | Some n => (n, true)
  | None => ([], false)
  end.

(** The source kinds of memo.og.go: each is declared a [SourceRel] there
    and has [Name() = strings.ToLower(r.Table.Name())]. *)
Inductive sourceKind :=
| TableScan
| Values
| TableAlias
| RecursiveTable
| RecursiveCte
| SubqueryAlias
| Max1Row
| TableFunc
| EmptyTable.

(** Outcome of a Go call that returns an [error]: it returns (with or
    without an error, its writes to the memo standing either way), it
    dereferences [nil] and panics, or the model runs out of fuel. *)
Inductive outcome (E A : Type) :=
| Returned (err : option E) (a : A)
| Panicked
| OutOfFuel.
Arguments Returned {E A} err a.
Arguments Panicked {E A}.
Arguments OutOfFuel {E A}.

Section Memo.

(** *** Collaborators

    Types and functions that memo.go uses and that other packages
    declare: they are parameters of the development. *)

(** [float64], the type of costs, with its zero value, its addition and
    its comparison [<=]. *)
Context {float64 : Type}.
Variable f64_zero : float64.
Variable f64_add : float64 -> float64 -> float64.
Variable f64_leb : float64 -> float64 -> bool.

(** [plan.JoinType] and [JoinType.AsLookup]. *)
Context {JoinType : Type}.
Variable AsLookup : JoinType -> JoinType.

(** [sql.Expression], [sql.Index], [*plan.IndexedTableAccess] with its
    [Expressions] and [NullMask], the [error]s of a [Coster], and the
    hint set [joinHints]. *)
Context {Expression SqlIndex IndexedTableAccess error joinHints : Type}.
Variable Expressions : IndexedTableAccess -> list Expression.
Variable NullMask : IndexedTableAccess -> list bool.
Variable noHints : joinHints.

(** [unicode.To(unicode.LowerCase, r)], the case table of the Go
    standard library, consulted for runes above [MaxASCII] only. *)
Variable unicodeLowerCase : rune -> rune.

(** *** [strings.ToLower]

    [strings.ToLower] lowers a string rune by rune with
    [unicode.ToLower]; its ASCII-only fast path computes the same
    string. *)

Definition unicode_ToLower (r : rune) : rune :=
  if r <=? MaxASCII then
    (if (65 <=? r) && (r <=? 90) then r + (97 - 65) else r)
  else unicodeLowerCase r.

Definition ToLower (s : gostring) : gostring := map unicode_ToLower s.

(** [tableProps.GetId] (memo.go, 542-545). *)
Definition GetId (p : tableProps) (n : gostring) : GroupId * bool :=
  match nameToGrp p !! ToLower n with
  | Some id => (id, true)
  | None => (0, false)
  end.

(** *** Expression nodes *)

(** [Index] (memo.go, 666-672). *)
Record Index := mkIndex {
  order : list ColumnId;
  set : list ColumnId;
  idx : SqlIndex
}.

(** The fields [MemoizeIndexScan] gives an [IndexScan] (memo.go,
    254-259); its [relBase] is the one of the node that holds it. *)
Record IndexScan := mkIndexScan {
  Table : IndexedTableAccess;
  Alias : gostring;
  ScanIndex : Index
}.

(** [JoinBase] (memo.go, 717-724); the embedded [relBase] is the one of
    the node. *)
Record JoinBase := mkJoinBase {
  Op : JoinType;
  JoinFilter : list Expression;
  Left : pExprGroup;
  Right : pExprGroup
}.

(** [RangeHeap] (memo.go, 760-773); [Parent] points to the join node
    whose [JoinBase] it is. *)
Record RangeHeap := mkRangeHeap {
  ValueIndex : option IndexScan;
  ValueExpr : option Expression;
  MinIndex : option IndexScan;
  MinExpr : option Expression;
  ValueCol : Expression;
  MinColRef : Expression;
  MaxColRef : Expression;
  RangeClosedOnLowerBound : bool;
  RangeClosedOnUpperBound : bool;
  Parent : pRelExpr
}.

(** The variants of [RelExpr]: the structs of memo.og.go, with the
    fields memo.go gives them where the two files differ, and the
    [IndexScan] and [RangeHeapJoin] that memo.go builds. *)
Inductive relBody :=
| Source (k : sourceKind) (tableName : gostring)
| IndexScanRel (s : IndexScan)
| CrossJoin (b : JoinBase)
| InnerJoin (b : JoinBase)
| LeftJoin (b : JoinBase)
| SemiJoin (b : JoinBase)
| AntiJoin (b : JoinBase)
| FullOuterJoin (b : JoinBase)
| LookupJoin (b : JoinBase) (Lookup : IndexScan) (Injective : bool)
| ConcatJoin (b : JoinBase) (Concat : list IndexScan)
| HashJoin (b : JoinBase) (RightAttrs LeftAttrs : list pExprGroup)
| MergeJoin (b : JoinBase) (InnerScan OuterScan : IndexScan) (SwapCmp : bool)
| RangeHeapJoin (b : JoinBase) (rh : RangeHeap)
| Project (Child : pExprGroup) (Projections : list Expression)
| Distinct (Child : pExprGroup)
| Filter (Child : pExprGroup) (Filters : list Expression).

(** A node: its [relBase] (memo.go, 569-580; fields [g], [n], [c],
    [cnt], [d]) and its variant. *)
Record RelExpr := mkRelExpr {
  rel_g : pExprGroup;
  rel_n : pRelExpr;
  rel_c : float64;
  rel_cnt : float64;
  rel_d : distinctOp;
  body : relBody
}.

(** [&relBase{}] around a variant: every field at its zero value. *)
Definition newRel (b : relBody) : RelExpr :=
  {| rel_g := None; rel_n := None; rel_c := f64_zero; rel_cnt := f64_zero;
     rel_d := unknownDistinctOp; body := b |}.

(** The accessors of [relBase] (memo.go, 609-639). *)
Definition Group (r : RelExpr) : pExprGroup := rel_g r.
Definition Next (r : RelExpr) : pRelExpr := rel_n r.

Definition SetGroup (g : pExprGroup) (r : RelExpr) : RelExpr :=
  {| rel_g := g; rel_n := rel_n r; rel_c := rel_c r; rel_cnt := rel_cnt r;
     rel_d := rel_d r; body := body r |}.

Definition SetNext (n : pRelExpr) (r : RelExpr) : RelExpr :=
  {| rel_g := rel_g r; rel_n := n; rel_c := rel_c r; rel_cnt := rel_cnt r;
     rel_d := rel_d r; body := body r |}.

Definition SetCost (c : float64) (r : RelExpr) : RelExpr :=
  {| rel_g := rel_g r; rel_n := rel_n r; rel_c := c; rel_cnt := rel_cnt r;
     rel_d := rel_d r; body := body r |}.

Definition SetDistinct (d : distinctOp) (r : RelExpr) : RelExpr :=
  {| rel_g := rel_g r; rel_n := rel_n r; rel_c := rel_c r; rel_cnt := rel_cnt r;
     rel_d := d; body := body r |}.

(** [newJoin.Injective = true] on a [LookupJoin]. *)
Definition SetInjective (r : RelExpr) : RelExpr :=
  {| rel_g := rel_g r; rel_n := rel_n r; rel_c := rel_c r; rel_cnt := rel_cnt r;
     rel_d := rel_d r;
     body := match body r with
             | LookupJoin b l _ => LookupJoin b l true
             | o => o
             end |}.

Definition Injective (r : RelExpr) : bool :=
  match body r with
  | LookupJoin _ _ i => i
  | _ => false
  end.

(** [Children()]: [JoinBase.Children] (memo.go, 726-728) for the joins,
    the child for the unary nodes, [nil] for the sources. *)
Definition JoinPrivate (b : relBody) : option JoinBase :=
  match b with
  | CrossJoin j | InnerJoin j | LeftJoin j | SemiJoin j | AntiJoin j
  | FullOuterJoin j | LookupJoin j _ _ | ConcatJoin j _ | HashJoin j _ _
  | MergeJoin j _ _ _ | RangeHeapJoin j _ => Some j
  | _ => None
  end.

Definition Children (b : relBody) : list pExprGroup :=
  match JoinPrivate b with
  | Some j => [Left j; Right j]
  | None =>
      match b with
      | Project c _ | Distinct c | Filter c _ => [c]
      | _ => []
      end
  end.

(** The type test of [n] for a pointer to an [IndexScan]. *)
Definition isIndexScan (b : relBody) : bool :=
  match b with IndexScanRel _ => true | _ => false end.

(** *** Expression groups *)

(** Modelled from the spec: [ExprGroup] is declared in expr_group.go,
    which is not among the files at hand.  The fields are those memo.go reads
    and writes, as section 3 of the specification lists them: the group
    id, the first alternative, the chosen best alternative and its
    cost, the done and hint-ok flags, and the distinct requirement of
    its relational properties ([RelProps.Distinct]). *)
Record ExprGroup := mkExprGroup {
  Id : GroupId;
  First : pRelExpr;
  Best : pRelExpr;
  Cost : float64;
  Done : bool;
  HintOk : bool;
  RelPropsDistinct : distinctOp
}.

Definition setFirst (r : pRelExpr) (e : ExprGroup) : ExprGroup :=
  {| Id := Id e; First := r; Best := Best e; Cost := Cost e; Done := Done e;
     HintOk := HintOk e; RelPropsDistinct := RelPropsDistinct e |}.

Definition setBest (r : pRelExpr) (e : ExprGroup) : ExprGroup :=
  {| Id := Id e; First := First e; Best := r; Cost := Cost e; Done := Done e;
     HintOk := HintOk e; RelPropsDistinct := RelPropsDistinct e |}.

Definition setCost (c : float64) (e : ExprGroup) : ExprGroup :=
  {| Id := Id e; First := First e; Best := Best e; Cost := c; Done := Done e;
     HintOk := HintOk e; RelPropsDistinct := RelPropsDistinct e |}.

Definition setDone (b : bool) (e : ExprGroup) : ExprGroup :=
  {| Id := Id e; First := First e; Best := Best e; Cost := Cost e; Done := b;
     HintOk := HintOk e; RelPropsDistinct := RelPropsDistinct e |}.

Definition setHintOk (b : bool) (e : ExprGroup) : ExprGroup :=
  {| Id := Id e; First := First e; Best := Best e; Cost := Cost e; Done := Done e;
     HintOk := b; RelPropsDistinct := RelPropsDistinct e |}.

(** *** The memo *)

(** [Memo] (memo.go, 39-52) with the two stores.  The coster, the
    statistics provider, the context and the scope are collaborators
    and appear as parameters of the functions that call them. *)
Record Memo := mkMemo {
  cnt : Z;
  root : pExprGroup;
  hints : option joinHints;
  TableProps : tableProps;
  groups : list ExprGroup;
  exprs : list RelExpr
}.

(** [NewMemo] (memo.go, 54-64). *)
Definition NewMemo : Memo :=
  {| cnt := 0; root := None; hints := Some noHints;
     TableProps := newTableProps; groups := []; exprs := [] |}.

Definition setCnt (c : Z) (m : Memo) : Memo :=
  {| cnt := c; root := root m; hints := hints m; TableProps := TableProps m;
     groups := groups m; exprs := exprs m |}.

Definition setTableProps (p : tableProps) (m : Memo) : Memo :=
  {| cnt := cnt m; root := root m; hints := hints m; TableProps := p;
     groups := groups m; exprs := exprs m |}.

Definition setGroups (gs : list ExprGroup) (m : Memo) : Memo :=
  {| cnt := cnt m; root := root m; hints := hints m; TableProps := TableProps m;
     groups := gs; exprs := exprs m |}.

Definition setExprs (es : list RelExpr) (m : Memo) : Memo :=
  {| cnt := cnt m; root := root m; hints := hints m; TableProps := TableProps m;
     groups := groups m; exprs := es |}.

(** A write through a pointer. *)
Definition updGroup (g : nat) (f : ExprGroup -> ExprGroup) (m : Memo) : Memo :=
  setGroups (alter f g (groups m)) m.

Definition updRel (a : nat) (f : RelExpr -> RelExpr) (m : Memo) : Memo :=
  setExprs (alter f a (exprs m)) m.

(** [&T{...}]: a new object at the end of its store. *)
Definition allocRel (r : RelExpr) (m : Memo) : Memo * nat :=
  (setExprs (exprs m ++ [r]) m, length (exprs m)).

Definition allocGroup (e : ExprGroup) (m : Memo) : Memo * nat :=
  (setGroups (groups m ++ [e]) m, length (groups m)).

(** [Root] (memo.go, 74-76). *)
Definition Root (m : Memo) : pExprGroup := root m.

(** [getTableId] (memo.go, 103-105). *)
Definition getTableId (m : Memo) (table : gostring) : GroupId * bool :=
  GetId (TableProps m) table.

(** *** Groups and their lists of alternatives *)

(** Modelled from the spec: [newExprGroup] (expr_group.go) is not among
    the files at hand.  "Each group has exactly one first expression at
    construction": the new group has the given id and the given
    expression as its first; best, cost and flags are at their zero
    values.  The expression is given its group ([exprType.SetGroup]). *)
Definition newExprGroup (m : Memo) (id : GroupId) (rel : nat) : Memo * nat :=
  let '(m1, grp) :=
    allocGroup {| Id := id; First := Some rel; Best := None; Cost := f64_zero;
                  Done := false; HintOk := false;
                  RelPropsDistinct := unknownDistinctOp |} m in
  (updRel rel (SetGroup (Some grp)) m1, grp).

(** Modelled from the spec: [ExprGroup.Prepend] (expr_group.go) is not
    among the files at hand.  "Expressions added via Prepend become the
    new head of a group's list; earlier alternatives remain reachable",
    "prepending preserves reachability of the previous first via the
    next link": the expression becomes the first of the group and its
    next link is set to the previous first. *)
Definition Prepend (m : Memo) (e : nat) (rel : nat) : Memo :=
  match groups m !! e with
  | Some eg =>
      let first := First eg in
      updRel rel (SetNext first) (updGroup e (setFirst (Some rel)) m)
  | None => m
  end.

(** [IndexScan.Name]: an [IndexScan] is built on a [sourceBase]
    (memo.go, 254-259) but its [Name] is not among the files at hand. *)
Variable IndexScanName : IndexScan -> gostring.

(** The type test [rel.(SourceRel)]. *)
Definition isSourceRel (b : relBody) : bool :=
  match b with
  | Source _ _ | IndexScanRel _ => true
  | _ => false
  end.

(** [Name()] of a source (memo.og.go:
    [strings.ToLower(r.Table.Name())]). *)
Definition Name (b : relBody) : gostring :=
  match b with
  | Source _ t => ToLower t
  | IndexScanRel s => IndexScanName s
  | _ => []
  end.

(** [NewExprGroup] (memo.go, 87-96). *)
Definition NewExprGroup (m : Memo) (rel : nat) : Memo * nat :=
  let m1 := setCnt (uint16 (cnt m + 1)) m in
  let id := cnt m1 in
  let '(m2, grp) := newExprGroup m1 id rel in
  match exprs m2 !! rel with
  | Some s =>
      if isSourceRel (body s)
      then (setTableProps (addTable (TableProps m2) (Name (body s)) id) m2, grp)
      else (m2, grp)
  | None => (m2, grp)
  end.

(** [memoizeSourceRel] (memo.go, 98-101). *)
Definition memoizeSourceRel (m : Memo) (rel : nat) : Memo * nat :=
  NewExprGroup m rel.

(** *** The memoizing constructors (memo.go, 107-280) *)

Definition MemoizeLeftJoin (m : Memo) (grp left right : pExprGroup)
    (op : JoinType) (filter : list Expression) : Memo * nat :=
  let '(m1, newJoin) :=
    allocRel (newRel (LeftJoin {| Op := op; JoinFilter := filter;
                                  Left := left; Right := right |})) m in
  match grp with
  | None => NewExprGroup m1 newJoin
  | Some g =>
      let m2 := updRel newJoin (SetGroup (Some g)) m1 in
      (Prepend m2 g newJoin, g)
  end.

Definition MemoizeInnerJoin (m : Memo) (grp left right : pExprGroup)
    (op : JoinType) (filter : list Expression) : Memo * nat :=
  let '(m1, newJoin) :=
    allocRel (newRel (InnerJoin {| Op := op; JoinFilter := filter;
                                   Left := left; Right := right |})) m in
  match grp with
  | None => NewExprGroup m1 newJoin
  | Some g =>
      let m2 := updRel newJoin (SetGroup (Some g)) m1 in
      (Prepend m2 g newJoin, g)
  end.

(** [isInjectiveLookup], not among the files at hand: it is given the
    memo and the pointer to the new join in place of the pointer to its
    [JoinBase]. *)
Variable isInjectiveLookup :
  Memo -> Index -> nat -> list Expression -> list bool -> bool.

Definition MemoizeLookupJoin (m : Memo) (grp left right : pExprGroup)
    (op : JoinType) (filter : list Expression) (lookup : IndexScan)
    : Memo * nat :=
  let '(m1, newJoin) :=
    allocRel (newRel (LookupJoin {| Op := AsLookup op; JoinFilter := filter;
                                    Left := left; Right := right |}
                                 lookup false)) m in
  match grp with
  | None => NewExprGroup m1 newJoin
  | Some g =>
      let m2 := updRel newJoin (SetGroup (Some g)) m1 in
      let m3 := Prepend m2 g newJoin in
      let m4 :=
        if isInjectiveLookup m3 (ScanIndex lookup) newJoin
             (Expressions (Table lookup)) (NullMask (Table lookup))
        then updRel newJoin SetInjective m3
        else m3 in
      (m4, g)
  end.

Definition MemoizeConcatLookupJoin (m : Memo) (grp left right : pExprGroup)
    (op : JoinType) (filter : list Expression) (lookups : list IndexScan)
    : Memo * nat :=
  let '(m1, newJoin) :=
    allocRel (newRel (ConcatJoin {| Op := AsLookup op; JoinFilter := filter;
                                    Left := left; Right := right |}
                                 lookups)) m in
  match grp with
  | None => NewExprGroup m1 newJoin
  | Some g =>
      let m2 := updRel newJoin (SetGroup (Some g)) m1 in
      (Prepend m2 g newJoin, g)
  end.

Definition SetParent (p : pRelExpr) (rh : RangeHeap) : RangeHeap :=
  {| ValueIndex := ValueIndex rh; ValueExpr := ValueExpr rh;
     MinIndex := MinIndex rh; MinExpr := MinExpr rh;
     ValueCol := ValueCol rh; MinColRef := MinColRef rh;
     MaxColRef := MaxColRef rh;
     RangeClosedOnLowerBound := RangeClosedOnLowerBound rh;
     RangeClosedOnUpperBound := RangeClosedOnUpperBound rh;
     Parent := p |}.

(** [newJoin.RangeHeap.Parent = newJoin.JoinBase] is the [SetParent] on
    the descriptor the new node holds. *)
Definition MemoizeRangeHeapJoin (m : Memo) (grp left right : pExprGroup)
    (op : JoinType) (filter : list Expression) (rangeHeap : RangeHeap)
    : Memo * nat :=
  let newJoin := length (exprs m) in
  let '(m1, _) :=
    allocRel (newRel (RangeHeapJoin {| Op := op; JoinFilter := filter;
                                       Left := left; Right := right |}
                                    (SetParent (Some newJoin) rangeHeap))) m in
  match grp with
  | None => NewExprGroup m1 newJoin
  | Some g =>
      let m2 := updRel newJoin (SetGroup (Some g)) m1 in
      (Prepend m2 g newJoin, g)
  end.

Definition MemoizeMergeJoin (m : Memo) (grp left right : pExprGroup)
    (lIdx rIdx : IndexScan) (op : JoinType) (filter : list Expression)
    (swapCmp : bool) : Memo * nat :=
  let '(m1, rel) :=
    allocRel (newRel (MergeJoin {| Op := op; JoinFilter := filter;
                                   Left := left; Right := right |}
                                lIdx rIdx swapCmp)) m in
  match grp with
  | None => NewExprGroup m1 rel
  | Some g =>
      let m2 := updRel rel (SetGroup (Some g)) m1 in
      (Prepend m2 g rel, g)
  end.

Definition MemoizeProject (m : Memo) (grp child : pExprGroup)
    (projections : list Expression) : Memo * nat :=
  let '(m1, rel) := allocRel (newRel (Project child projections)) m in
  match grp with
  | None => NewExprGroup m1 rel
  | Some g =>
      let m2 := updRel rel (SetGroup (Some g)) m1 in
      (Prepend m2 g rel, g)
  end.

Definition MemoizeIndexScan (m : Memo) (grp : pExprGroup)
    (ita : IndexedTableAccess) (alias : gostring) (index : Index)
    : Memo * nat :=
  let '(m1, rel) :=
    allocRel (newRel (IndexScanRel {| Table := ita; Alias := alias;
                                      ScanIndex := index |})) m in
  match grp with
  | None => NewExprGroup m1 rel
  | Some g =>
      let m2 := updRel rel (SetGroup (Some g)) m1 in
      (Prepend m2 g rel, g)
  end.

Definition MemoizeFilter (m : Memo) (grp child : pExprGroup)
    (filters : list Expression) : Memo * nat :=
  let '(m1, rel) := allocRel (newRel (Filter child filters)) m in
  match grp with
  | None => NewExprGroup m1 rel
  | Some g =>
      let m2 := updRel rel (SetGroup (Some g)) m1 in
      (Prepend m2 g rel, g)
  end.

(** *** Choosing the best alternative *)

(** Modelled from the spec: [ExprGroup.updateBest] (expr_group.go) is
    not among the files at hand.  "Within each category, minimum cost
    wins": the candidate becomes the best of the group when the group
    has none yet or when its cost is at most the cost of the current
    best. *)
Definition ExprGroup_updateBest (n : pRelExpr) (grpCost : float64)
    (e : ExprGroup) : ExprGroup :=
  match Best e with
  | None => setCost grpCost (setBest n e)
  | Some _ =>
      if f64_leb grpCost (Cost e) then setCost grpCost (setBest n e) else e
  end.

(** [joinHints.satisfiedBy], not among the files at hand; it reads the
    alternative through the memo. *)
Variable satisfiedBy : joinHints -> Memo -> nat -> bool.

Definition isNil {A : Type} (p : option A) : bool :=
  match p with None => true | Some _ => false end.

(** [Memo.updateBest] (memo.go, 383-399). *)
Definition updateBest (m : Memo) (grp : nat) (n : nat) (cost : float64) : Memo :=
  match hints m with
  | Some h =>
      if satisfiedBy h m n then
        updGroup grp
          (fun e =>
             if negb (HintOk e)
             then setHintOk true (setCost cost (setBest (Some n) e))
             else ExprGroup_updateBest (Some n) cost e) m
      else
        updGroup grp
          (fun e =>
             if isNil (Best e) || negb (HintOk e)
             then ExprGroup_updateBest (Some n) cost e
             else e) m
  | None => updGroup grp (ExprGroup_updateBest (Some n) cost) m
  end.

(** The calls of [updateBest] that the loop of [optimizeMemoGroup]
    (memo.go, 336-368) makes for one group, in the order of its
    alternatives, each with the cost summed for it. *)
Definition updateBestAll (m : Memo) (grp : nat) (cands : list (nat * float64))
    : Memo :=
  fold_left (fun m nc => updateBest m grp (fst nc) (snd nc)) cands m.

(** *** [optimizeMemoGroup] (memo.go, 310-378) *)

(** The [Coster] of the memo, [sortedInputs], the row count
    [statsForRel(d).RowCount()] of the [Distinct] over a group, and
    [ExprGroup.fixConflicts]: not among the files at hand. *)
Variable EstimateCost : Memo -> nat -> float64 + error.
Variable sortedInputs : Memo -> nat -> bool.
Variable distinctRowCount : Memo -> nat -> float64.
Variable fixConflicts : nat -> Memo -> Memo.

(** The search [for ; n != nil; n = n.Next()] for an [IndexScan]
    (memo.go, 326-331): the first one on the list from [n], or [nil]. *)
Fixpoint firstIndexScan (fuel : nat) (m : Memo) (n : pRelExpr)
    : outcome error pRelExpr :=
  match n with
  | None => Returned None None
  | Some a =>
      match exprs m !! a with
      | None => Panicked
      | Some r =>
          if isIndexScan (body r) then Returned None (Some a)
          else match fuel with
               | O => OutOfFuel
               | S fuel' => firstIndexScan fuel' m (Next r)
               end
      end
  end.

(** The state of an optimization: the memo and the log of the
    expressions handed to [EstimateCost], oldest first. *)
Definition OptState : Type := Memo * list nat.

(** The source branch (memo.go, 317-334). *)
Definition optimizeSource (fuel : nat) (grp : nat) (st : OptState)
    : outcome error OptState :=
  let '(m, costed) := st in
  let m1 :=
    updGroup grp (fun e => setBest (First e) (setHintOk true (setDone true e))) m in
  match groups m1 !! grp with
  | None => Panicked
  | Some e =>
      match firstIndexScan fuel m1 (First e) with
      | Returned _ found =>
          let best := match found with Some i => Some i | None => Best e end in
          match best with
          | Some b =>
              Returned None
                (updRel b (SetDistinct noDistinctOp)
                   (updGroup grp (setBest best) m1), costed)
          | None => Panicked
          end
      | Panicked => Panicked
      | OutOfFuel => OutOfFuel
      end
  end.

(** The body of the costing loop after the children are optimized
    (memo.go, 345-367): float64 the alternative, set its distinct
    operator and cost, and update the best of the group. *)
Definition costAlternative (grp : nat) (a : nat) (cost : float64)
    (st : OptState) : outcome error OptState :=
  let '(m, costed) := st in
  let costed' := costed ++ [a] in
  match EstimateCost m a with
  | inr err => Returned (Some err) (m, costed')
  | inl relCost =>
      match groups m !! grp with
      | None => Panicked
      | Some e =>
          let '(m1, relCost1) :=
            if IsHash (RelPropsDistinct e) then
              if sortedInputs m a
              then (updRel a (SetDistinct SortedDistinctOp) m,
                    f64_add relCost f64_zero)
              else
                let m' := updRel a (SetDistinct HashDistinctOp) m in
                (m', f64_add relCost (distinctRowCount m' grp))
            else (updRel a (SetDistinct noDistinctOp) m, relCost) in
          let m2 := updRel a (SetCost relCost1) m1 in
          Returned None (updateBest m2 grp a (f64_add cost relCost1), costed')
      end
  end.

Fixpoint optimizeMemoGroup (fuel : nat) (grp : nat) (st : OptState)
    {struct fuel} : outcome error OptState :=
  match fuel with
  | O => OutOfFuel
  | S fuel' =>
      match groups (fst st) !! grp with
      | None => Panicked
      | Some e =>
          if Done e then Returned None st
          else
            let optimizeChildren :=
              fix optimizeChildren (gs : list pExprGroup) (cost : float64)
                  (st : OptState) : outcome error (OptState * float64) :=
                match gs with
                | [] => Returned None (st, cost)
                | None :: _ => Panicked
                | Some g :: gs' =>
                    match optimizeMemoGroup fuel' g st with
                    | Returned (Some err) st' => Returned (Some err) (st', cost)
                    | Returned None st' =>
                        match groups (fst st') !! g with
                        | Some ge =>
                            optimizeChildren gs' (f64_add cost (Cost ge)) st'
                        | None => Panicked
                        end
                    | Panicked => Panicked
                    | OutOfFuel => OutOfFuel
                    end
                end in
            let costLoop :=
              fix costLoop (k : nat) (n : pRelExpr) (st : OptState)
                  : outcome error OptState :=
                match n with
                | None =>
                    Returned None
                      (updGroup grp (setDone true) (fixConflicts grp (fst st)),
                       snd st)
                | Some a =>
                    match k with
                    | O => OutOfFuel
                    | S k' =>
                        match exprs (fst st) !! a with
                        | None => Panicked
                        | Some r =>
                            match optimizeChildren (Children (body r)) f64_zero st with
                            | Returned (Some err) (st', _) => Returned (Some err) st'
                            | Returned None (st', cost) =>
                                match costAlternative grp a cost st' with
                                | Returned None st'' =>
                                    match exprs (fst st'') !! a with
                                    | Some r' => costLoop k' (Next r') st''
                                    | None => Panicked
                                    end
                                | o => o
                                end
                            | Panicked => Panicked
                            | OutOfFuel => OutOfFuel
                            end
                        end
                    end
                end in
            match First e with
            | None => costLoop fuel' None st
            | Some a =>
                match exprs (fst st) !! a with
                | None => Panicked
                | Some r =>
                    if isSourceRel (body r)
                    then optimizeSource fuel' grp st
                    else costLoop fuel' (Some a) st
                end
            end
      end
  end.

(** [OptimizeRoot] (memo.go, 297-299). *)
Definition OptimizeRoot (fuel : nat) (st : OptState) : outcome error OptState :=
  match root (fst st) with
  | Some r => optimizeMemoGroup fuel r st
  | None => Panicked
  end.

(** *** Reification (memo.go, 401-422) *)

(** [sql.Node] and [sql.Schema]; a [sql.Node] value may be [nil]. *)
Context {Node Schema : Type}.

(** [ExecBuilder.buildRel], not among the files at hand: from an
    expression and the nodes built for its children, a node and an
    error, either of which may be [nil]. *)
Variable buildRel :
  Memo -> nat -> list (option Node) -> option Node * option error.

(** The error [fmt.Errorf("expected expression group plans to be fixed")]. *)
Variable errNotFixed : error.

(** The loop over [n.Children()] (memo.go, 415-420): the children are
    built in order by [rec] and the first error ends the loop. *)
Fixpoint buildChildren (rec : pExprGroup -> outcome error (option Node))
    (gs : list pExprGroup) : outcome error (list (option Node)) :=
  match gs with
  | [] => Returned None []
  | g :: gs' =>
      match rec g with
      | Returned None node =>
          match buildChildren rec gs' with
          | Returned None nodes => Returned None (node :: nodes)
          | o => o
          end
      | Returned (Some err) _ => Returned (Some err) []
      | Panicked => Panicked
      | OutOfFuel => OutOfFuel
      end
  end.

(** [buildBestJoinPlan] (memo.go, 408-422).  Reading [grp.Done] through a
    [nil] group and calling [n.Children()] on a [nil] best panic. *)
Fixpoint buildBestJoinPlan (fuel : nat) (m : Memo) (grp : pExprGroup)
    (input : option Schema) {struct fuel} : outcome error (option Node) :=
  match fuel with
  | O => OutOfFuel
  | S fuel' =>
      match grp with
      | None => Panicked
      | Some g =>
          match groups m !! g with
          | None => Panicked
          | Some e =>
              if negb (Done e) then Returned (Some errNotFixed) None
              else
                match Best e with
                | None => Panicked
                | Some n =>
                    match exprs m !! n with
                    | None => Panicked
                    | Some r =>
                        match buildChildren
                                (fun g' => buildBestJoinPlan fuel' m g' input)
                                (Children (body r)) with
                        | Returned None children =>
                            let '(node, err) := buildRel m n children in
                            Returned err node
                        | Returned (Some err) _ => Returned (Some err) None
                        | Panicked => Panicked
                        | OutOfFuel => OutOfFuel
                        end
                    end
                end
          end
      end
  end.

(** [BestRootPlan] (memo.go, 401-404). *)
Definition BestRootPlan (fuel : nat) (m : Memo) : outcome error (option Node) :=
  buildBestJoinPlan fuel m (root m) None.

(** The depth-first traversal of the best expressions, as a reference:
    from a group, the node of its best expression over the nodes of the
    operand groups of that expression, built left to right.  It does not
    read the done flags. *)
Fixpoint depthFirstPlan (fuel : nat) (m : Memo) (grp : pExprGroup)
    (input : option Schema) {struct fuel} : outcome error (option Node) :=
  match fuel with
  | O => OutOfFuel
  | S fuel' =>
      match grp with
      | None => Panicked
      | Some g =>
          match groups m !! g with
          | None => Panicked
          | Some e =>
              match Best e with
              | None => Panicked
              | Some n =>
                  match exprs m !! n with
                  | None => Panicked
                  | Some r =>
                      match buildChildren
                              (fun g' => depthFirstPlan fuel' m g' input)
                              (Children (body r)) with
                      | Returned None children =>
                          let '(node, err) := buildRel m n children in
                          Returned err node
                      | Returned (Some err) _ => Returned (Some err) None
                      | Panicked => Panicked
                      | OutOfFuel => OutOfFuel
                      end
                  end
              end
          end
      end
  end.

(** [reach m g g']: the group [g'] is reached from [g] through the
    operand groups of best expressions. *)
Inductive reach (m : Memo) : nat -> nat -> Prop :=
| reach_refl g : reach m g g
| reach_child g e n r c g' :
    groups m !! g = Some e ->
    Best e = Some n ->
    exprs m !! n = Some r ->
    In (Some c) (Children (body r)) ->
    reach m c g' ->
    reach m g g'.

(** [planOk d m g]: within depth [d] from [g], every group that is done
    has a best expression, and the operands of that expression are groups
    of the memo for which the same holds.  Nothing is asked of a group
    that is not done. *)
Fixpoint planOk (d : nat) (m : Memo) (g : nat) : bool :=
  match d with
  | O => false
  | S d' =>
      match groups m !! g with
      | None => false
      | Some e =>
          if Done e then
            match Best e with
            | None => false
            | Some n =>
                match exprs m !! n with
                | None => false
                | Some r =>
                    forallb (fun c => match c with
                                      | None => false
                                      | Some c' => planOk d' m c'
                                      end)
                      (Children (body r))
                end
            end
          else true
      end
  end.

(** *** The alternatives of a group *)

(** [chain m n l]: following the next links from [n] visits exactly
    the expressions [l] and then reaches [nil]. *)
Inductive chain (m : Memo) : pRelExpr -> list nat -> Prop :=
| chain_nil : chain m None []
| chain_cons a r l :
    exprs m !! a = Some r -> chain m (Next r) l -> chain m (Some a) (a :: l).

Definition isIndexScanAt (m : Memo) (a : nat) : bool :=
  match exprs m !! a with
  | Some r => isIndexScan (body r)
  | None => false
  end.

(** The memoizing join constructors of memo.go, as one family. *)
Inductive joinCall :=
| CallLeftJoin (op : JoinType) (filter : list Expression)
| CallInnerJoin (op : JoinType) (filter : list Expression)
| CallLookupJoin (op : JoinType) (filter : list Expression) (lookup : IndexScan)
| CallConcatLookupJoin (op : JoinType) (filter : list Expression)
    (lookups : list IndexScan)
| CallRangeHeapJoin (op : JoinType) (filter : list Expression)
    (rangeHeap : RangeHeap)
| CallMergeJoin (lIdx rIdx : IndexScan) (op : JoinType)
    (filter : list Expression) (swapCmp : bool).

Definition MemoizeJoin (c : joinCall) (m : Memo) (grp left right : pExprGroup)
    : Memo * nat :=
  match c with
  | CallLeftJoin op filter => MemoizeLeftJoin m grp left right op filter
  | CallInnerJoin op filter => MemoizeInnerJoin m grp left right op filter
  | CallLookupJoin op filter lookup =>
      MemoizeLookupJoin m grp left right op filter lookup
  | CallConcatLookupJoin op filter lookups =>
      MemoizeConcatLookupJoin m grp left right op filter lookups
  | CallRangeHeapJoin op filter rangeHeap =>
      MemoizeRangeHeapJoin m grp left right op filter rangeHeap
  | CallMergeJoin lIdx rIdx op filter swapCmp =>
      MemoizeMergeJoin m grp left right lIdx rIdx op filter swapCmp
  end.

(** What a memoizing join constructor leaves in [m'] when it is given
    the group [g] of [m], whose record was [e]: a new expression, a join
    of [left] and [right], is the first of [g] and points to its group;
    its next link is the previous first, so that the previous
    alternatives follow it on the list; the expressions of [m] and its
    other groups are as they were, and so are the best, the cost and
    the flags of [g]. *)
Definition prepended (m : Memo) (g : nat) (e : ExprGroup)
    (left right : pExprGroup) (m' : Memo) : Prop :=
  exists newJoin r e' j,
    exprs m !! newJoin = None /\
    exprs m' !! newJoin = Some r /\
    JoinPrivate (body r) = Some j /\ Left j = left /\ Right j = right /\
    Group r = Some g /\
    Next r = First e /\
    groups m' !! g = Some e' /\
    First e' = Some newJoin /\
    (forall l, chain m (First e) l -> chain m' (First e') (newJoin :: l)) /\
    Best e' = Best e /\ Cost e' = Cost e /\ Done e' = Done e /\
    HintOk e' = HintOk e /\
    (forall g', g' <> g -> groups m' !! g' = groups m !! g') /\
    (forall a, a <> newJoin -> exprs m' !! a = exprs m !! a).

(** What a memoizing join constructor returns when it is given no
    group: a group that [m] does not have, whose first and only
    expression is a new join of [left] and [right]; the groups and
    expressions of [m] are as they were. *)
Definition created (m : Memo) (left right : pExprGroup)
    (res : Memo * nat) : Prop :=
  groups m !! snd res = None /\
  exists newJoin r e' j,
    exprs m !! newJoin = None /\
    exprs (fst res) !! newJoin = Some r /\
    JoinPrivate (body r) = Some j /\ Left j = left /\ Right j = right /\
    Group r = Some (snd res) /\
    Next r = None /\
    groups (fst res) !! snd res = Some e' /\
    First e' = Some newJoin /\
    (forall g', g' <> snd res -> groups (fst res) !! g' = groups m !! g') /\
    (forall a, a <> newJoin -> exprs (fst res) !! a = exprs m !! a).

(** [minimal P keep c]: [c] is at most the cost of every candidate of
    [P] that [keep] retains. *)
Definition minimal (P : list (nat * float64)) (keep : nat -> bool)
    (c : float64) : Prop :=
  forall n' c', In (n', c') P -> keep n' = true -> f64_leb c c' = true.

(** [chosen sat P e]: the record [e] of a group holds the choice among
    the candidates [P], of which [sat] tells the hint-satisfying ones.
    If some candidate satisfies the hints, the group is hint-ok and its
    best is a satisfying candidate of minimal cost among the
    satisfying ones.  If none does, the group is not hint-ok and its
    best is a candidate of minimal cost among all (none if there is no
    candidate). *)
Definition chosen (sat : nat -> bool) (P : list (nat * float64))
    (e : ExprGroup) : Prop :=
  if existsb (fun nc => sat (fst nc)) P then
    HintOk e = true /\
    exists n, Best e = Some n /\ In (n, Cost e) P /\ sat n = true /\
              minimal P sat (Cost e)
  else
    HintOk e = false /\
    ((P = [] /\ Best e = None) \/
     exists n, Best e = Some n /\ In (n, Cost e) P /\
               minimal P (fun _ => true) (Cost e)).


(** *** Keys and table ids derived from group ids *)

(** Go's [int], 64 bits wide on the platforms the server is built for,
    and [uint64]: arithmetic wraps. *)
Definition int64 (z : Z) : Z := (z + 2 ^ 63) mod 2 ^ 64 - 2 ^ 63.
Definition uint64 (z : Z) : Z := z mod 2 ^ 64.

(** [TableIdForSource] (memo.go, 641-643); [TableId] is a [uint16]. *)
Definition TableIdForSource (id : GroupId) : Z := uint16 (id - 1).

(** [g.Id] read through a pointer; [None] is the panic of reading
    through [nil]. *)
Definition groupId (m : Memo) (g : pExprGroup) : option GroupId :=
  match g with
  | Some i => Id <$> groups m !! i
  | None => None
  end.

(** The loop of [relKey] over [r.Children()] (memo.go, 589-592), with
    the running [key] and the weight [i]. *)
Fixpoint relKeyLoop (m : Memo) (cs : list pExprGroup) (key i : Z) : option Z :=
  match cs with
  | [] => Some key
  | c :: cs' =>
      match groupId m c with
      | Some id =>
          relKeyLoop m cs' (int64 (key + int64 (i * id))) (int64 (i * (2 ^ 16 - 1)))
      | None => None
      end
  end.

(** [relKey] (memo.go, 586-594). *)
Definition relKey (m : Memo) (r : RelExpr) : option Z :=
  match groupId m (Group r) with
  | Some id => uint64 <$> relKeyLoop m (Children (body r)) id (2 ^ 16 - 1)
  | None => None
  end.

(** The ids [relKey] reads: the id of the group of [r] and the ids of
    its operand groups. *)
Definition relIds (m : Memo) (r : RelExpr) : option (GroupId * list GroupId) :=
  match groupId m (Group r), mapM (groupId m) (Children (body r)) with
  | Some g, Some cs => Some (g, cs)
  | _, _ => None
  end.

(** *** The constructors of nodes other than joins (memo.go, 235-280) *)

Inductive nodeCall :=
| CallProject (child : pExprGroup) (projections : list Expression)
| CallIndexScan (ita : IndexedTableAccess) (alias : gostring) (index : Index)
| CallFilter (child : pExprGroup) (filters : list Expression).

Definition MemoizeNode (c : nodeCall) (m : Memo) (grp : pExprGroup)
    : Memo * nat :=
  match c with
  | CallProject child projections => MemoizeProject m grp child projections
  | CallIndexScan ita alias index => MemoizeIndexScan m grp ita alias index
  | CallFilter child filters => MemoizeFilter m grp child filters
  end.

(** The node a constructor builds. *)
Definition nodeOf (c : nodeCall) : relBody :=
  match c with
  | CallProject child projections => Project child projections
  | CallIndexScan ita alias index =>
      IndexScanRel {| Table := ita; Alias := alias; ScanIndex := index |}
  | CallFilter child filters => Filter child filters
  end.

(** What such a constructor leaves in [m'] when it is given the group
    [g] of [m], whose record was [e]: the new node is the first of [g],
    the previous alternatives follow it, and nothing else of the memo
    has changed. *)
Definition prependedNode (m : Memo) (g : nat) (e : ExprGroup) (b : relBody)
    (m' : Memo) : Prop :=
  exists rel r e',
    exprs m !! rel = None /\
    exprs m' !! rel = Some r /\
    body r = b /\ Group r = Some g /\ Next r = First e /\
    groups m' !! g = Some e' /\
    First e' = Some rel /\
    (forall l, chain m (First e) l -> chain m' (First e') (rel :: l)) /\
    Id e' = Id e /\ Best e' = Best e /\ Cost e' = Cost e /\
    Done e' = Done e /\ HintOk e' = HintOk e /\
    (forall g', g' <> g -> groups m' !! g' = groups m !! g') /\
    (forall a, a <> rel -> exprs m' !! a = exprs m !! a) /\
    cnt m' = cnt m /\ TableProps m' = TableProps m /\
    root m' = root m /\ hints m' = hints m.

(** What it returns when it is given no group: a group that [m] does
    not have, with the next id, whose only expression is the new node;
    the name of a source node is registered under that id. *)
Definition createdNode (m : Memo) (b : relBody) (res : Memo * nat) : Prop :=
  groups m !! snd res = None /\
  exists rel r e',
    exprs m !! rel = None /\
    exprs (fst res) !! rel = Some r /\
    body r = b /\ Group r = Some (snd res) /\ Next r = None /\
    groups (fst res) !! snd res = Some e' /\
    First e' = Some rel /\ Id e' = uint16 (cnt m + 1) /\
    Best e' = None /\ Done e' = false /\ HintOk e' = false /\
    (forall g', g' <> snd res -> groups (fst res) !! g' = groups m !! g') /\
    (forall a, a <> rel -> exprs (fst res) !! a = exprs m !! a) /\
    cnt (fst res) = uint16 (cnt m + 1) /\
    TableProps (fst res)
    = (if isSourceRel b then addTable (TableProps m) (Name b) (Id e')
       else TableProps m) /\
    root (fst res) = root m /\ hints (fst res) = hints m.

(** *** Memos built through the constructors *)

(** [m.root = g], the assignment the planner makes once the groups of a
    query are memoized. *)
Definition setRoot (g : pExprGroup) (m : Memo) : Memo :=
  {| cnt := cnt m; root := g; hints := hints m; TableProps := TableProps m;
     groups := groups m; exprs := exprs m |}.

(** The memos reached from [NewMemo] by the calls of this file: a node
    is built by a caller ([&TableScan{...}]) and given to
    [NewExprGroup], or a memoizing constructor is called, with or
    without a target group; the root is assigned. *)
Inductive constructed : Memo -> Prop :=
| constructed_NewMemo : constructed NewMemo
| constructed_alloc m r :
    constructed m -> constructed (fst (allocRel (newRel r) m))
| constructed_NewExprGroup m rel :
    constructed m -> constructed (fst (NewExprGroup m rel))
| constructed_join m c grp left right :
    constructed m -> constructed (fst (MemoizeJoin c m grp left right))
| constructed_node m c grp :
    constructed m -> constructed (fst (MemoizeNode c m grp))
| constructed_root m g :
    constructed m -> constructed (setRoot g m).

(** *** Groups whose plans are fixed *)

(** The operands of the expression [n] are groups of the memo that are
    done. *)
Definition operandsDone (m : Memo) (n : nat) : Prop :=
  exists r, exprs m !! n = Some r /\
    forall c, In c (Children (body r)) ->
      exists c' ec, c = Some c' /\ groups m !! c' = Some ec /\ Done ec = true.

(** Every group has a first expression, a group that is done has a best
    expression, and the operands of a best expression are done. *)
Definition plansFixed (m : Memo) : Prop :=
  forall g e, groups m !! g = Some e ->
    First e <> None /\
    (Done e = true -> Best e <> None) /\
    (forall n, Best e = Some n -> operandsDone m n).

(** [advanced m m']: from [m] to [m'] the expressions keep their
    variants and next links, the groups keep their first expressions, a
    group that is done stays done, a best that is set stays set, and the
    root is the same. *)
Definition advanced (m m' : Memo) : Prop :=
  root m' = root m /\
  (forall a r, exprs m !! a = Some r ->
     exists r', exprs m' !! a = Some r' /\ body r' = body r /\ Next r' = Next r) /\
  (forall g e, groups m !! g = Some e ->
     exists e', groups m' !! g = Some e' /\ First e' = First e /\
       (Done e = true -> Done e' = true) /\
       (Best e <> None -> Best e' <> None)).

(** [optimizedFrom m grp m']: the memo has advanced from [m] to [m'],
    the plans of [m'] are fixed and its group [grp] is done. *)
Definition optimizedFrom (m : Memo) (grp : nat) (m' : Memo) : Prop :=
  advanced m m' /\ plansFixed m' /\
  exists e', groups m' !! grp = Some e' /\ Done e' = true.

(** *** Invariants of the memos built through the constructors *)

(** The counter of the memo is the number of its groups, and the group
    at position [i] of the store, the [i + 1]-th created, has the id
    [i + 1]; both as [uint16]. *)
Definition idsInOrder (m : Memo) : Prop :=
  cnt m = uint16 (Z.of_nat (length (groups m))) /\
  forall i e, groups m !! i = Some e -> Id e = uint16 (Z.of_nat i + 1).

(** Every group is as [newExprGroup] made it, but for its first
    expression: no best, not done, not hint-ok. *)
Definition unoptimized (m : Memo) : Prop :=
  forall g e, groups m !! g = Some e ->
    First e <> None /\ Best e = None /\ Done e = false /\ HintOk e = false.

(** The two maps of the registry agree: a name maps to the id of a
    group of the memo, and that id maps back to the name. *)
Definition registryOk (m : Memo) : Prop :=
  forall n id, nameToGrp (TableProps m) !! n = Some id ->
    grpToName (TableProps m) !! id = Some n /\
    exists i e, groups m !! i = Some e /\ Id e = id.

(** *** The loops of [optimizeMemoGroup]

    The loop over the operands of an alternative (memo.go, 338-344) and
    the loop over the alternatives of a group (memo.go, 336-373), as
    [optimizeMemoGroup] has them, with the recursive call as the
    parameter [rec]. *)
Section Loops.

Variable rec : nat -> OptState -> outcome error OptState.
Variable grp : nat.

Fixpoint optimizeChildrenWith
    (gs : list pExprGroup) (cost : float64) (st : OptState)
    : outcome error (OptState * float64) :=
  match gs with
  | [] => Returned None (st, cost)
  | None :: _ => Panicked
  | Some g :: gs' =>
      match rec g st with
      | Returned (Some err) st' => Returned (Some err) (st', cost)
      | Returned None st' =>
          match groups (fst st') !! g with
          | Some ge =>
              optimizeChildrenWith gs' (f64_add cost (Cost ge)) st'
          | None => Panicked
          end
      | Panicked => Panicked
      | OutOfFuel => OutOfFuel
      end
  end.

Fixpoint costLoopWith (k : nat) (n : pRelExpr) (st : OptState)
    : outcome error OptState :=
  match n with
  | None =>
      Returned None
        (updGroup grp (setDone true) (fixConflicts grp (fst st)), snd st)
  | Some a =>
      match k with
      | O => OutOfFuel
      | S k' =>
          match exprs (fst st) !! a with
          | None => Panicked
          | Some r =>
              match optimizeChildrenWith (Children (body r)) f64_zero st with
              | Returned (Some err) (st', _) => Returned (Some err) st'
              | Returned None (st', cost) =>
                  match costAlternative grp a cost st' with
                  | Returned None st'' =>
                      match exprs (fst st'') !! a with
                      | Some r' => costLoopWith k' (Next r') st''
                      | None => Panicked
                      end
                  | o => o
                  end
              | Panicked => Panicked
              | OutOfFuel => OutOfFuel
              end
          end
      end
  end.

End Loops.


(** *** The candidates of a group

    What the costing loop of [optimizeMemoGroup] hands to
    [updateBest], call by call. *)

(** The cost passed to [m.updateBest(grp, n, cost)] for the alternative
    [a] (memo.go, 345-366): [cost], the sum over the operand groups, plus
    [relCost], the estimate of the coster with the cost of a hash
    distinct added when the group asks for one; [None] where the loop
    does not reach the call. *)
Definition candidateCost (grp a : nat) (cost : float64) (m : Memo)
    : option float64 :=
  match EstimateCost m a, groups m !! grp with
  | inl relCost, Some e =>
      let relCost1 :=
        if IsHash (RelPropsDistinct e) then
          if sortedInputs m a
          then f64_add relCost f64_zero
          else f64_add relCost
                 (distinctRowCount (updRel a (SetDistinct HashDistinctOp) m) grp)
        else relCost in
      Some (f64_add cost relCost1)
  | _, _ => None
  end.

Section Candidates.

Variable rec : nat -> OptState -> outcome error OptState.
Variable grp : nat.

(** The calls of [updateBest] that the loop over the alternatives
    (memo.go, 336-368) makes from the alternative [n] on, in order: the
    alternative and the cost summed for it.  The recursion is that of
    [costLoopWith]; the list ends where the loop does. *)
Fixpoint updateBestCalls (k : nat) (n : pRelExpr) (st : OptState)
    : list (nat * float64) :=
  match n, k with
  | Some a, S k' =>
      match exprs (fst st) !! a with
      | Some r =>
          match optimizeChildrenWith rec (Children (body r)) f64_zero st with
          | Returned None (st', cost) =>
              match candidateCost grp a cost (fst st'),
                    costAlternative grp a cost st' with
              | Some c, Returned None st'' =>
                  (a, c) ::
                  match exprs (fst st'') !! a with
                  | Some r' => updateBestCalls k' (Next r') st''
                  | None => []
                  end
              | _, _ => []
              end
          | _ => []
          end
      | None => []
      end
  | _, _ => []
  end.

End Candidates.

(** The candidates of the group [grp] in the run of
    [optimizeMemoGroup (S fuel) grp] from [st]: the calls of [updateBest]
    of its loop, which starts at the first expression of the group and
    recurs into the operand groups with [optimizeMemoGroup fuel]. *)
Definition candidates (fuel grp : nat) (st : OptState) : list (nat * float64) :=
  match groups (fst st) !! grp with
  | Some e => updateBestCalls (optimizeMemoGroup fuel) grp fuel (First e) st
  | None => []
  end.

(** *** The shape of a memo *)

(** [onList m n a]: the expression [a] is on the list that starts at
    [n]. *)
Inductive onList (m : Memo) : pRelExpr -> nat -> Prop :=
| onList_here a : onList m (Some a) a
| onList_next a r a' :
    exprs m !! a = Some r -> onList m (Next r) a' -> onList m (Some a) a'.

(** [operand m g c]: the group [c] is an operand of an alternative of
    the group [g]. *)
Definition operand (m : Memo) (g c : nat) : Prop :=
  exists e a r,
    groups m !! g = Some e /\ onList m (First e) a /\
    exprs m !! a = Some r /\ In (Some c) (Children (body r)).

(** [within m g g']: the group [g'] is [g], or an operand of [g], or an
    operand of one, and so on: the groups whose optimization
    [optimizeMemoGroup] on [g] can ask for. *)
Inductive within (m : Memo) : nat -> nat -> Prop :=
| within_refl g : within m g g
| within_operand g c g' : operand m g c -> within m c g' -> within m g g'.

(** [sameShape m m']: the two memos have the same hints, their
    expressions the same variants (operators and operands) and next
    links, and their groups the same first expressions; costs, distinct
    operators, bests and flags may differ. *)
Definition sameShape (m m' : Memo) : Prop :=
  hints m' = hints m /\
  (forall a, body <$> exprs m' !! a = body <$> exprs m !! a) /\
  (forall a, Next <$> exprs m' !! a = Next <$> exprs m !! a) /\
  (forall g, First <$> groups m' !! g = First <$> groups m !! g).

End Memo.

(** ** An instance for the examples

    Costs are integers.  The join types, hint types and table names are
    those of the join planning tests; an indexed table access is given by
    the name of its table.  An alternative satisfies a list of operator
    hints when each of them names its variant. *)

Inductive planJoinType :=
| JoinTypeInner
| JoinTypeLeftOuter
| JoinTypeLookup
| JoinTypeLeftOuterLookup
| JoinTypeMerge.

Definition exAsLookup (op : planJoinType) : planJoinType :=
  match op with
  | JoinTypeInner => JoinTypeLookup
  | JoinTypeLeftOuter => JoinTypeLeftOuterLookup
  | o => o
  end.

Inductive HintType :=
| HintTypeInnerJoin
| HintTypeMergeJoin
| HintTypeLookupJoin
| HintTypeHashJoin.

Definition exMemo : Type :=
  @Memo Z planJoinType nat nat gostring (list HintType).
Definition exRelExpr : Type := @RelExpr Z planJoinType nat nat gostring.
Definition exIndexScan : Type := @IndexScan nat gostring.

Definition exLowerCase (r : rune) : rune := r.

Definition exExpressions (ita : gostring) : list nat := [].
Definition exNullMask (ita : gostring) : list bool := [].

Definition exIndexScanName (s : exIndexScan) : gostring :=
  ToLower exLowerCase (Table s).

(** Every lookup is on an index that is unique over the join keys. *)
Definition exIsInjectiveLookup (m : exMemo) (i : @Index nat) (join : nat)
    (es : list nat) (nullmask : list bool) : bool := true.

Definition hintMatches (h : HintType) (r : exRelExpr) : bool :=
  match h, body r with
  | HintTypeInnerJoin, InnerJoin _ => true
  | HintTypeMergeJoin, MergeJoin _ _ _ _ => true
  | HintTypeLookupJoin, LookupJoin _ _ _ => true
  | HintTypeHashJoin, HashJoin _ _ _ => true
  | _, _ => false
  end.

Definition exSatisfiedBy (h : list HintType) (m : exMemo) (n : nat) : bool :=
  match exprs m !! n with
  | Some r => forallb (fun x => hintMatches x r) h
  | None => false
  end.

Definition exEstimateCost (m : exMemo) (n : nat) : Z + unit := inl 1.
Definition exSortedInputs (m : exMemo) (n : nat) : bool := false.
Definition exDistinctRowCount (m : exMemo) (g : nat) : Z := 0.
Definition exFixConflicts (g : nat) (m : exMemo) : exMemo := m.

Definition exMemoizeJoin :=
  MemoizeJoin 0 exAsLookup exExpressions exNullMask exLowerCase
    exIndexScanName exIsInjectiveLookup.

Definition exUpdateBestAll := updateBestAll Z.leb exSatisfiedBy.

Definition exOptimizeMemoGroup :=
  optimizeMemoGroup 0 Z.add Z.leb exSatisfiedBy exEstimateCost exSortedInputs
    exDistinctRowCount exFixConflicts.

(** The memo with the given hints in place of its own. *)
Definition withHints (h : list HintType) (m : exMemo) : exMemo :=
  {| cnt := cnt m; root := root m; hints := Some h;
     TableProps := TableProps m; groups := groups m; exprs := exprs m |}.

(** The names [XY], [xy], [Xy] and [uv]. *)
Definition name_XY : gostring := [88; 89].
Definition name_xy : gostring := [120; 121].
Definition name_Xy : gostring := [88; 121].
Definition name_uv : gostring := [117; 118].

(** A memo with one expression, the scan of table [Xy], in no group
    yet. *)
Definition exUnregistered : exMemo :=
  fst (allocRel (newRel 0 (Source TableScan name_Xy)) (NewMemo [])).

(** Memoizing the scan of a table. *)
Definition exTableScan (name : gostring) (m : exMemo) : exMemo :=
  let '(m1, rel) := allocRel (newRel 0 (Source TableScan name)) m in
  fst (memoizeSourceRel 0 exLowerCase exIndexScanName m1 rel).

(** Groups 0 and 1: the scans of [XY] and [uv]. *)
Definition exSources : exMemo :=
  exTableScan name_uv (exTableScan name_XY (NewMemo [])).

Definition exScan (name : gostring) (i : nat) : exIndexScan :=
  {| Table := name; Alias := name;
     ScanIndex := {| order := [1]; set := [1]; idx := i |} |}.

(** Group 2: the inner join of groups 0 and 1 (expression 2). *)
Definition exInner : exMemo :=
  fst (exMemoizeJoin (CallInnerJoin JoinTypeInner []) exSources None
         (Some 0%nat) (Some 1%nat)).

Definition exLookupCall : @joinCall planJoinType nat nat gostring :=
  CallLookupJoin JoinTypeInner [] (exScan name_uv 2).

(** The lookup join of groups 0 and 1 memoized into group 2 of
    [exInner], and into no group. *)
Definition exLookupPrepended : exMemo * nat :=
  exMemoizeJoin exLookupCall exInner (Some 2%nat) (Some 0%nat) (Some 1%nat).

Definition exLookupFresh : exMemo * nat :=
  exMemoizeJoin exLookupCall exInner None (Some 0%nat) (Some 1%nat).

(** Group 2 with a merge join (expression 3) and a lookup join
    (expression 4) prepended: its list is 4, 3, 2. *)
Definition exJoins : exMemo :=
  let m1 :=
    fst (exMemoizeJoin
           (CallMergeJoin (exScan name_XY 1) (exScan name_uv 2)
              JoinTypeMerge [] false)
           exInner (Some 2%nat) (Some 0%nat) (Some 1%nat)) in
  fst (exMemoizeJoin exLookupCall m1 (Some 2%nat) (Some 0%nat) (Some 1%nat)).

(** The alternatives of group 2 with a cost each. *)
Definition exCosts : list (nat * Z) := [(4%nat, 10); (3%nat, 50); (2%nat, 20)].

(** Group 0 with two index scans prepended (expressions 2 and 3): its
    list is 3, 2, 0. *)
Definition exScans : exMemo :=
  let m1 :=
    fst (MemoizeIndexScan 0 exLowerCase exIndexScanName exSources
           (Some 0%nat) name_XY name_XY
           {| order := [1]; set := [1]; idx := 1%nat |}) in
  fst (MemoizeIndexScan 0 exLowerCase exIndexScanName m1
         (Some 0%nat) name_XY name_XY
         {| order := [2]; set := [2]; idx := 2%nat |}).

(** Plans are trees of expressions; the builder of the examples makes the
    node of an expression over the nodes of its children and never
    fails. *)
#[local] Set Warnings "-register-all".
Inductive exNode := ExNode (n : nat) (children : list (option exNode)).

Definition exBuildRel (m : exMemo) (n : nat) (children : list (option exNode))
    : option exNode * option unit :=
  (Some (ExNode n children), None).

Definition exBestRootPlan :=
  BestRootPlan (Schema := unit) exBuildRel tt.

Definition withRoot (g : nat) (m : exMemo) : exMemo :=
  {| cnt := cnt m; root := Some g; hints := hints m;
     TableProps := TableProps m; groups := groups m; exprs := exprs m |}.

(** [exJoins] with group 2 as its root, optimized under a merge hint:
    the three groups are done and the best of the root is the merge
    join, expression 3. *)
Definition exPlanned : exMemo :=
  match exOptimizeMemoGroup 5 2
          (withRoot 2 (withHints [HintTypeMergeJoin] exJoins), []) with
  | Returned _ (m, _) => m
  | _ => exJoins
  end.

(** [exPlanned] with group 1, the right operand of the root, not done. *)
Definition exHalfPlanned : exMemo := updGroup 1 (setDone false) exPlanned.

(** ** Further examples *)

(** The memos built through the constructors, at the collaborators of
    the examples. *)
Definition exConstructed : exMemo -> Prop :=
  constructed 0 exAsLookup exExpressions exNullMask [] exLowerCase
    exIndexScanName exIsInjectiveLookup.

(** The expression at a position of the store. *)
Definition exRel (m : exMemo) (a : nat) : exRelExpr :=
  match exprs m !! a with
  | Some r => r
  | None => newRel 0 (Distinct None)
  end.

Definition exOptimizeRoot :=
  OptimizeRoot 0 Z.add Z.leb exSatisfiedBy exEstimateCost exSortedInputs
    exDistinctRowCount exFixConflicts.

(** [exJoins] with group 2 as its root, and what optimizing the root
    leaves. *)
Definition exRooted : exMemo := setRoot (Some 2%nat) exJoins.

Definition exRootPlanned : exMemo * list nat :=
  match exOptimizeRoot 5 (exRooted, []) with
  | Returned _ st => st
  | _ => (exRooted, [])
  end.

(** A coster that fails on every expression. *)
Definition exFailingCost (m : exMemo) (n : nat) : Z + unit := inr tt.

Definition exFailingOptimize :=
  optimizeMemoGroup 0 Z.add Z.leb exSatisfiedBy exFailingCost exSortedInputs
    exDistinctRowCount exFixConflicts.

(** [exInner] with its two source groups optimized: the group of the
    join, group 2, is not done and has the one alternative. *)
Definition exInnerReady : exMemo :=
  match exOptimizeMemoGroup 2 0 (exInner, []) with
  | Returned _ (m, _) =>
      match exOptimizeMemoGroup 2 1 (m, []) with
      | Returned _ (m', _) => m'
      | _ => exInner
      end
  | _ => exInner
  end.

(** The scans of the tables [XY] and [xy], in no group yet. *)
Definition exTwoScans : exMemo :=
  fst (allocRel (newRel 0 (Source TableScan name_xy))
         (fst (allocRel (newRel 0 (Source TableScan name_XY)) (NewMemo [])))).

(** What optimizing group 2 of [exJoins] leaves. *)
Definition exJoinsPlanned : exMemo * list nat :=
  match exOptimizeMemoGroup 5 2 (exJoins, []) with
  | Returned _ st => st
  | _ => (exJoins, [])
  end.

(** The index scan of [exScans], as a call of its constructor. *)
Definition exIndexScanCall : @nodeCall nat nat gostring :=
  CallIndexScan name_XY name_XY {| order := [1]; set := [1]; idx := 1%nat |}.

(** The functions of the memo at the collaborators of the examples. *)
Local Abbreviation exOptimize :=
  (optimizeMemoGroup 0 Z.add Z.leb exSatisfiedBy exEstimateCost
     exSortedInputs exDistinctRowCount exFixConflicts).
Local Abbreviation exOptimizeFailing :=
  (optimizeMemoGroup 0 Z.add Z.leb exSatisfiedBy exFailingCost
     exSortedInputs exDistinctRowCount exFixConflicts).
Local Abbreviation exOptimizeTheRoot :=
  (OptimizeRoot 0 Z.add Z.leb exSatisfiedBy exEstimateCost
     exSortedInputs exDistinctRowCount exFixConflicts).
Local Abbreviation exRootPlan :=
  (BestRootPlan (Schema := unit) exBuildRel tt).
Local Abbreviation exUpdateBests := (updateBestAll Z.leb exSatisfiedBy).

(** ** Examples of optimizing under hints *)

(** Hints constrain joins: a source satisfies any list of operator
    hints, and another alternative satisfies it when each hint names its
    variant. *)
Definition exSatisfiedJoin (h : list HintType) (m : exMemo) (n : nat) : bool :=
  match exprs m !! n with
  | Some r => isSourceRel (body r) || forallb (fun x => hintMatches x r) h
  | None => false
  end.

(** A coster with a cost for each join of [exJoins]: 10 for the lookup
    join (expression 4), 50 for the merge join (3) and 20 for the inner
    join (2). *)
Definition exJoinCost (m : exMemo) (n : nat) : Z + unit :=
  inl (match n with
       | 4%nat => 10
       | 3%nat => 50
       | 2%nat => 20
       | _ => 1
       end).

(** The record of a group of the store. *)
Definition exGroup (m : exMemo) (g : nat) : @ExprGroup Z :=
  match groups m !! g with
  | Some e => e
  | None => {| Id := 0; First := None; Best := None; Cost := 0;
               Done := false; HintOk := false;
               RelPropsDistinct := unknownDistinctOp |}
  end.

(** [exJoins] under a merge hint, which the merge join satisfies, and
    under a hash hint, which no join of group 2 satisfies; and what
    optimizing group 2 leaves of each. *)
Definition exMergeHinted : exMemo := withHints [HintTypeMergeJoin] exJoins.
Definition exHashHinted : exMemo := withHints [HintTypeHashJoin] exJoins.

Definition exOptimizeHinted :=
  optimizeMemoGroup 0 Z.add Z.leb exSatisfiedJoin exJoinCost exSortedInputs
    exDistinctRowCount exFixConflicts.

Definition exMergePlanned : exMemo * list nat :=
  match exOptimizeHinted 5 2 (exMergeHinted, []) with
  | Returned _ st => st
  | _ => (exMergeHinted, [])
  end.

Definition exHashPlanned : exMemo * list nat :=
  match exOptimizeHinted 5 2 (exHashHinted, []) with
  | Returned _ st => st
  | _ => (exHashHinted, [])
  end.

(** [exScans] under a merge hint: group 0 is a source group. *)
Definition exScansHinted : exMemo := withHints [HintTypeMergeJoin] exScans.

Definition exScansPlanned : exMemo * list nat :=
  match exOptimizeHinted 4 0 (exScansHinted, []) with
  | Returned _ st => st
  | _ => (exScansHinted, [])
  end.

Local Abbreviation exOptimizeJoins :=
  (optimizeMemoGroup 0 Z.add Z.leb exSatisfiedJoin exJoinCost
     exSortedInputs exDistinctRowCount exFixConflicts).
Local Abbreviation exCandidates :=
  (candidates 0 Z.add Z.leb exSatisfiedJoin exJoinCost
     exSortedInputs exDistinctRowCount exFixConflicts).

(** ** Properties

    The properties hold for any collaborators: they are the parameters of
    this section, declared as for the definitions, and within it each
    function of the model is read at these parameters. *)

Section MemoProperties.

Context {float64 : Type}.
Variable f64_zero : float64.
Variable f64_add : float64 -> float64 -> float64.
Variable f64_leb : float64 -> float64 -> bool.
Context {JoinType : Type}.
Variable AsLookup : JoinType -> JoinType.
Context {Expression SqlIndex IndexedTableAccess error joinHints : Type}.
Variable Expressions : IndexedTableAccess -> list Expression.
Variable NullMask : IndexedTableAccess -> list bool.
Variable noHints : joinHints.
Variable unicodeLowerCase : rune -> rune.

Local Abbreviation Index := (@Index SqlIndex).
Local Abbreviation IndexScan := (@IndexScan SqlIndex IndexedTableAccess).
Local Abbreviation RelExpr :=
  (@RelExpr float64 JoinType Expression SqlIndex IndexedTableAccess).
Local Abbreviation Memo :=
  (@Memo float64 JoinType Expression SqlIndex IndexedTableAccess joinHints).

Variable IndexScanName : IndexScan -> gostring.
Variable isInjectiveLookup :
  Memo -> Index -> nat -> list Expression -> list bool -> bool.
Variable satisfiedBy : joinHints -> Memo -> nat -> bool.
Variable EstimateCost : Memo -> nat -> float64 + error.
Variable sortedInputs : Memo -> nat -> bool.
Variable distinctRowCount : Memo -> nat -> float64.
Variable fixConflicts : nat -> Memo -> Memo.

Local Abbreviation unicode_ToLower := (unicode_ToLower unicodeLowerCase).
Local Abbreviation ToLower := (ToLower unicodeLowerCase).
Local Abbreviation GetId := (GetId unicodeLowerCase).
Local Abbreviation getTableId := (getTableId unicodeLowerCase).
Local Abbreviation newRel := (newRel f64_zero).
Local Abbreviation newExprGroup := (newExprGroup f64_zero).
Local Abbreviation Name := (Name unicodeLowerCase IndexScanName).
Local Abbreviation NewExprGroup :=
  (NewExprGroup f64_zero unicodeLowerCase IndexScanName).
Local Abbreviation memoizeSourceRel :=
  (memoizeSourceRel f64_zero unicodeLowerCase IndexScanName).
Local Abbreviation MemoizeLeftJoin :=
  (MemoizeLeftJoin f64_zero unicodeLowerCase IndexScanName).
Local Abbreviation MemoizeInnerJoin :=
  (MemoizeInnerJoin f64_zero unicodeLowerCase IndexScanName).
Local Abbreviation MemoizeLookupJoin :=
  (MemoizeLookupJoin f64_zero AsLookup Expressions NullMask unicodeLowerCase
     IndexScanName isInjectiveLookup).
Local Abbreviation MemoizeConcatLookupJoin :=
  (MemoizeConcatLookupJoin f64_zero AsLookup unicodeLowerCase IndexScanName).
Local Abbreviation MemoizeRangeHeapJoin :=
  (MemoizeRangeHeapJoin f64_zero unicodeLowerCase IndexScanName).
Local Abbreviation MemoizeMergeJoin :=
  (MemoizeMergeJoin f64_zero unicodeLowerCase IndexScanName).
Local Abbreviation MemoizeJoin :=
  (MemoizeJoin f64_zero AsLookup Expressions NullMask unicodeLowerCase
     IndexScanName isInjectiveLookup).
Local Abbreviation ExprGroup_updateBest := (ExprGroup_updateBest f64_leb).
Local Abbreviation updateBest := (updateBest f64_leb satisfiedBy).
Local Abbreviation updateBestAll := (updateBestAll f64_leb satisfiedBy).
Local Abbreviation firstIndexScan := (firstIndexScan (error := error)).
Local Abbreviation optimizeSource := (optimizeSource (error := error)).
Local Abbreviation optimizeMemoGroup :=
  (optimizeMemoGroup f64_zero f64_add f64_leb satisfiedBy EstimateCost
     sortedInputs distinctRowCount fixConflicts).
Local Abbreviation minimal := (minimal f64_leb).

Context {Node Schema : Type}.
Variable buildRel :
  Memo -> nat -> list (option Node) -> option Node * option error.
Variable errNotFixed : error.

Local Abbreviation buildBestJoinPlan :=
  (buildBestJoinPlan (Schema := Schema) buildRel errNotFixed).
Local Abbreviation BestRootPlan :=
  (BestRootPlan (Schema := Schema) buildRel errNotFixed).
Local Abbreviation depthFirstPlan :=
  (depthFirstPlan (Schema := Schema) buildRel).
Local Abbreviation chosen := (chosen f64_leb).

Local Abbreviation MemoizeProject :=
  (MemoizeProject f64_zero unicodeLowerCase IndexScanName).
Local Abbreviation MemoizeIndexScan :=
  (MemoizeIndexScan f64_zero unicodeLowerCase IndexScanName).
Local Abbreviation MemoizeFilter :=
  (MemoizeFilter f64_zero unicodeLowerCase IndexScanName).
Local Abbreviation MemoizeNode :=
  (MemoizeNode f64_zero unicodeLowerCase IndexScanName).
Local Abbreviation createdNode :=
  (createdNode unicodeLowerCase IndexScanName).
Local Abbreviation constructed :=
  (constructed f64_zero AsLookup Expressions NullMask noHints
     unicodeLowerCase IndexScanName isInjectiveLookup).
Local Abbreviation NewMemo := (NewMemo noHints).
Local Abbreviation costAlternative :=
  (costAlternative f64_zero f64_add f64_leb satisfiedBy EstimateCost
     sortedInputs distinctRowCount).
Local Abbreviation OptimizeRoot :=
  (OptimizeRoot f64_zero f64_add f64_leb satisfiedBy EstimateCost
     sortedInputs distinctRowCount fixConflicts).
Local Abbreviation optimizeChildrenWith :=
  (optimizeChildrenWith f64_add (error := error)).
Local Abbreviation costLoopWith :=
  (costLoopWith f64_zero f64_add f64_leb satisfiedBy EstimateCost
     sortedInputs distinctRowCount fixConflicts).
Local Abbreviation OptState :=
  (@OptState float64 JoinType Expression SqlIndex IndexedTableAccess joinHints).

Local Abbreviation candidateCost :=
  (candidateCost f64_zero f64_add EstimateCost sortedInputs distinctRowCount).
Local Abbreviation updateBestCalls :=
  (updateBestCalls f64_zero f64_add f64_leb satisfiedBy EstimateCost
     sortedInputs distinctRowCount).
Local Abbreviation candidates :=
  (candidates f64_zero f64_add f64_leb satisfiedBy EstimateCost
     sortedInputs distinctRowCount fixConflicts).



(** *** Stores *)

Lemma groups_updRel a f (m : Memo) : groups (updRel a f m) = groups m.
Proof. reflexivity. Qed.

Lemma exprs_updGroup g f (m : Memo) : exprs (updGroup g f m) = exprs m.
Proof. reflexivity. Qed.

Lemma lookup_updGroup_eq g f (m : Memo) :
  groups (updGroup g f m) !! g = f <$> groups m !! g.
Proof. unfold updGroup; simpl. apply list_lookup_alter_eq. Qed.

Lemma lookup_updGroup_ne g g' f (m : Memo) :
  g <> g' -> groups (updGroup g f m) !! g' = groups m !! g'.
Proof. intros Hne. unfold updGroup; simpl. by apply list_lookup_alter_ne. Qed.

Lemma updGroup_twice g f f' (m : Memo) :
  updGroup g f (updGroup g f' m) = updGroup g (fun e => f (f' e)) m.
Proof. unfold updGroup, setGroups; simpl. by rewrite list_alter_alter_eq. Qed.

Lemma lookup_updRel_eq a f (m : Memo) :
  exprs (updRel a f m) !! a = f <$> exprs m !! a.
Proof. unfold updRel; simpl. apply list_lookup_alter_eq. Qed.

Lemma lookup_updRel_ne a a' f (m : Memo) :
  a <> a' -> exprs (updRel a f m) !! a' = exprs m !! a'.
Proof. intros Hne. unfold updRel; simpl. by apply list_lookup_alter_ne. Qed.

Lemma lookup_allocRel_new r (m : Memo) :
  exprs (fst (allocRel r m)) !! snd (allocRel r m) = Some r.
Proof. simpl. by apply list_lookup_middle. Qed.

Lemma lookup_allocRel_old r (m : Memo) a x :
  exprs m !! a = Some x -> exprs (fst (allocRel r m)) !! a = Some x.
Proof. intros H. simpl. by apply lookup_app_l_Some. Qed.

Lemma lookup_allocRel_fresh r (m : Memo) : exprs m !! snd (allocRel r m) = None.
Proof. simpl. by apply lookup_ge_None. Qed.

(** *** Table names *)

Ltac case_leb :=
  repeat match goal with
         | |- context [?a <=? ?b] => destruct (Z.leb_spec a b)
         end;
  simpl in *; try lia.

Lemma unicode_ToLower_foldASCII r :
  unicode_ToLower (foldASCII r) = unicode_ToLower r.
Proof. unfold unicode_ToLower, foldASCII, MaxASCII. case_leb. Qed.

Lemma ToLower_foldASCII s : ToLower (map foldASCII s) = ToLower s.
Proof.
  unfold ToLower. rewrite map_map. apply map_ext.
  intros r. apply unicode_ToLower_foldASCII.
Qed.

Lemma ToLower_EqualFoldASCII s t : EqualFoldASCII s t -> ToLower s = ToLower t.
Proof.
  unfold EqualFoldASCII. intros H.
  rewrite <- (ToLower_foldASCII s), <- (ToLower_foldASCII t). by rewrite H.
Qed.

Lemma ToLower_idempotent s :
  (forall r, MaxASCII < r ->
             unicode_ToLower (unicodeLowerCase r) = unicodeLowerCase r) ->
  ToLower (ToLower s) = ToLower s.
Proof.
  intros Hidem. unfold ToLower. rewrite map_map. apply map_ext. intros r.
  destruct (Z.leb_spec r MaxASCII) as [Hascii|Hhigh].
  - clear Hidem. unfold unicode_ToLower, MaxASCII in *. case_leb.
  - assert (E : unicode_ToLower r = unicodeLowerCase r).
    { unfold unicode_ToLower, MaxASCII in *.
      destruct (Z.leb_spec r 127); [lia | reflexivity]. }
    rewrite E. by apply Hidem.
Qed.

Lemma GetId_addTable p n id q :
  ToLower q = n -> GetId (addTable p n id) q = (id, true).
Proof.
  intros Hq. unfold GetId, addTable; simpl. rewrite Hq.
  by rewrite lookup_insert_eq.
Qed.

Lemma GetId_addTable_ne p n id q :
  ToLower q <> n -> GetId (addTable p n id) q = GetId p q.
Proof.
  intros Hq. unfold GetId, addTable; simpl.
  by rewrite lookup_insert_ne.
Qed.

(** Registering a source: the new group is the last of the store, its
    id is the incremented counter, and the lower-cased name of the
    source maps to that id. *)
Lemma NewExprGroup_source (m : Memo) rel r :
  exprs m !! rel = Some r ->
  isSourceRel (body r) = true ->
  let m' := fst (NewExprGroup m rel) in
  let grp := snd (NewExprGroup m rel) in
  exists e,
    groups m' !! grp = Some e /\
    Id e = uint16 (cnt m + 1) /\
    First e = Some rel /\
    TableProps m' = addTable (TableProps m) (Name (body r)) (Id e).
Proof.
  intros Hrel Hsrc. unfold NewExprGroup, newExprGroup, allocGroup. simpl.
  rewrite list_lookup_alter_eq, Hrel. simpl. rewrite Hsrc. simpl.
  eexists. split; [by apply list_lookup_middle|]. simpl. auto.
Qed.


(** A later registration under another name leaves the lookup as it
    was. *)
Lemma getTableId_NewExprGroup_other (m : Memo) rel r q :
  exprs m !! rel = Some r ->
  ToLower q <> Name (body r) ->
  getTableId (fst (NewExprGroup m rel)) q = getTableId m q.
Proof.
  intros Hrel Hne. unfold getTableId, NewExprGroup, newExprGroup, allocGroup.
  simpl. rewrite list_lookup_alter_eq, Hrel. simpl.
  destruct (isSourceRel (body r)); simpl; [|reflexivity].
  by apply GetId_addTable_ne.
Qed.

(** *** Memoizing joins *)

Lemma chain_ext (m m' : Memo) n l :
  (forall a r, exprs m !! a = Some r -> exprs m' !! a = Some r) ->
  chain m n l -> chain m' n l.
Proof.
  intros Hext Hc. induction Hc as [|a r l Ha _ IH].
  - constructor.
  - econstructor; [by apply Hext | exact IH].
Qed.

Lemma chain_functional (m : Memo) n l1 l2 : chain m n l1 -> chain m n l2 -> l1 = l2.
Proof.
  intros H1. revert l2. induction H1 as [|a r l Ha _ IH]; intros l2 H2.
  - by inversion H2.
  - inversion H2 as [|a' r' l' Ha' Hc']; subst.
    rewrite Ha in Ha'. injection Ha' as <-. f_equal. by apply IH.
Qed.

Lemma updRel_id a (m : Memo) : updRel a (fun r => r) m = m.
Proof.
  unfold updRel, setExprs. rewrite list_alter_id by reflexivity.
  by destruct m.
Qed.

(** The tail shared by the constructors when the target group is not
    [nil]: the new node [r0] is allocated, given its group and
    prepended; [f] is what the constructor does to the node
    afterwards. *)
Lemma prepend_new_join (m : Memo) g e left right r0 j f :
  groups m !! g = Some e ->
  JoinPrivate (body r0) = Some j -> Left j = left -> Right j = right ->
  (forall r, Next (f r) = Next r /\ Group (f r) = Group r /\
             JoinPrivate (body (f r)) = JoinPrivate (body r)) ->
  prepended m g e left right
    (updRel (length (exprs m)) f
       (Prepend (updRel (length (exprs m)) (SetGroup (Some g))
                   (fst (allocRel r0 m))) g (length (exprs m)))).
Proof.
  intros Hg Hj Hl Hr Hf. unfold prepended.
  set (newJoin := length (exprs m)).
  exists newJoin, (f (SetNext (First e) (SetGroup (Some g) r0))),
    (setFirst (Some newJoin) e), j.
  assert (Hfresh : exprs m !! newJoin = None) by (by apply lookup_ge_None).
  assert (Hnew : exprs (updRel newJoin f
       (Prepend (updRel newJoin (SetGroup (Some g)) (fst (allocRel r0 m)))
          g newJoin)) !! newJoin
        = Some (f (SetNext (First e) (SetGroup (Some g) r0)))).
  { unfold Prepend. rewrite groups_updRel. simpl groups. rewrite Hg.
    rewrite !lookup_updRel_eq, exprs_updGroup, lookup_updRel_eq.
    simpl. by rewrite list_lookup_middle. }
  assert (Hold : forall a, a <> newJoin ->
       exprs (updRel newJoin f
         (Prepend (updRel newJoin (SetGroup (Some g)) (fst (allocRel r0 m)))
            g newJoin)) !! a = exprs m !! a).
  { intros a Ha. unfold Prepend. rewrite groups_updRel. simpl groups. rewrite Hg.
    rewrite !lookup_updRel_ne, exprs_updGroup, lookup_updRel_ne by done.
    simpl. destruct (decide (a < newJoin)%nat) as [Hlt|Hge].
    - by apply lookup_app_l.
    - rewrite !lookup_ge_None_2; [done | subst newJoin; lia |].
      rewrite length_app. simpl. subst newJoin. lia. }
  assert (Hgrp : groups (updRel newJoin f
         (Prepend (updRel newJoin (SetGroup (Some g)) (fst (allocRel r0 m)))
            g newJoin)) = alter (setFirst (Some newJoin)) g (groups m)).
  { unfold Prepend. rewrite groups_updRel. simpl groups. by rewrite Hg. }
  destruct (Hf (SetNext (First e) (SetGroup (Some g) r0))) as (Hn & Hgr & Hjp).
  repeat split; try done.
  - by rewrite Hjp.
  - rewrite Hgrp, list_lookup_alter_eq, Hg. reflexivity.
  - intros l Hc. econstructor; [exact Hnew|]. rewrite Hn. simpl.
    eapply chain_ext; [|exact Hc].
    intros a r Ha. rewrite Hold; [done|]. intros ->. congruence.
  - intros g' Hne. rewrite Hgrp. by apply list_lookup_alter_ne.
Qed.

(** The tail shared by the constructors when the target group is
    [nil]. *)
Lemma create_new_join (m : Memo) left right b j :
  JoinPrivate b = Some j -> Left j = left -> Right j = right ->
  created m left right
    (NewExprGroup (fst (allocRel (newRel b) m)) (length (exprs m))).
Proof.
  intros Hj Hl Hr. unfold created.
  assert (Hsrc : isSourceRel b = false) by (by destruct b).
  unfold NewExprGroup, newExprGroup, allocGroup. simpl.
  rewrite list_lookup_alter_eq, list_lookup_middle by done. simpl.
  rewrite Hsrc. simpl.
  split; [by apply lookup_ge_None|].
  exists (length (exprs m)), (SetGroup (Some (length (groups m))) (newRel b)).
  eexists. exists j.
  split; [by apply lookup_ge_None|].
  split; [by rewrite list_lookup_alter_eq, list_lookup_middle|].
  do 5 (split; [done|]).
  split; [by apply list_lookup_middle|].
  split; [done|].
  split.
  - intros g' Hne. destruct (decide (g' < length (groups m))%nat).
    + by apply lookup_app_l.
    + rewrite !lookup_ge_None_2; [done | lia |]. rewrite length_app; simpl; lia.
  - intros a Ha. rewrite list_lookup_alter_ne by done.
    destruct (decide (a < length (exprs m))%nat).
    + by apply lookup_app_l.
    + rewrite !lookup_ge_None_2; [done | lia |]. rewrite length_app; simpl; lia.
Qed.

Lemma SetInjective_keeps (r : RelExpr) :
  Next (SetInjective r) = Next r /\ Group (SetInjective r) = Group r /\
  JoinPrivate (body (SetInjective r)) = JoinPrivate (body r).
Proof. destruct r as [? ? ? ? ? []]; simpl; auto. Qed.

Lemma prepend_new_join_plain (m : Memo) g e left right r0 j :
  groups m !! g = Some e ->
  JoinPrivate (body r0) = Some j -> Left j = left -> Right j = right ->
  prepended m g e left right
    (Prepend (updRel (length (exprs m)) (SetGroup (Some g))
                (fst (allocRel r0 m))) g (length (exprs m))).
Proof.
  intros Hg Hj Hl Hr.
  rewrite <- (updRel_id (length (exprs m)) (Prepend _ _ _)).
  by eapply prepend_new_join.
Qed.

(** C3. Memoizing a join is frame-preserving.  Given a group [g] of the
    memo, each memoizing join constructor of memo.go returns [g], makes
    the new join the head of the list of [g] with the previous head as
    its next link (the previous alternatives follow it), and leaves the
    best, the cost and the flags of [g], every other group and every
    existing expression as they were.  Given [nil], it returns a group
    the memo did not have, whose first expression is the new join, and
    leaves the existing groups and expressions as they were. *)
Theorem MemoizeJoin_frame c (m : Memo) g e left right :
  groups m !! g = Some e ->
  prepended m g e left right (fst (MemoizeJoin c m (Some g) left right)) /\
  snd (MemoizeJoin c m (Some g) left right) = g /\
  created m left right (MemoizeJoin c m None left right).
Proof.
  intros Hg.
  destruct c; simpl;
    unfold MemoizeLeftJoin, MemoizeInnerJoin, MemoizeLookupJoin,
      MemoizeConcatLookupJoin, MemoizeRangeHeapJoin, MemoizeMergeJoin;
    simpl.
  all: split; [|split; [try reflexivity | by eapply create_new_join]].
  all: try (by eapply prepend_new_join_plain).
  - destruct (isInjectiveLookup _ _ _ _ _); simpl.
    + eapply prepend_new_join; eauto using SetInjective_keeps.
    + by eapply prepend_new_join_plain.
Qed.

(** *** Optimizing a source group *)

Lemma firstIndexScan_chain (m : Memo) n l fuel :
  chain m n l -> (length l <= fuel)%nat ->
  firstIndexScan fuel m n = Returned None (find (isIndexScanAt m) l).
Proof.
  intros Hc. revert fuel.
  induction Hc as [|a r l Ha _ IH]; intros fuel Hfuel.
  - by destruct fuel.
  - simpl in Hfuel. cbn [find].
    assert (E : isIndexScanAt m a = isIndexScan (body r))
      by (unfold isIndexScanAt; by rewrite Ha).
    rewrite E.
    destruct fuel as [|fuel]; simpl; rewrite Ha.
    + lia.
    + destruct (isIndexScan (body r)); [reflexivity|].
      apply IH. lia.
Qed.

Lemma optimizeMemoGroup_done fuel grp st e :
  groups (fst st) !! grp = Some e -> Done e = true ->
  optimizeMemoGroup (S fuel) grp st = Returned None st.
Proof. intros Hg Hd. simpl. by rewrite Hg, Hd. Qed.

Lemma optimizeMemoGroup_source_eq fuel grp st e a r :
  groups (fst st) !! grp = Some e -> Done e = false ->
  First e = Some a -> exprs (fst st) !! a = Some r ->
  isSourceRel (body r) = true ->
  optimizeMemoGroup (S fuel) grp st = optimizeSource fuel grp st.
Proof. intros Hg Hd Hf Ha Hs. simpl. by rewrite Hg, Hd, Hf, Ha, Hs. Qed.

Lemma optimizeSource_spec fuel grp (m : Memo) costed e a l :
  groups m !! grp = Some e -> First e = Some a ->
  chain m (First e) l -> (length l <= fuel)%nat ->
  let best := default a (find (isIndexScanAt m) l) in
  optimizeSource fuel grp (m, costed) =
    Returned None
      (updRel best (SetDistinct noDistinctOp)
         (updGroup grp
            (fun e => setBest (Some best) (setHintOk true (setDone true e))) m),
       costed).
Proof.
  intros Hg Hf Hc Hfuel best. unfold optimizeSource.
  rewrite lookup_updGroup_eq, Hg. simpl.
  rewrite (firstIndexScan_chain _ _ l);
    [|by eapply chain_ext; [|exact Hc]|exact Hfuel].
  change (isIndexScanAt (updGroup grp _ m)) with (isIndexScanAt m).
  assert (Hb : match find (isIndexScanAt m) l with
               | Some i => Some i
               | None => First e
               end = Some best).
  { subst best. rewrite Hf. by destruct (find _ l). }
  rewrite Hb, updGroup_twice. reflexivity.
Qed.

(** C4. Source-group optimization.  On a group whose first expression
    is a source relation and whose list of alternatives is [l],
    [optimizeMemoGroup] returns [nil] without handing anything to
    [EstimateCost].  A group already done is left as it is.  A group
    not yet done is marked done and hint-ok, and its best is the first
    [IndexScan] of [l], or the first expression of the group when [l]
    has no [IndexScan]; the cost of the group, the other groups, and
    the cost, next link and variant of every expression are as they
    were. *)
Theorem optimizeMemoGroup_source fuel (m : Memo) costed grp e a r l :
  groups m !! grp = Some e ->
  First e = Some a ->
  exprs m !! a = Some r ->
  isSourceRel (body r) = true ->
  chain m (First e) l ->
  (length l < fuel)%nat ->
  exists m',
    optimizeMemoGroup fuel grp (m, costed) = Returned None (m', costed) /\
    (Done e = true -> m' = m) /\
    (Done e = false ->
     exists e',
       groups m' !! grp = Some e' /\
       Done e' = true /\ HintOk e' = true /\
       Best e' = Some (default a (find (isIndexScanAt m) l)) /\
       Cost e' = Cost e /\ First e' = First e /\ Id e' = Id e /\
       (forall g', g' <> grp -> groups m' !! g' = groups m !! g') /\
       (forall x rx, exprs m !! x = Some rx ->
          exists rx', exprs m' !! x = Some rx' /\ rel_c rx' = rel_c rx /\
                      Next rx' = Next rx /\ body rx' = body rx)).
Proof.
  intros Hg Hf Ha Hs Hc Hfuel.
  destruct fuel as [|fuel]; [lia|].
  destruct (Done e) eqn:Hd.
  - exists m. rewrite (optimizeMemoGroup_done _ _ _ e) by done.
    split; [reflexivity|]. split; [done|]. intros [=].
  - rewrite (optimizeMemoGroup_source_eq _ _ _ e a r) by done.
    rewrite (optimizeSource_spec _ _ _ _ e a l) by (done || lia).
    eexists. split; [reflexivity|]. split; [intros [=]|]. intros _.
    eexists. split.
    { rewrite groups_updRel, lookup_updGroup_eq, Hg. reflexivity. }
    do 6 (split; [reflexivity|]). split.
    + intros g' Hne. rewrite groups_updRel. by apply lookup_updGroup_ne.
    + intros x rx Hx.
      destruct (decide (default a (find (isIndexScanAt m) l) = x)) as [->|Hne].
      * rewrite lookup_updRel_eq, exprs_updGroup, Hx. simpl. eauto.
      * rewrite lookup_updRel_ne, exprs_updGroup by done. eauto.
Qed.

(** *** Choosing the best alternative under hints *)

Lemma hints_updateBest (m : Memo) grp n c : hints (updateBest m grp n c) = hints m.
Proof.
  unfold updateBest.
  destruct (hints m) eqn:E; [destruct (satisfiedBy _ _ _)|]; simpl;
    by rewrite E.
Qed.

(** A write to a group that keeps its id, its list, its done flag and
    its properties is a write of best, cost and hint-ok. *)
Lemma updGroup_as_write g f (m : Memo) e :
  groups m !! g = Some e ->
  Id (f e) = Id e -> First (f e) = First e -> Done (f e) = Done e ->
  RelPropsDistinct (f e) = RelPropsDistinct e ->
  updGroup g f m =
  updGroup g (fun e0 => setHintOk (HintOk (f e))
                          (setCost (Cost (f e)) (setBest (Best (f e)) e0))) m.
Proof.
  intros Hg Hid Hfirst Hdone Hrp. unfold updGroup. f_equal.
  apply list_alter_ext; [|reflexivity].
  intros x Hx. rewrite Hg in Hx. injection Hx as <-.
  revert Hid Hfirst Hdone Hrp. generalize (f e). intros e'.
  clear Hg. destruct e', e. unfold setHintOk, setCost, setBest. simpl.
  intros; subst; reflexivity.
Qed.

Lemma ExprGroup_updateBest_keeps n c e :
  Id (ExprGroup_updateBest n c e) = Id e /\
  First (ExprGroup_updateBest n c e) = First e /\
  Done (ExprGroup_updateBest n c e) = Done e /\
  RelPropsDistinct (ExprGroup_updateBest n c e) = RelPropsDistinct e /\
  HintOk (ExprGroup_updateBest n c e) = HintOk e.
Proof.
  unfold ExprGroup_updateBest.
  destruct (Best e); [destruct (f64_leb c (Cost e))|]; simpl; auto.
Qed.

(** The record of the group after one [updateBest]. *)
Lemma updateBest_group (m : Memo) grp n c e h :
  hints m = Some h -> groups m !! grp = Some e ->
  groups (updateBest m grp n c) !! grp =
    Some (if satisfiedBy h m n then
            if negb (HintOk e)
            then setHintOk true (setCost c (setBest (Some n) e))
            else ExprGroup_updateBest (Some n) c e
          else
            if isNil (Best e) || negb (HintOk e)
            then ExprGroup_updateBest (Some n) c e
            else e).
Proof.
  intros Hh Hg. unfold updateBest. rewrite Hh.
  destruct (satisfiedBy h m n); by rewrite lookup_updGroup_eq, Hg.
Qed.

Lemma updateBest_other (m : Memo) grp n c g' :
  g' <> grp -> groups (updateBest m grp n c) !! g' = groups m !! g'.
Proof.
  intros Hne. unfold updateBest.
  destruct (hints m); [destruct (satisfiedBy _ _ _)|];
    by apply lookup_updGroup_ne.
Qed.

Lemma exprs_updateBest (m : Memo) grp n c : exprs (updateBest m grp n c) = exprs m.
Proof.
  unfold updateBest.
  destruct (hints m); [destruct (satisfiedBy _ _ _)|]; reflexivity.
Qed.

(** *** Marking lookup joins injective *)

(** With a target group, the new lookup join is marked injective
    exactly when [isInjectiveLookup] holds of it. *)
Lemma MemoizeLookupJoin_prepended_injective (m : Memo) g e left right op filter lookup :
  groups m !! g = Some e ->
  let newJoin := length (exprs m) in
  let base := {| Op := AsLookup op; JoinFilter := filter;
                 Left := left; Right := right |} in
  let m3 :=
    Prepend (updRel newJoin (SetGroup (Some g))
               (fst (allocRel (newRel (LookupJoin base lookup false)) m)))
      g newJoin in
  exists r,
    exprs (fst (MemoizeLookupJoin m (Some g) left right op filter lookup))
      !! newJoin = Some r /\
    body r =
      LookupJoin base lookup
        (isInjectiveLookup m3 (ScanIndex lookup) newJoin
           (Expressions (Table lookup)) (NullMask (Table lookup))).
Proof.
  intros Hg newJoin base m3. unfold MemoizeLookupJoin. simpl.
  fold newJoin. fold base.
  change (Prepend (updRel newJoin (SetGroup (Some g)) (setExprs _ m))
            g newJoin) with m3.
  assert (H3 : exprs m3 !! newJoin
               = Some (SetNext (First e)
                         (SetGroup (Some g)
                            (newRel (LookupJoin base lookup false))))).
  { subst m3. unfold Prepend. rewrite groups_updRel. simpl groups. rewrite Hg.
    rewrite lookup_updRel_eq, exprs_updGroup, lookup_updRel_eq. simpl.
    by rewrite list_lookup_middle. }
  destruct (isInjectiveLookup m3 _ _ _ _); simpl.
  - rewrite list_lookup_alter_eq, H3. simpl. eauto.
  - rewrite H3. eauto.
Qed.

(** Without a target group the constructor returns before
    [isInjectiveLookup] is consulted: the join of the new group is not
    marked, whatever [isInjectiveLookup] would say. *)
Lemma MemoizeLookupJoin_created_not_injective (m : Memo) left right op filter lookup :
  let res := MemoizeLookupJoin m None left right op filter lookup in
  exists e r,
    groups (fst res) !! snd res = Some e /\
    First e = Some (length (exprs m)) /\
    exprs (fst res) !! length (exprs m) = Some r /\
    body r = LookupJoin {| Op := AsLookup op; JoinFilter := filter;
                           Left := left; Right := right |} lookup false /\
    Injective r = false.
Proof.
  unfold MemoizeLookupJoin, NewExprGroup, newExprGroup, allocRel, allocGroup.
  simpl. rewrite list_lookup_alter_eq, list_lookup_middle by done. simpl.
  eexists. eexists.
  split; [by apply list_lookup_middle|]. split; [reflexivity|].
  split; [by rewrite list_lookup_alter_eq, list_lookup_middle|]. done.
Qed.

Section HintFidelity.

(** The costs of the alternatives are compared as numbers: any two
    are comparable and the comparison is transitive (no cost is
    NaN). *)
Hypothesis f64_leb_total :
  forall a b, f64_leb a b = true \/ f64_leb b a = true.
Hypothesis f64_leb_trans :
  forall a b c, f64_leb a b = true -> f64_leb b c = true ->
                f64_leb a c = true.

(** Whether an alternative satisfies the hints does not depend on
    the best, the cost and the hint-ok flag of a group, the fields
    [updateBest] writes. *)
Hypothesis satisfiedBy_frame :
  forall h m g b c ok n,
    satisfiedBy h
      (updGroup g (fun e => setHintOk ok (setCost c (setBest b e))) m) n
    = satisfiedBy h m n.

Lemma f64_leb_refl a : f64_leb a a = true.
Proof. by destruct (f64_leb_total a a). Qed.

Lemma satisfiedBy_updateBest h (m : Memo) grp n c e n' :
  hints m = Some h -> groups m !! grp = Some e ->
  satisfiedBy h (updateBest m grp n c) n' = satisfiedBy h m n'.
Proof.
  intros Hh Hg. unfold updateBest. rewrite Hh.
  destruct (satisfiedBy h m n).
  - rewrite (updGroup_as_write grp _ m e Hg); [apply satisfiedBy_frame|..];
      destruct (HintOk e); simpl; try reflexivity;
      apply ExprGroup_updateBest_keeps.
  - rewrite (updGroup_as_write grp _ m e Hg); [apply satisfiedBy_frame|..];
      destruct (isNil (Best e) || negb (HintOk e)); simpl; try reflexivity;
      apply ExprGroup_updateBest_keeps.
Qed.

Lemma minimal_snoc P keep c n c0 :
  minimal P keep c -> (keep n = true -> f64_leb c c0 = true) ->
  minimal (P ++ [(n, c0)]) keep c.
Proof.
  intros Hmin Hnew n' c' Hin Hk. apply in_app_or in Hin as [Hin|Hin].
  - by eapply Hmin.
  - destruct Hin as [[= <- <-]|[]]. by apply Hnew.
Qed.

Lemma minimal_lower P keep c c0 :
  minimal P keep c -> f64_leb c0 c = true -> minimal P keep c0.
Proof.
  intros Hmin Hle n' c' Hin Hk. eapply f64_leb_trans; [exact Hle|].
  by eapply Hmin.
Qed.

(** One [updateBest] extends the choice by one candidate. *)
Lemma chosen_step sat P e n c :
  chosen sat P e ->
  chosen sat (P ++ [(n, c)])
    (if sat n then
       if negb (HintOk e)
       then setHintOk true (setCost c (setBest (Some n) e))
       else ExprGroup_updateBest (Some n) c e
     else
       if isNil (Best e) || negb (HintOk e)
       then ExprGroup_updateBest (Some n) c e
       else e).
Proof.
  unfold chosen. rewrite existsb_app. simpl. rewrite orb_false_r.
  destruct (existsb (fun nc => sat (fst nc)) P) eqn:Hex; simpl.
  - intros (Hok & n0 & Hbest & Hin & Hsat & Hmin). rewrite Hok, Hbest. simpl.
    destruct (sat n) eqn:Hn; simpl.
    + unfold ExprGroup_updateBest. rewrite Hbest.
      destruct (f64_leb c (Cost e)) eqn:Hle; simpl.
      * split; [done|]. exists n. repeat split; try done.
        { apply in_or_app. right. by left. }
        apply minimal_snoc; [by eapply minimal_lower|].
        intros _. apply f64_leb_refl.
      * split; [done|]. exists n0. repeat split; try done.
        { apply in_or_app. by left. }
        apply minimal_snoc; [done|]. intros _.
        destruct (f64_leb_total c (Cost e)); congruence.
    + split; [done|]. exists n0. repeat split; try done.
      { apply in_or_app. by left. }
      apply minimal_snoc; [done|]. congruence.
  - intros (Hok & Hbest). rewrite Hok. simpl. rewrite orb_true_r.
    assert (Hnone : forall n' c', In (n', c') P -> sat n' = false).
    { intros n' c' Hin. destruct (sat n') eqn:E; [|done].
      assert (existsb (fun nc => sat (fst nc)) P = true); [|congruence].
      apply existsb_exists. by exists (n', c'). }
    destruct (sat n) eqn:Hn; simpl.
    + split; [done|]. exists n. repeat split; try done.
      { apply in_or_app. right. by left. }
      intros n' c' Hin Hs. apply in_app_or in Hin as [Hin|Hin].
      * rewrite (Hnone _ _ Hin) in Hs. done.
      * destruct Hin as [[= <- <-]|[]]. apply f64_leb_refl.
    + destruct (ExprGroup_updateBest_keeps (Some n) c e)
        as (_ & _ & _ & _ & Hk).
      split; [by rewrite Hk|]. right.
      unfold ExprGroup_updateBest.
      destruct Hbest as [[-> Hb]|(n0 & Hb & Hin & Hmin)]; rewrite Hb; simpl.
      * exists n. repeat split; try done; [by left|].
        intros n' c' [[= <- <-]|[]] _. apply f64_leb_refl.
      * destruct (f64_leb c (Cost e)) eqn:Hle; simpl.
        -- exists n. repeat split; try done.
           { apply in_or_app. right. by left. }
           apply minimal_snoc; [by eapply minimal_lower|].
           intros _. apply f64_leb_refl.
        -- exists n0. repeat split; try done.
           { apply in_or_app. by left. }
           apply minimal_snoc; [done|]. intros _.
           destruct (f64_leb_total c (Cost e)); congruence.
Qed.

(** The calls of [updateBest] for the candidates of a group leave
    the choice among all of them in the record of the group. *)
Lemma updateBestAll_chosen h sat grp cands :
  forall P m e,
    hints m = Some h -> groups m !! grp = Some e ->
    (forall n, satisfiedBy h m n = sat n) ->
    chosen sat P e ->
    exists e',
      groups (updateBestAll m grp cands) !! grp = Some e' /\
      chosen sat (P ++ cands) e' /\
      First e' = First e /\ Done e' = Done e.
Proof.
  induction cands as [|[n c] cands IH]; intros P m e Hh Hg Hsat Hch.
  - exists e. rewrite app_nil_r. auto.
  - unfold updateBestAll. simpl. fold (updateBestAll (updateBest m grp n c) grp cands).
    pose proof (updateBest_group m grp n c e h Hh Hg) as Hg'.
    rewrite Hsat in Hg'.
    destruct (IH (P ++ [(n, c)]) (updateBest m grp n c) _
                (eq_trans (hints_updateBest _ _ _ _) Hh) Hg')
      as (e' & He' & Hch' & Hf' & Hd').
    + intros n'. rewrite <- Hsat. by eapply satisfiedBy_updateBest.
    + by apply chosen_step.
    + exists e'. rewrite <- app_assoc in Hch'. simpl in Hch'.
      split; [exact He'|]. split; [exact Hch'|].
      rewrite Hf', Hd'.
      destruct (sat n), (HintOk e), (Best e); simpl;
        unfold ExprGroup_updateBest; simpl;
        try destruct (f64_leb c (Cost e)); simpl; auto;
        destruct (Best e); try destruct (f64_leb c (Cost e)); simpl; auto.
Qed.

Lemma satisfiedBy_updateBestAll h grp cands :
  forall m e n',
    hints m = Some h -> groups m !! grp = Some e ->
    satisfiedBy h (updateBestAll m grp cands) n' = satisfiedBy h m n'.
Proof.
  induction cands as [|[n c] cands IH]; intros m e n' Hh Hg; [done|].
  unfold updateBestAll. simpl.
  fold (updateBestAll (updateBest m grp n c) grp cands).
  pose proof (updateBest_group m grp n c e h Hh Hg) as Hg'.
  rewrite (IH _ _ n' (eq_trans (hints_updateBest _ _ _ _) Hh) Hg').
  by eapply satisfiedBy_updateBest.
Qed.

Lemma chosen_fresh sat e :
  Best e = None -> HintOk e = false -> chosen sat [] e.
Proof. intros Hb Hok. unfold chosen. simpl. auto. Qed.

(** The fold of [updateBest] over a list of candidates, whatever the
    list.  In a memo with hints, let a group that has no best yet and
    is not hint-ok be offered the candidates with their costs, one
    [updateBest] each.  If some candidate satisfies the hints, the
    group ends hint-ok and its best is a candidate that satisfies the
    hints, whatever the costs of those that do not, and its cost is
    minimal among the candidates that satisfy the hints. *)
Theorem updateBestAll_prefers_satisfying (m : Memo) grp e h cands :
  hints m = Some h ->
  groups m !! grp = Some e ->
  Best e = None ->
  HintOk e = false ->
  (exists n c, In (n, c) cands /\ satisfiedBy h m n = true) ->
  exists e' n,
    groups (updateBestAll m grp cands) !! grp = Some e' /\
    HintOk e' = true /\
    Best e' = Some n /\
    In (n, Cost e') cands /\
    satisfiedBy h m n = true /\
    satisfiedBy h (updateBestAll m grp cands) n = true /\
    (forall n' c', In (n', c') cands -> satisfiedBy h m n' = true ->
                   f64_leb (Cost e') c' = true).
Proof.
  intros Hh Hg Hb Hok (n0 & c0 & Hin0 & Hsat0).
  destruct (updateBestAll_chosen h (satisfiedBy h m) grp cands [] m e
              Hh Hg (fun _ => eq_refl) (chosen_fresh _ e Hb Hok))
    as (e' & He' & Hch & _).
  simpl in Hch. unfold chosen in Hch.
  replace (existsb (fun nc => satisfiedBy h m (fst nc)) cands) with true
    in Hch.
  - destruct Hch as (Hok' & n & Hbest & Hin & Hsat & Hmin).
    exists e', n. repeat split; try done.
    by rewrite (satisfiedBy_updateBestAll h grp cands m e).
  - symmetry. apply existsb_exists. by exists (n0, c0).
Qed.

(** In a memo with hints, let a group that has no best yet and is not
    hint-ok be offered a list of candidates with their costs, one
    [updateBest] each.  If there is at least one candidate and none
    satisfies the hints, the group ends with a best that is not [nil]
    and whose cost is minimal among all the candidates, and its
    hint-ok flag is still false. *)
Theorem updateBestAll_none_satisfying (m : Memo) grp e h cands :
  hints m = Some h ->
  groups m !! grp = Some e ->
  Best e = None ->
  HintOk e = false ->
  cands <> [] ->
  (forall n c, In (n, c) cands -> satisfiedBy h m n = false) ->
  exists e' n,
    groups (updateBestAll m grp cands) !! grp = Some e' /\
    HintOk e' = false /\
    Best e' = Some n /\
    In (n, Cost e') cands /\
    (forall n' c', In (n', c') cands -> f64_leb (Cost e') c' = true).
Proof.
  intros Hh Hg Hb Hok Hne Hnone.
  destruct (updateBestAll_chosen h (satisfiedBy h m) grp cands [] m e
              Hh Hg (fun _ => eq_refl) (chosen_fresh _ e Hb Hok))
    as (e' & He' & Hch & _).
  simpl in Hch. unfold chosen in Hch.
  replace (existsb (fun nc => satisfiedBy h m (fst nc)) cands) with false
    in Hch.
  - destruct Hch as (Hok' & [[-> _]|(n & Hbest & Hin & Hmin)]); [done|].
    exists e', n. repeat split; try done.
    intros n' c' Hin'. by eapply Hmin.
  - symmetry. apply not_true_is_false. intros Hex.
    apply existsb_exists in Hex as ([n c] & Hin & Hsat).
    simpl in Hsat. rewrite (Hnone _ _ Hin) in Hsat. done.
Qed.

End HintFidelity.

(** *** Reification *)

Lemma buildChildren_ext rec1 rec2 (gs : list pExprGroup) :
  (forall g, In g gs -> rec1 g = rec2 g) ->
  @buildChildren error Node rec1 gs = buildChildren rec2 gs.
Proof.
  induction gs as [|g gs IH]; intros Hext; [reflexivity|].
  simpl. rewrite (Hext g) by (by left).
  rewrite IH; [reflexivity|]. intros g' Hin. apply Hext. by right.
Qed.

(** If every child is built without a panic, so is the list. *)
Lemma buildChildren_returns rec (gs : list pExprGroup) :
  (forall g, In g gs -> exists err node, rec g = Returned err node) ->
  exists err nodes, @buildChildren error Node rec gs = Returned err nodes.
Proof.
  induction gs as [|g gs IH]; intros Hret; simpl; [eauto|].
  destruct (Hret g) as (err & node & ->); [by left|].
  destruct err; [eauto|].
  destruct IH as (err' & nodes & ->); [intros; apply Hret; by right|].
  destruct err'; eauto.
Qed.

(** If moreover some child ends in an error, so does the list. *)
Lemma buildChildren_error rec (gs : list pExprGroup) c :
  (forall g, In g gs -> exists err node, rec g = Returned err node) ->
  In c gs ->
  (exists err node, rec c = Returned (Some err) node) ->
  exists err, @buildChildren error Node rec gs = Returned (Some err) [].
Proof.
  induction gs as [|g gs IH]; intros Hret Hin Hc; [destruct Hin|].
  simpl. destruct (Hret g) as ([err|] & node & Hg); [by left|..]; rewrite Hg.
  - eauto.
  - destruct Hin as [->|Hin].
    + destruct Hc as (err & node' & Hc). congruence.
    + destruct IH as (err & ->); [intros; apply Hret; by right|done..|eauto].
Qed.

Lemma planOk_children d (m : Memo) g e n r :
  planOk (S d) m g = true ->
  groups m !! g = Some e -> Done e = true ->
  Best e = Some n -> exprs m !! n = Some r ->
  forall c, In c (Children (body r)) ->
            exists c', c = Some c' /\ planOk d m c' = true.
Proof.
  intros Hok Hg Hd Hb Hr c Hin. simpl in Hok.
  rewrite Hg, Hd, Hb, Hr in Hok.
  rewrite forallb_forall in Hok. specialize (Hok c Hin).
  destruct c as [c'|]; [eauto|discriminate].
Qed.

(** On a well-formed plan the traversal returns: it neither panics nor
    runs out of fuel. *)
Lemma buildBestJoinPlan_returns d (m : Memo) input :
  forall g, planOk d m g = true ->
            exists err node, buildBestJoinPlan d m (Some g) input = Returned err node.
Proof.
  induction d as [|d IH]; intros g Hok; [discriminate|].
  pose proof Hok as Hok'. simpl in Hok'. simpl.
  destruct (groups m !! g) as [e|] eqn:Hg; [|discriminate].
  destruct (Done e) eqn:Hd; simpl; [|eauto].
  destruct (Best e) as [n|] eqn:Hb; [|discriminate].
  destruct (exprs m !! n) as [r|] eqn:Hr; [|discriminate].
  destruct (buildChildren_returns
              (fun g' => buildBestJoinPlan d m g' input) (Children (body r)))
    as (err & nodes & ->).
  - intros c Hin.
    destruct (planOk_children d m g e n r Hok Hg Hd Hb Hr c Hin)
      as (c' & -> & Hc'). by apply IH.
  - destruct err; [eauto|]. destruct (buildRel m n nodes). eauto.
Qed.

(** A group that is not done within reach ends the traversal in an
    error. *)
Lemma buildBestJoinPlan_undone d (m : Memo) input :
  forall g g' e',
    planOk d m g = true ->
    reach m g g' -> groups m !! g' = Some e' -> Done e' = false ->
    exists err, buildBestJoinPlan d m (Some g) input = Returned (Some err) None.
Proof.
  induction d as [|d IH]; intros g g' e' Hok Hreach Hg' Hd'; [discriminate|].
  pose proof Hok as Hok'. simpl in Hok'. simpl.
  destruct (groups m !! g) as [e|] eqn:Hg; [|discriminate].
  destruct (Done e) eqn:Hd; simpl; [|eauto].
  destruct (Best e) as [n|] eqn:Hb; [|discriminate].
  destruct (exprs m !! n) as [r|] eqn:Hr; [|discriminate].
  assert (Hchild : exists c, In (Some c) (Children (body r)) /\ reach m c g').
  { inversion Hreach as [|? e0 n0 r0 c ? Hg0 Hb0 Hr0 Hin Hrest]; subst.
    - congruence.
    - rewrite Hg in Hg0. injection Hg0 as <-.
      rewrite Hb in Hb0. injection Hb0 as <-.
      rewrite Hr in Hr0. injection Hr0 as <-. eauto. }
  destruct Hchild as (c & Hin & Hrest).
  destruct (buildChildren_error
              (fun g' => buildBestJoinPlan d m g' input) (Children (body r))
              (Some c)) as (err & ->); [..|eauto].
  - intros c0 Hin0.
    destruct (planOk_children d m g e n r Hok Hg Hd Hb Hr c0 Hin0)
      as (c' & -> & Hc'). by apply buildBestJoinPlan_returns.
  - exact Hin.
  - destruct (planOk_children d m g e n r Hok Hg Hd Hb Hr (Some c) Hin)
      as (c' & [= <-] & Hc').
    destruct (IH c g' e' Hc' Hrest Hg' Hd') as (err & ->). eauto.
Qed.

(** When every group within reach is done the check of the done flag
    never fires: the traversal is the depth-first one. *)
Lemma buildBestJoinPlan_all_done d (m : Memo) input :
  forall grp,
    (forall g g' e', grp = Some g -> reach m g g' ->
                     groups m !! g' = Some e' -> Done e' = true) ->
    buildBestJoinPlan d m grp input = depthFirstPlan d m grp input.
Proof.
  induction d as [|d IH]; intros grp Hall; [reflexivity|].
  simpl. destruct grp as [g|]; [|reflexivity].
  destruct (groups m !! g) as [e|] eqn:Hg; [|reflexivity].
  rewrite (Hall g g e eq_refl (reach_refl m g) Hg). simpl.
  destruct (Best e) as [n|] eqn:Hb; [|reflexivity].
  destruct (exprs m !! n) as [r|] eqn:Hr; [|reflexivity].
  rewrite (buildChildren_ext
             (fun g' => buildBestJoinPlan d m g' input)
             (fun g' => depthFirstPlan d m g' input)); [reflexivity|].
  intros c Hin. apply IH. intros c' g' e' -> Hreach.
  apply (Hall g g' e' eq_refl). by eapply reach_child.
Qed.

(** C10. Reification requires finished optimization.  Let the memo have
    a root and let the plan below it be well formed within the fuel
    (every done group has a best expression whose operands are groups of
    the memo).  If some group within reach of the root through the
    operands of best expressions is not done, [BestRootPlan] returns an
    error and no plan, without a panic.  If every group within reach is
    done, [BestRootPlan] returns what the depth-first traversal of the
    best expressions returns, again without a panic. *)
Theorem BestRootPlan_requires_done fuel (m : Memo) g :
  root m = Some g ->
  planOk fuel m g = true ->
  ((exists g' e', reach m g g' /\ groups m !! g' = Some e' /\ Done e' = false) ->
   exists err, BestRootPlan fuel m = Returned (Some err) None) /\
  ((forall g' e', reach m g g' -> groups m !! g' = Some e' -> Done e' = true) ->
   BestRootPlan fuel m = depthFirstPlan fuel m (Some g) None /\
   exists err node, BestRootPlan fuel m = Returned err node).
Proof.
  intros Hroot Hok. unfold BestRootPlan. rewrite Hroot. split.
  - intros (g' & e' & Hreach & Hg' & Hd').
    by eapply buildBestJoinPlan_undone.
  - intros Hall. split.
    + apply buildBestJoinPlan_all_done. intros g0 g' e' [= <-]. apply Hall.
    + by apply buildBestJoinPlan_returns.
Qed.


(** ** Further properties of the memo *)

(** *** The shape of the constructors *)

Lemma alter_missing {A} (f : A -> A) (l : list A) i :
  l !! i = None -> alter f i l = l.
Proof.
  intros Hi. apply list_eq. intros j. destruct (decide (j = i)) as [->|Hne].
  - by rewrite list_lookup_alter_eq, Hi.
  - by rewrite list_lookup_alter_ne.
Qed.

Lemma Prepend_fields (m : Memo) g rel :
  cnt (Prepend m g rel) = cnt m /\
  TableProps (Prepend m g rel) = TableProps m /\
  root (Prepend m g rel) = root m /\
  hints (Prepend m g rel) = hints m /\
  groups (Prepend m g rel) = alter (setFirst (Some rel)) g (groups m).
Proof.
  unfold Prepend. destruct (groups m !! g) eqn:Hg; simpl; [done|].
  by rewrite alter_missing.
Qed.

Lemma NewExprGroup_fields (m : Memo) rel :
  snd (NewExprGroup m rel) = length (groups m) /\
  cnt (fst (NewExprGroup m rel)) = uint16 (cnt m + 1) /\
  root (fst (NewExprGroup m rel)) = root m /\
  hints (fst (NewExprGroup m rel)) = hints m /\
  groups (fst (NewExprGroup m rel))
  = groups m ++ [{| Id := uint16 (cnt m + 1); First := Some rel; Best := None;
                    Cost := f64_zero; Done := false; HintOk := false;
                    RelPropsDistinct := unknownDistinctOp |}] /\
  exprs (fst (NewExprGroup m rel))
  = alter (SetGroup (Some (length (groups m)))) rel (exprs m) /\
  TableProps (fst (NewExprGroup m rel))
  = match exprs m !! rel with
    | Some r =>
        if isSourceRel (body r)
        then addTable (TableProps m) (Name (body r)) (uint16 (cnt m + 1))
        else TableProps m
    | None => TableProps m
    end.
Proof.
  unfold NewExprGroup, newExprGroup, allocGroup. simpl.
  rewrite list_lookup_alter_eq.
  destruct (exprs m !! rel) as [r|]; simpl; [|done].
  destruct (isSourceRel (body r)); simpl; done.
Qed.

(** Every memoizing join constructor allocates a join and either hands
    it to [NewExprGroup] or prepends it to the target group, after which
    a lookup join may be marked injective. *)
Lemma MemoizeJoin_shape c (m : Memo) grp left right :
  exists b f,
    isSourceRel b = false /\
    (exists j, JoinPrivate b = Some j /\ Left j = left /\ Right j = right) /\
    (forall r, Next (f r) = Next r /\ Group (f r) = Group r /\
               JoinPrivate (body (f r)) = JoinPrivate (body r) /\
               Children (body (f r)) = Children (body r) /\
               isSourceRel (body (f r)) = isSourceRel (body r)) /\
    MemoizeJoin c m grp left right
    = match grp with
      | None => NewExprGroup (fst (allocRel (newRel b) m)) (length (exprs m))
      | Some g =>
          (updRel (length (exprs m)) f
             (Prepend (updRel (length (exprs m)) (SetGroup (Some g))
                         (fst (allocRel (newRel b) m))) g (length (exprs m))),
           g)
      end.
Proof.
  assert (Hid : forall r : RelExpr,
             Next r = Next r /\ Group r = Group r /\
             JoinPrivate (body r) = JoinPrivate (body r) /\
             Children (body r) = Children (body r) /\
             isSourceRel (body r) = isSourceRel (body r)) by done.
  assert (Hinj : forall r : RelExpr,
             Next (SetInjective r) = Next r /\
             Group (SetInjective r) = Group r /\
             JoinPrivate (body (SetInjective r)) = JoinPrivate (body r) /\
             Children (body (SetInjective r)) = Children (body r) /\
             isSourceRel (body (SetInjective r)) = isSourceRel (body r)).
  { intros [? ? ? ? ? []]; simpl; auto. }
  destruct c; simpl;
    unfold MemoizeLeftJoin, MemoizeInnerJoin, MemoizeLookupJoin,
      MemoizeConcatLookupJoin, MemoizeRangeHeapJoin, MemoizeMergeJoin;
    simpl.
  3: { destruct grp as [g|]; simpl.
       - destruct (isInjectiveLookup _ _ _ _ _) eqn:E.
         + eexists _, SetInjective. split; [|split; [|split; [exact Hinj|]]];
             [| |reflexivity]; [reflexivity|]. eexists; simpl; eauto.
         + eexists _, (fun r => r). split; [|split; [|split; [exact Hid|]]];
             [| |by rewrite updRel_id]; [reflexivity|]. eexists; simpl; eauto.
       - eexists _, (fun r => r). split; [|split; [|split; [exact Hid|]]];
           [| |reflexivity]; [reflexivity|]. eexists; simpl; eauto. }
  all: eexists _, (fun r => r).
  all: split; [|split; [|split; [exact Hid|]]];
         [| |destruct grp; [by rewrite updRel_id|reflexivity]];
         [reflexivity|eexists; simpl; eauto].
Qed.

Lemma MemoizeNode_shape c (m : Memo) grp :
  MemoizeNode c m grp
  = match grp with
    | None => NewExprGroup (fst (allocRel (newRel (nodeOf c)) m))
                (length (exprs m))
    | Some g =>
        (Prepend (updRel (length (exprs m)) (SetGroup (Some g))
                    (fst (allocRel (newRel (nodeOf c)) m))) g
           (length (exprs m)), g)
    end.
Proof. destruct c, grp; reflexivity. Qed.

(** *** Invariants of construction *)

(** What a step of construction does to the groups, the counter and the
    registry: nothing; or a new first expression for one group; or one
    more group, with the next id, under which a name may be
    registered. *)
Lemma constructed_steps (P : Memo -> Prop) :
  P NewMemo ->
  (forall m m' : Memo,
      constructed m -> P m ->
      groups m' = groups m -> cnt m' = cnt m ->
      TableProps m' = TableProps m -> P m') ->
  (forall (m m' : Memo) g rel,
      constructed m -> P m ->
      groups m' = alter (setFirst (Some rel)) g (groups m) ->
      cnt m' = cnt m -> TableProps m' = TableProps m -> P m') ->
  (forall (m m' : Memo) rel,
      constructed m -> P m ->
      cnt m' = uint16 (cnt m + 1) ->
      groups m'
      = groups m ++ [{| Id := uint16 (cnt m + 1); First := Some rel;
                        Best := None; Cost := f64_zero; Done := false;
                        HintOk := false;
                        RelPropsDistinct := unknownDistinctOp |}] ->
      (TableProps m' = TableProps m \/
       exists n, TableProps m' = addTable (TableProps m) n (uint16 (cnt m + 1))) ->
      P m') ->
  forall m, constructed m -> P m.
Proof.
  intros Hnew Hsame Hpre Hgrp m Hm.
  induction Hm as [|m r Hm IH|m rel Hm IH|m c grp left right Hm IH
                   |m c grp Hm IH|m g Hm IH].
  - exact Hnew.
  - by apply (Hsame m).
  - destruct (NewExprGroup_fields m rel) as (_ & Hc & _ & _ & Hg & _ & Ht).
    apply (Hgrp m _ rel); [done..|].
    rewrite Ht. destruct (exprs m !! rel) as [r|]; [|by left].
    destruct (isSourceRel (body r)); [right; eauto|by left].
  - destruct (MemoizeJoin_shape c m grp left right)
      as (b & f & _ & _ & _ & ->).
    destruct grp as [g|].
    + simpl fst.
      destruct (Prepend_fields
                  (updRel (length (exprs m)) (SetGroup (Some g))
                     (fst (allocRel (newRel b) m))) g (length (exprs m)))
        as (Hc & Ht & _ & _ & Hg).
      apply (Hpre m _ g (length (exprs m))); [done..| | |].
      * rewrite groups_updRel. exact Hg.
      * exact Hc.
      * exact Ht.
    + destruct (NewExprGroup_fields (fst (allocRel (newRel b) m))
                  (length (exprs m))) as (_ & Hc & _ & _ & Hg & _ & Ht).
      apply (Hgrp m _ (length (exprs m))); [done..|].
      rewrite Ht. simpl.
      destruct ((exprs m ++ [newRel b]) !! length (exprs m)) as [r|]; [|by left].
      destruct (isSourceRel (body r)); [right; eauto|by left].
  - rewrite MemoizeNode_shape. destruct grp as [g|].
    + simpl fst.
      destruct (Prepend_fields
                  (updRel (length (exprs m)) (SetGroup (Some g))
                     (fst (allocRel (newRel (nodeOf c)) m))) g
                  (length (exprs m)))
        as (Hc & Ht & _ & _ & Hg).
      by apply (Hpre m _ g (length (exprs m))).
    + destruct (NewExprGroup_fields (fst (allocRel (newRel (nodeOf c)) m))
                  (length (exprs m))) as (_ & Hc & _ & _ & Hg & _ & Ht).
      apply (Hgrp m _ (length (exprs m))); [done..|].
      rewrite Ht. simpl.
      destruct ((exprs m ++ [newRel (nodeOf c)]) !! length (exprs m)) as [r|];
        [|by left].
      destruct (isSourceRel (body r)); [right; eauto|by left].
  - by apply (Hsame m).
Qed.

Lemma uint16_succ z : uint16 (uint16 z + 1) = uint16 (z + 1).
Proof. unfold uint16. by rewrite Z.add_mod_idemp_l. Qed.

Lemma uint16_small z : 0 <= z < 65536 -> uint16 z = z.
Proof. intros. unfold uint16. by apply Z.mod_small. Qed.

Lemma constructed_idsInOrder (m : Memo) : constructed m -> idsInOrder m.
Proof.
  apply constructed_steps; clear m.
  - split; [reflexivity|]. intros i e Hi. simpl in Hi. by rewrite lookup_nil in Hi.
  - intros m m' _ [Hc Hi] Hg Hc' _. split; [by rewrite Hc', Hg|].
    by rewrite Hg.
  - intros m m' g rel _ [Hc Hi] Hg Hc' _. split.
    + by rewrite Hc', Hg, length_alter.
    + intros i e He. rewrite Hg in He.
      destruct (decide (i = g)) as [->|Hne].
      * rewrite list_lookup_alter_eq in He.
        destruct (groups m !! g) as [e0|] eqn:E; [|discriminate].
        injection He as <-. simpl. by apply Hi.
      * rewrite list_lookup_alter_ne in He by done. by apply Hi.
  - intros m m' rel _ [Hc Hi] Hc' Hg _. split.
    + rewrite Hc', Hg, length_app, Hc. simpl.
      rewrite uint16_succ. f_equal. lia.
    + intros i e He. rewrite Hg in He.
      apply lookup_app_Some in He as [He|[Hge He]]; [by apply Hi|].
      apply list_lookup_singleton_Some in He as [Hz <-]. simpl.
      rewrite Hc, uint16_succ. f_equal. lia.
Qed.

Lemma constructed_unoptimized (m : Memo) : constructed m -> unoptimized m.
Proof.
  apply constructed_steps; clear m.
  - intros g e Hg. simpl in Hg. by rewrite lookup_nil in Hg.
  - intros m m' _ Hu Hg _ _ g e He. rewrite Hg in He. by apply (Hu g).
  - intros m m' g rel _ Hu Hg _ _ i e He. rewrite Hg in He.
    destruct (decide (i = g)) as [->|Hne].
    + rewrite list_lookup_alter_eq in He.
      destruct (groups m !! g) as [e0|] eqn:E; [|discriminate].
      injection He as <-. destruct (Hu g e0 E) as (_ & ? & ? & ?). done.
    + rewrite list_lookup_alter_ne in He by done. by apply (Hu i).
  - intros m m' rel _ Hu _ Hg _ i e He. rewrite Hg in He.
    apply lookup_app_Some in He as [He|[Hge He]]; [by apply (Hu i)|].
    apply list_lookup_singleton_Some in He as [Hz <-]. done.
Qed.

Lemma TableIdForSource_position i :
  Z.of_nat i < 65536 -> TableIdForSource (uint16 (Z.of_nat i + 1)) = Z.of_nat i.
Proof.
  intros Hi. unfold TableIdForSource.
  destruct (decide (Z.of_nat i + 1 = 65536)) as [E|E].
  - rewrite E. replace (Z.of_nat i) with 65535 by lia. reflexivity.
  - rewrite (uint16_small (Z.of_nat i + 1)) by lia.
    replace (Z.of_nat i + 1 - 1) with (Z.of_nat i) by lia.
    apply uint16_small. lia.
Qed.

(** Group ids follow the order of creation.  In a memo built through
    the constructors the counter is the number of groups and the
    [i + 1]-th group created has the id [i + 1], as [uint16]; while the
    memo has no more than 65536 groups, [TableIdForSource] of the id of a
    group is its position and no two groups have the same id. *)
Theorem constructed_group_ids (m : Memo) i e :
  constructed m ->
  groups m !! i = Some e ->
  cnt m = uint16 (Z.of_nat (length (groups m))) /\
  Id e = uint16 (Z.of_nat i + 1) /\
  (Z.of_nat (length (groups m)) <= 65536 ->
   TableIdForSource (Id e) = Z.of_nat i /\
   forall j e', groups m !! j = Some e' -> Id e' = Id e -> j = i).
Proof.
  intros Hm He. destruct (constructed_idsInOrder m Hm) as [Hc Hi].
  split; [exact Hc|]. split; [by apply Hi|]. intros Hlen.
  assert (Hpos : forall j e', groups m !! j = Some e' ->
                              TableIdForSource (Id e') = Z.of_nat j).
  { intros j e' Hj. rewrite (Hi j e' Hj).
    apply TableIdForSource_position.
    apply lookup_lt_Some in Hj. lia. }
  split; [by apply Hpos|].
  intros j e' Hj Hid. apply Nat2Z.inj.
  by rewrite <- (Hpos j e' Hj), <- (Hpos i e He), Hid.
Qed.

Lemma constructed_hints (m : Memo) : constructed m -> hints m = Some noHints.
Proof.
  intros Hm.
  induction Hm as [|m r Hm IH|m rel Hm IH|m c grp left right Hm IH
                   |m c grp Hm IH|m g Hm IH]; try done.
  - destruct (NewExprGroup_fields m rel) as (_ & _ & _ & Hh & _). congruence.
  - destruct (MemoizeJoin_shape c m grp left right)
      as (b & f & _ & _ & _ & ->).
    destruct grp as [g|].
    + destruct (Prepend_fields
                  (updRel (length (exprs m)) (SetGroup (Some g))
                     (fst (allocRel (newRel b) m))) g (length (exprs m)))
        as (_ & _ & _ & Hh & _).
      simpl fst. unfold updRel at 1. simpl hints.
      etransitivity; [exact Hh|exact IH].
    + destruct (NewExprGroup_fields (fst (allocRel (newRel b) m))
                  (length (exprs m))) as (_ & _ & _ & Hh & _).
      etransitivity; [exact Hh|exact IH].
  - rewrite MemoizeNode_shape. destruct grp as [g|].
    + destruct (Prepend_fields
                  (updRel (length (exprs m)) (SetGroup (Some g))
                     (fst (allocRel (newRel (nodeOf c)) m))) g
                  (length (exprs m)))
        as (_ & _ & _ & Hh & _).
      etransitivity; [exact Hh|exact IH].
    + destruct (NewExprGroup_fields (fst (allocRel (newRel (nodeOf c)) m))
                  (length (exprs m))) as (_ & _ & _ & Hh & _).
      etransitivity; [exact Hh|exact IH].
Qed.

(** The constructors leave optimization to [optimizeMemoGroup]: in a
    memo built through them the hints are those [NewMemo] made, never
    [nil], and every group has a first expression, no best expression,
    and is neither done nor hint-ok. *)
Theorem constructed_groups_unoptimized (m : Memo) g e :
  constructed m ->
  groups m !! g = Some e ->
  hints m = Some noHints /\
  First e <> None /\ Best e = None /\ Done e = false /\ HintOk e = false.
Proof.
  intros Hm He. split; [by apply constructed_hints|].
  by apply (constructed_unoptimized m Hm g).
Qed.

Lemma constructed_registryOk (m : Memo) :
  constructed m -> Z.of_nat (length (groups m)) <= 65536 -> registryOk m.
Proof.
  apply (constructed_steps
           (fun m => Z.of_nat (length (groups m)) <= 65536 -> registryOk m));
    clear m.
  - intros _ n id Hn. simpl in Hn. by rewrite lookup_empty in Hn.
  - intros m m' _ IH Hg _ Ht Hlen n id Hn. rewrite Hg in Hlen.
    rewrite Ht in *. rewrite Hg. by apply IH.
  - intros m m' g rel _ IH Hg _ Ht Hlen n id Hn.
    rewrite Hg, length_alter in Hlen. rewrite Ht in *.
    destruct (IH Hlen n id Hn) as (Hback & i & e & He & Hid).
    split; [exact Hback|]. rewrite Hg.
    destruct (decide (i = g)) as [->|Hne].
    + exists g, (setFirst (Some rel) e).
      by rewrite list_lookup_alter_eq, He.
    + exists i, e. by rewrite list_lookup_alter_ne.
  - intros m m' rel Hm IH Hc Hg Ht Hlen n id Hn.
    rewrite Hg, length_app in Hlen. simpl in Hlen.
    rewrite Nat2Z.inj_add in Hlen. simpl in Hlen.
    assert (Hlen' : Z.of_nat (length (groups m)) <= 65536) by lia.
    specialize (IH Hlen').
    assert (Hold : forall n id, nameToGrp (TableProps m) !! n = Some id ->
              exists i e, groups m' !! i = Some e /\ Id e = id /\
                          id <> uint16 (cnt m + 1)).
    { intros n0 id0 Hn0. destruct (IH n0 id0 Hn0) as (_ & i & e & He & Hid).
      exists i, e. rewrite Hg. split; [by apply lookup_app_l_Some|].
      split; [exact Hid|].
      destruct (constructed_idsInOrder m Hm) as [Hcnt Hids].
      rewrite <- Hid, (Hids i e He), Hcnt, uint16_succ.
      apply lookup_lt_Some in He.
      rewrite (uint16_small (Z.of_nat i + 1)) by lia.
      destruct (decide (Z.of_nat (length (groups m)) + 1 = 65536)) as [E|E].
      - rewrite E. change (uint16 65536) with 0. lia.
      - rewrite uint16_small by lia. lia. }
    destruct Ht as [Ht|[n0 Ht]]; rewrite Ht in *.
    + destruct (IH n id Hn) as (Hback & _).
      destruct (Hold n id Hn) as (i & e & He & Hid & _). eauto.
    + simpl in Hn. simpl. destruct (decide (n = n0)) as [->|Hne].
      * rewrite lookup_insert_eq in Hn. injection Hn as <-.
        rewrite lookup_insert_eq. split; [done|].
        eexists (length (groups m)), _. rewrite Hg.
        split; [by apply list_lookup_middle|done].
      * rewrite lookup_insert_ne in Hn by done.
        destruct (IH n id Hn) as (Hback & _).
        destruct (Hold n id Hn) as (i & e & He & Hid & Hfresh).
        rewrite lookup_insert_ne by done. eauto.
Qed.

(** The registry of a memo built through the constructors, while it has
    no more than 65536 groups: a table id returned by [getTableId] is
    the id of a group of the memo, and [GetTable] maps it back to the
    lowered query. *)
Theorem getTableId_GetTable_round_trip (m : Memo) q id :
  constructed m ->
  Z.of_nat (length (groups m)) <= 65536 ->
  getTableId m q = (id, true) ->
  GetTable (TableProps m) id = (ToLower q, true) /\
  exists i e, groups m !! i = Some e /\ Id e = id.
Proof.
  intros Hm Hlen Hq. unfold getTableId, GetId in Hq.
  destruct (nameToGrp (TableProps m) !! ToLower q) as [id'|] eqn:E;
    [|discriminate].
  injection Hq as Hq. subst id'.
  destruct (constructed_registryOk m Hm Hlen _ _ E) as (Hback & Hgrp).
  split; [|exact Hgrp]. unfold GetTable.
  unfold gostring, rune in *. by rewrite Hback.
Qed.

(** *** [relKey] *)

Lemma int64_small z : 0 <= z < 2 ^ 63 -> int64 z = z.
Proof. intros Hz. unfold int64. rewrite Z.mod_small; lia. Qed.

Lemma uint64_small z : 0 <= z < 2 ^ 63 -> uint64 z = z.
Proof. intros Hz. unfold uint64. rewrite Z.mod_small; lia. Qed.

(** An expression has no operand, one or two. *)
Lemma Children_cases (b : @relBody JoinType Expression SqlIndex IndexedTableAccess) :
  Children b = [] \/ (exists c, Children b = [c]) \/
  (exists c1 c2, Children b = [c1; c2]).
Proof. destruct b; simpl; eauto. Qed.

(** The key of an expression whose ids are between 1 and 2^16 - 1: the
    ids as the digits of a numeral in base 2^16 - 1, the group first. *)
Lemma relKey_value (m : Memo) (r : RelExpr) g cs :
  relIds m r = Some (g, cs) ->
  (forall x, In x (g :: cs) -> 1 <= x <= 65535) ->
  relKey m r
  = Some (match cs with
          | [] => g
          | [x1] => g + 65535 * x1
          | x1 :: x2 :: _ => g + 65535 * x1 + 4294836225 * x2
          end) /\
  (length cs <= 2)%nat.
Proof.
  unfold relIds, relKey. intros Hids Hb.
  destruct (groupId m (Group r)) as [g0|] eqn:Hg; [|discriminate].
  destruct (mapM (groupId m) (Children (body r))) as [cs0|] eqn:Hcs;
    [|discriminate].
  injection Hids as -> ->. apply mapM_Some in Hcs.
  assert (Hg0 : 1 <= g <= 65535) by (apply Hb; by left).
  change (2 ^ 16 - 1) with 65535.
  destruct (Children_cases (body r)) as [E|[(c & E)|(c1 & c2 & E)]];
    rewrite E in *.
  - inversion Hcs; subst. simpl. rewrite uint64_small by lia.
    split; [reflexivity|simpl; lia].
  - inversion Hcs as [|? x1 ? ? Hx1 Hrest]; subst.
    inversion Hrest; subst. simpl. rewrite Hx1. simpl.
    assert (1 <= x1 <= 65535) by (apply Hb; right; by left).
    rewrite (int64_small (65535 * x1)) by lia.
    rewrite int64_small by lia. rewrite uint64_small by lia.
    split; [reflexivity|simpl; lia].
  - inversion Hcs as [|? x1 ? ? Hx1 Hrest]; subst.
    inversion Hrest as [|? x2 ? ? Hx2 Hrest']; subst.
    inversion Hrest'; subst. simpl. rewrite Hx1. simpl. rewrite Hx2. simpl.
    assert (1 <= x1 <= 65535) by (apply Hb; right; by left).
    assert (1 <= x2 <= 65535) by (apply Hb; right; right; by left).
    change (int64 (65535 * (2 ^ 16 - 1))) with 4294836225.
    rewrite (int64_small (65535 * x1)) by lia.
    rewrite (int64_small (g + 65535 * x1)) by lia.
    rewrite (int64_small (4294836225 * x2)) by lia.
    rewrite int64_small by lia. rewrite uint64_small by lia.
    split; [reflexivity|simpl; lia].
Qed.

(** Two expressions with the same key are in groups of the same id and
    have operand groups of the same ids, in the same number, as long as
    every id is between 1 and 2^16 - 1. *)
Lemma relKey_ids_injective (m : Memo) (r r' : RelExpr) g cs g' cs' :
  relIds m r = Some (g, cs) ->
  relIds m r' = Some (g', cs') ->
  (forall x, In x (g :: cs ++ g' :: cs') -> 1 <= x <= 65535) ->
  relKey m r = relKey m r' ->
  g = g' /\ cs = cs'.
Proof.
  intros Hr Hr' Hb Hkey.
  destruct (relKey_value m r g cs Hr) as [Hk Hl].
  { intros x Hx. apply Hb. rewrite app_comm_cons. apply in_or_app. by left. }
  destruct (relKey_value m r' g' cs' Hr') as [Hk' Hl'].
  { intros x Hx. apply Hb. rewrite app_comm_cons. apply in_or_app. by right. }
  rewrite Hk, Hk' in Hkey. injection Hkey as Hkey.
  assert (Hg : 1 <= g <= 65535) by (apply Hb; by left).
  assert (Hg' : 1 <= g' <= 65535).
  { apply Hb. right. apply in_or_app. right. by left. }
  assert (Hcs : forall x, In x cs -> 1 <= x <= 65535).
  { intros x Hx. apply Hb. right. apply in_or_app. by left. }
  assert (Hcs' : forall x, In x cs' -> 1 <= x <= 65535).
  { intros x Hx. apply Hb. right. apply in_or_app. right. by right. }
  destruct cs as [|x1 [|x2 [|]]]; simpl in Hl; try lia;
    destruct cs' as [|y1 [|y2 [|]]]; simpl in Hl'; try lia.
  all: repeat match goal with
         | H : forall x, In x (?a :: ?l) -> _ |- _ =>
             pose proof (H a (or_introl eq_refl));
             assert (forall x, In x l -> 1 <= x <= 65535)
               by (intros; apply H; by right);
             clear H
         end.
  all: split; [lia|]; repeat f_equal; lia.
Qed.

Lemma groupId_range (m : Memo) p x :
  constructed m -> Z.of_nat (length (groups m)) <= 65535 ->
  groupId m p = Some x -> 1 <= x <= 65535.
Proof.
  intros Hm Hlen Hp. destruct p as [i|]; [|discriminate]. simpl in Hp.
  destruct (groups m !! i) as [e|] eqn:He; [|discriminate].
  injection Hp as <-.
  destruct (constructed_idsInOrder m Hm) as [_ Hi]. rewrite (Hi i e He).
  apply lookup_lt_Some in He. rewrite uint16_small; lia.
Qed.

Lemma groupId_inj (m : Memo) p p' x :
  constructed m -> Z.of_nat (length (groups m)) <= 65535 ->
  groupId m p = Some x -> groupId m p' = Some x -> p = p'.
Proof.
  intros Hm Hlen Hp Hp'.
  destruct p as [i|]; [|discriminate]. destruct p' as [j|]; [|discriminate].
  simpl in Hp, Hp'.
  destruct (groups m !! i) as [e|] eqn:He; [|discriminate].
  destruct (groups m !! j) as [e'|] eqn:He'; [|discriminate].
  injection Hp as <-. injection Hp' as Hid.
  destruct (constructed_idsInOrder m Hm) as [_ Hi].
  rewrite (Hi i e He), (Hi j e' He') in Hid.
  apply lookup_lt_Some in He. apply lookup_lt_Some in He'.
  rewrite !uint16_small in Hid by lia. f_equal. lia.
Qed.

Lemma relKeyLoop_Some (m : Memo) cs :
  forall key i k, relKeyLoop m cs key i = Some k ->
                  exists ids, mapM (groupId m) cs = Some ids.
Proof.
  induction cs as [|c cs IH]; intros key i k Hk; simpl in *; [eauto|].
  destruct (groupId m c) as [id|]; [|discriminate].
  destruct (IH _ _ _ Hk) as (ids & ->). simpl. eauto.
Qed.

(** [relKey] identifies an expression by its group and its operands.
    In a memo built through the constructors with at most 2^16 - 1
    groups, so that no group has the id 0, two expressions for which
    [relKey] returns the same key are in the same group and have the
    same operand groups. *)
Theorem relKey_identifies (m : Memo) (r r' : RelExpr) k :
  constructed m ->
  Z.of_nat (length (groups m)) <= 65535 ->
  relKey m r = Some k ->
  relKey m r' = Some k ->
  Group r = Group r' /\ Children (body r) = Children (body r').
Proof.
  intros Hm Hlen Hk Hk'.
  assert (Hids : forall r0 : RelExpr, relKey m r0 = Some k ->
            exists g cs, relIds m r0 = Some (g, cs) /\
                         groupId m (Group r0) = Some g /\
                         mapM (groupId m) (Children (body r0)) = Some cs).
  { intros r0 H0. unfold relKey, relIds in *.
    destruct (groupId m (Group r0)) as [g|]; [|discriminate].
    destruct (relKeyLoop m (Children (body r0)) g (2 ^ 16 - 1)) as [k0|] eqn:E;
      [|discriminate].
    destruct (relKeyLoop_Some _ _ _ _ _ E) as (ids & ->). eauto. }
  destruct (Hids r Hk) as (g & cs & Hr & Hg & Hcs).
  destruct (Hids r' Hk') as (g' & cs' & Hr' & Hg' & Hcs').
  assert (Hrange : forall (l : list pExprGroup) ids,
             mapM (groupId m) l = Some ids ->
             forall x, In x ids -> 1 <= x <= 65535).
  { intros l ids Hl x Hx. apply mapM_Some in Hl.
    induction Hl as [|p y l ids Hp Hl IH]; [destruct Hx|].
    destruct Hx as [<-|Hx]; [by eapply groupId_range|by apply IH]. }
  destruct (relKey_ids_injective m r r' g cs g' cs' Hr Hr') as [<- <-].
  - intros x [<-|Hx]; [by eapply groupId_range|].
    apply in_app_or in Hx as [Hx|[<-|Hx]];
      [by apply (Hrange _ _ Hcs)|by eapply groupId_range
      |by apply (Hrange _ _ Hcs')].
  - by rewrite Hk, Hk'.
  - split; [by eapply groupId_inj|].
    apply mapM_Some in Hcs. apply mapM_Some in Hcs'.
    clear Hr Hr'. revert Hcs'. generalize (Children (body r')).
    induction Hcs as [|p y l ids Hp Hl IH]; intros l' Hl'.
    + by inversion Hl'.
    + inversion Hl' as [|p' ? l0 ? Hp' Hrest]; subst.
      f_equal; [by eapply groupId_inj|by apply IH].
Qed.

(** *** Memoizing projections, filters and index scans *)

Lemma prepend_node (m : Memo) g e b :
  groups m !! g = Some e ->
  prependedNode m g e b
    (Prepend (updRel (length (exprs m)) (SetGroup (Some g))
                (fst (allocRel (newRel b) m))) g (length (exprs m))).
Proof.
  intros Hg. unfold prependedNode.
  set (rel := length (exprs m)).
  set (m' := Prepend (updRel rel (SetGroup (Some g))
                        (fst (allocRel (newRel b) m))) g rel).
  exists rel, (SetNext (First e) (SetGroup (Some g) (newRel b))),
    (setFirst (Some rel) e).
  assert (Hfresh : exprs m !! rel = None) by (by apply lookup_ge_None).
  assert (Hnew : exprs m' !! rel
                 = Some (SetNext (First e) (SetGroup (Some g) (newRel b)))).
  { subst m'. unfold Prepend. rewrite groups_updRel. simpl groups. rewrite Hg.
    rewrite lookup_updRel_eq, exprs_updGroup, lookup_updRel_eq.
    simpl. by rewrite list_lookup_middle. }
  assert (Hold : forall a, a <> rel -> exprs m' !! a = exprs m !! a).
  { intros a Ha. subst m'. unfold Prepend. rewrite groups_updRel.
    simpl groups. rewrite Hg.
    rewrite lookup_updRel_ne, exprs_updGroup, lookup_updRel_ne by done.
    simpl. destruct (decide (a < rel)%nat) as [Hlt|Hge].
    - by apply lookup_app_l.
    - rewrite !lookup_ge_None_2; [done | subst rel; lia |].
      rewrite length_app. simpl. subst rel. lia. }
  destruct (Prepend_fields (updRel rel (SetGroup (Some g))
                              (fst (allocRel (newRel b) m))) g rel)
    as (Hc & Ht & Hr & Hh & Hgrp).
  fold m' in Hc, Ht, Hr, Hh, Hgrp. rewrite groups_updRel in Hgrp.
  simpl in Hgrp, Hc, Ht, Hr, Hh.
  repeat split; try done.
  - rewrite Hgrp, list_lookup_alter_eq, Hg. reflexivity.
  - intros l Hc'. econstructor; [exact Hnew|]. simpl.
    eapply chain_ext; [|exact Hc'].
    intros a r Ha. rewrite Hold; [done|]. intros ->. congruence.
  - intros g' Hne. rewrite Hgrp. by apply list_lookup_alter_ne.
Qed.

Lemma create_node (m : Memo) b :
  createdNode m b
    (NewExprGroup (fst (allocRel (newRel b) m)) (length (exprs m))).
Proof.
  unfold createdNode.
  set (m1 := fst (allocRel (newRel b) m)).
  destruct (NewExprGroup_fields m1 (length (exprs m)))
    as (Hs & Hc & Hr & Hh & Hg & He & Ht).
  change (groups m1) with (groups m) in *.
  change (exprs m1) with (exprs m ++ [newRel b]) in *.
  change (cnt m1) with (cnt m) in *.
  change (root m1) with (root m) in *.
  change (hints m1) with (hints m) in *.
  change (TableProps m1) with (TableProps m) in *.
  rewrite list_lookup_middle in Ht by done. simpl in Ht.
  rewrite Hs. split; [by apply lookup_ge_None|].
  exists (length (exprs m)), (SetGroup (Some (length (groups m))) (newRel b)).
  eexists.
  split; [by apply lookup_ge_None|].
  split; [by rewrite He, list_lookup_alter_eq, list_lookup_middle|].
  do 3 (split; [done|]).
  split; [rewrite Hg; by apply list_lookup_middle|].
  do 5 (split; [done|]).
  split.
  { intros g' Hne. rewrite Hg. destruct (decide (g' < length (groups m))%nat).
    - by apply lookup_app_l.
    - rewrite !lookup_ge_None_2; [done | lia |]. rewrite length_app; simpl; lia. }
  split.
  { intros a Ha. rewrite He, list_lookup_alter_ne by done.
    destruct (decide (a < length (exprs m))%nat).
    - by apply lookup_app_l.
    - rewrite !lookup_ge_None_2; [done | lia |]. rewrite length_app; simpl; lia. }
  done.
Qed.

(** [MemoizeProject], [MemoizeIndexScan] and [MemoizeFilter] are
    frame-preserving.  Given a group of the memo, each returns it with
    the new node as its first expression, the previous alternatives
    following; id, best, cost and flags of the group, the other groups,
    the existing expressions, the counter, the registry, the root and
    the hints are unchanged.  Given [nil], each returns a new group
    with the next id whose only expression is the new node, and
    registers the name of an index scan under that id; the existing
    groups and expressions are unchanged. *)
Theorem MemoizeNode_frame c (m : Memo) g e :
  groups m !! g = Some e ->
  prependedNode m g e (nodeOf c) (fst (MemoizeNode c m (Some g))) /\
  snd (MemoizeNode c m (Some g)) = g /\
  createdNode m (nodeOf c) (MemoizeNode c m None).
Proof.
  intros Hg. rewrite !MemoizeNode_shape. simpl.
  split; [by apply prepend_node|]. split; [reflexivity|apply create_node].
Qed.

(** Memoizing a join never touches the registry, the root or the hints;
    the counter advances, and a group is added, exactly when no target
    group is given; one expression is added either way. *)
Theorem MemoizeJoin_keeps_registry c (m : Memo) grp left right :
  TableProps (fst (MemoizeJoin c m grp left right)) = TableProps m /\
  (forall q, getTableId (fst (MemoizeJoin c m grp left right)) q
             = getTableId m q) /\
  root (fst (MemoizeJoin c m grp left right)) = root m /\
  hints (fst (MemoizeJoin c m grp left right)) = hints m /\
  cnt (fst (MemoizeJoin c m grp left right))
  = match grp with Some _ => cnt m | None => uint16 (cnt m + 1) end /\
  length (groups (fst (MemoizeJoin c m grp left right)))
  = match grp with
    | Some _ => length (groups m)
    | None => S (length (groups m))
    end /\
  length (exprs (fst (MemoizeJoin c m grp left right)))
  = S (length (exprs m)).
Proof.
  destruct (MemoizeJoin_shape c m grp left right)
    as (b & f & Hsrc & _ & _ & ->).
  assert (Hgoal : forall m' : Memo,
             TableProps m' = TableProps m ->
             (TableProps m' = TableProps m /\
              (forall q, getTableId m' q = getTableId m q))).
  { intros m' Ht. split; [exact Ht|]. intros q. unfold getTableId. by rewrite Ht. }
  destruct grp as [g|].
  - set (m1 := updRel (length (exprs m)) (SetGroup (Some g))
                 (fst (allocRel (newRel b) m))).
    destruct (Prepend_fields m1 g (length (exprs m)))
      as (Hc & Ht & Hr & Hh & Hg).
    simpl fst.
    assert (He : length (exprs (Prepend m1 g (length (exprs m))))
                 = S (length (exprs m))).
    { unfold Prepend. destruct (groups m1 !! g); simpl;
        rewrite ?length_alter, length_app; simpl; lia. }
    rewrite (and_assoc (TableProps _ = _)).
    split; [by apply Hgoal|]. split; [exact Hr|]. split; [exact Hh|].
    split; [exact Hc|]. split.
    + rewrite groups_updRel, Hg, length_alter. reflexivity.
    + unfold updRel at 1. simpl. by rewrite length_alter.
  - set (m1 := fst (allocRel (newRel b) m)).
    destruct (NewExprGroup_fields m1 (length (exprs m)))
      as (_ & Hc & Hr & Hh & Hg & He & Ht).
    change (exprs m1 !! length (exprs m))
      with ((exprs m ++ [newRel b]) !! length (exprs m)) in Ht.
    rewrite list_lookup_middle in Ht by done. simpl in Ht.
    rewrite Hsrc in Ht.
    rewrite (and_assoc (TableProps _ = _)).
    split; [by apply Hgoal|]. split; [exact Hr|]. split; [exact Hh|].
    split; [exact Hc|]. split.
    + rewrite Hg, length_app. simpl. lia.
    + rewrite He, length_alter. simpl. rewrite length_app. simpl. lia.
Qed.

(** *** [updateBest] writes the choice of one group *)

Ltac eff :=
  repeat (split; [solve [done | intros; congruence]|]);
  solve [ left; repeat split; solve [done | congruence]
        | right; repeat split; solve [done | congruence] ].

Lemma updateBest_effect (m : Memo) grp n c e :
  groups m !! grp = Some e ->
  exists e',
    groups (updateBest m grp n c) !! grp = Some e' /\
    Id e' = Id e /\ First e' = First e /\ Done e' = Done e /\
    RelPropsDistinct e' = RelPropsDistinct e /\
    (HintOk e = true -> HintOk e' = true) /\
    Best e' <> None /\
    ((Best e <> None /\ Best e' = Best e /\ Cost e' = Cost e /\
      HintOk e' = HintOk e) \/
     (Best e' = Some n /\ Cost e' = c)).
Proof.
  intros Hg. unfold updateBest.
  destruct (hints m) as [h|]; [destruct (satisfiedBy h m n)|];
    rewrite lookup_updGroup_eq, Hg; simpl; eexists; (split; [reflexivity|]).
  - destruct (HintOk e) eqn:Hok; simpl; [|by eff].
    unfold ExprGroup_updateBest.
    destruct (Best e) eqn:Hb; [destruct (f64_leb c (Cost e))|];
      simpl; rewrite ?Hb; eff.
  - destruct (Best e) eqn:Hb; simpl.
    + destruct (HintOk e) eqn:Hok; simpl; [rewrite Hb; by eff|].
      unfold ExprGroup_updateBest. rewrite Hb.
      destruct (f64_leb c (Cost e)); simpl; rewrite ?Hb; eff.
    + unfold ExprGroup_updateBest. rewrite Hb. simpl. eff.
  - unfold ExprGroup_updateBest.
    destruct (Best e) eqn:Hb; [destruct (f64_leb c (Cost e))|];
      simpl; rewrite ?Hb; eff.
Qed.

(** [Memo.updateBest] writes the best expression, the cost and the
    hint-ok flag of the one group it is given, and nothing else: the
    expressions, the other groups, and the id, the list, the done flag
    and the properties of that group are unchanged.  After it the group
    has a best expression, a hint-ok flag that was set is still set,
    and either the previous choice stands with its cost or the
    candidate is the best with the cost given for it. *)
Theorem updateBest_frame (m : Memo) grp n c e :
  groups m !! grp = Some e ->
  exprs (updateBest m grp n c) = exprs m /\
  cnt (updateBest m grp n c) = cnt m /\
  root (updateBest m grp n c) = root m /\
  hints (updateBest m grp n c) = hints m /\
  TableProps (updateBest m grp n c) = TableProps m /\
  (forall g', g' <> grp ->
              groups (updateBest m grp n c) !! g' = groups m !! g') /\
  exists e',
    groups (updateBest m grp n c) !! grp = Some e' /\
    Id e' = Id e /\ First e' = First e /\ Done e' = Done e /\
    RelPropsDistinct e' = RelPropsDistinct e /\
    (HintOk e = true -> HintOk e' = true) /\
    Best e' <> None /\
    ((Best e <> None /\ Best e' = Best e /\ Cost e' = Cost e /\
      HintOk e' = HintOk e) \/
     (Best e' = Some n /\ Cost e' = c)).
Proof.
  intros Hg.
  split; [apply exprs_updateBest|].
  split; [unfold updateBest;
          by destruct (hints m); [destruct (satisfiedBy _ _ _)|]|].
  split; [unfold updateBest;
          by destruct (hints m); [destruct (satisfiedBy _ _ _)|]|].
  split; [apply hints_updateBest|].
  split; [unfold updateBest;
          by destruct (hints m); [destruct (satisfiedBy _ _ _)|]|].
  split; [intros g' Hne; by apply updateBest_other|].
  by apply updateBest_effect.
Qed.

(** *** The order of the alternatives *)

Section ChoiceOrder.

(** Costs are compared as numbers, and whether an alternative
    satisfies the hints does not depend on the fields [updateBest]
    writes. *)
Hypothesis f64_leb_total :
  forall a b, f64_leb a b = true \/ f64_leb b a = true.
Hypothesis f64_leb_trans :
  forall a b c, f64_leb a b = true -> f64_leb b c = true ->
                f64_leb a c = true.
Hypothesis satisfiedBy_frame :
  forall h m g b c ok n,
    satisfiedBy h
      (updGroup g (fun e => setHintOk ok (setCost c (setBest b e))) m) n
    = satisfiedBy h m n.

Lemma existsb_Permutation {A} (p : A -> bool) l l' :
  Permutation l l' -> existsb p l = existsb p l'.
Proof.
  intros Hp. apply eq_true_iff_eq. rewrite !existsb_exists.
  split; intros (x & Hx & Hpx); exists x; split; try done.
  - by eapply Permutation_in.
  - eapply Permutation_in; [symmetry; exact Hp|done].
Qed.

Lemma chosen_cost_le sat P P' e e' :
  P <> [] -> Permutation P P' ->
  chosen sat P e -> chosen sat P' e' ->
  HintOk e = HintOk e' /\ f64_leb (Cost e) (Cost e') = true.
Proof.
  intros Hne Hp Hc Hc'. unfold chosen in *.
  rewrite <- (existsb_Permutation _ _ _ Hp) in Hc'.
  destruct (existsb (fun nc => sat (fst nc)) P).
  - destruct Hc as (Hok & n & _ & _ & _ & Hmin).
    destruct Hc' as (Hok' & n' & _ & Hin' & Hsat' & _).
    split; [congruence|]. apply (Hmin n'); [|done].
    eapply Permutation_in; [symmetry; exact Hp|done].
  - destruct Hc as (Hok & [[-> _]|(n & _ & _ & Hmin)]); [done|].
    destruct Hc' as (Hok' & [[-> _]|(n' & _ & Hin' & _)]).
    + apply Permutation_nil_r in Hp. done.
    + split; [congruence|]. apply (Hmin n'); [|done].
      eapply Permutation_in; [symmetry; exact Hp|done].
Qed.

(** The cost of the plan chosen for a group does not depend on the
    order of its alternatives.  In a memo with hints, let a group that
    has no best yet and is not hint-ok be offered the same candidates in
    two orders: the group ends with the same hint-ok flag and with
    costs that are equal as numbers (each at most the other). *)
Theorem updateBestAll_order_independent (m : Memo) grp e h cands cands' :
  hints m = Some h ->
  groups m !! grp = Some e ->
  Best e = None -> HintOk e = false ->
  Permutation cands cands' ->
  exists e1 e2,
    groups (updateBestAll m grp cands) !! grp = Some e1 /\
    groups (updateBestAll m grp cands') !! grp = Some e2 /\
    HintOk e1 = HintOk e2 /\
    f64_leb (Cost e1) (Cost e2) = true /\
    f64_leb (Cost e2) (Cost e1) = true.
Proof.
  intros Hh Hg Hb Hok Hp.
  destruct (updateBestAll_chosen f64_leb_total f64_leb_trans satisfiedBy_frame
              h (satisfiedBy h m) grp cands [] m e
              Hh Hg (fun _ => eq_refl) (chosen_fresh _ e Hb Hok))
    as (e1 & He1 & Hch1 & _).
  destruct (updateBestAll_chosen f64_leb_total f64_leb_trans satisfiedBy_frame
              h (satisfiedBy h m) grp cands' [] m e
              Hh Hg (fun _ => eq_refl) (chosen_fresh _ e Hb Hok))
    as (e2 & He2 & Hch2 & _).
  simpl in Hch1, Hch2. exists e1, e2.
  split; [exact He1|]. split; [exact He2|].
  destruct cands as [|nc cands].
  - apply Permutation_nil in Hp. subst cands'.
    simpl in He1, He2. rewrite Hg in He1, He2.
    injection He1 as <-. injection He2 as <-.
    split; [done|]. by destruct (f64_leb_total (Cost e) (Cost e)).
  - assert (Hne : nc :: cands <> []) by done.
    assert (Hne' : cands' <> []).
    { intros ->. by apply Permutation_nil_r in Hp. }
    destruct (chosen_cost_le _ _ _ e1 e2 Hne Hp Hch1 Hch2) as [Hhint Hle].
    destruct (chosen_cost_le _ _ _ e2 e1 Hne' (Permutation_sym Hp) Hch2 Hch1)
      as [_ Hle'].
    done.
Qed.

End ChoiceOrder.

(** *** Optimizing a group of joins *)

(** One step of [optimizeMemoGroup], with its loops by name. *)
Lemma optimizeMemoGroup_unfold fuel grp st :
  optimizeMemoGroup (S fuel) grp st
  = match groups (fst st) !! grp with
    | None => Panicked
    | Some e =>
        if Done e then Returned None st
        else
          match First e with
          | None => costLoopWith (optimizeMemoGroup fuel) grp fuel None st
          | Some a =>
              match exprs (fst st) !! a with
              | None => Panicked
              | Some r =>
                  if isSourceRel (body r)
                  then optimizeSource fuel grp st
                  else costLoopWith (optimizeMemoGroup fuel) grp fuel (Some a) st
              end
          end
    end.
Proof. reflexivity. Qed.

Lemma advanced_refl (m : Memo) : advanced m m.
Proof. split; [done|]. split; eauto 10. Qed.

Lemma advanced_trans (m1 m2 m3 : Memo) :
  advanced m1 m2 -> advanced m2 m3 -> advanced m1 m3.
Proof.
  intros (Hr & He & Hg) (Hr' & He' & Hg'). split; [congruence|]. split.
  - intros a r Ha. destruct (He a r Ha) as (r' & Ha' & Hb & Hn).
    destruct (He' a r' Ha') as (r'' & Ha'' & Hb' & Hn').
    exists r''. split; [done|]. split; congruence.
  - intros g e Hge. destruct (Hg g e Hge) as (e' & Hge' & Hf & Hd & Hb).
    destruct (Hg' g e' Hge') as (e'' & Hge'' & Hf' & Hd' & Hb').
    exists e''. split; [done|]. split; [congruence|]. split; auto.
Qed.

Lemma operandsDone_advanced (m m' : Memo) n :
  advanced m m' -> operandsDone m n -> operandsDone m' n.
Proof.
  intros (_ & He & Hg) (r & Hr & Hc).
  destruct (He n r Hr) as (r' & Hr' & Hb & _).
  exists r'. split; [done|]. rewrite Hb. intros c Hin.
  destruct (Hc c Hin) as (c' & ec & -> & Hec & Hd).
  destruct (Hg c' ec Hec) as (ec' & Hec' & _ & Hd' & _).
  exists c', ec'. auto.
Qed.

(** A step that keeps the memo [advanced] keeps the plans fixed when
    every best expression it sets has operands that are done. *)
Lemma plansFixed_step (m m' : Memo) :
  plansFixed m -> advanced m m' ->
  (forall g e', groups m' !! g = Some e' ->
     exists e, groups m !! g = Some e /\
       (Done e' = true -> Best e' <> None) /\
       (forall n, Best e' = Some n -> Best e = Some n \/ operandsDone m' n)) ->
  plansFixed m'.
Proof.
  intros Hfix Hadv Hnew g e' He'.
  destruct (Hnew g e' He') as (e & He & Hd & Hb).
  destruct (Hfix g e He) as (Hf & _ & Hops).
  destruct Hadv as (Hr & Hex & Hgr).
  destruct (Hgr g e He) as (e'' & He'' & Hf'' & _).
  assert (e'' = e') as -> by congruence.
  split; [congruence|]. split; [exact Hd|].
  intros n Hn. destruct (Hb n Hn) as [Hold|Hok]; [|exact Hok].
  eapply operandsDone_advanced; [|by apply Hops]. by split.
Qed.

Lemma lookup_updGroup_Some g f (m : Memo) g' e' :
  groups (updGroup g f m) !! g' = Some e' ->
  exists e, groups m !! g' = Some e /\
            ((g' = g /\ e' = f e) \/ (g' <> g /\ e' = e)).
Proof.
  intros H. destruct (decide (g' = g)) as [->|Hne].
  - rewrite lookup_updGroup_eq in H.
    destruct (groups m !! g) as [e|]; [|discriminate].
    injection H as <-. eauto.
  - rewrite lookup_updGroup_ne in H by done. eauto.
Qed.

Lemma advanced_updRel a f (m : Memo) :
  (forall r, body (f r) = body r /\ Next (f r) = Next r) ->
  advanced m (updRel a f m).
Proof.
  intros Hf. split; [done|]. split.
  - intros a' r Ha. destruct (decide (a' = a)) as [->|Hne].
    + exists (f r). rewrite lookup_updRel_eq, Ha. split; [done|apply Hf].
    + exists r. by rewrite lookup_updRel_ne.
  - intros g e Hg. exists e. by rewrite groups_updRel.
Qed.

Lemma plansFixed_updRel a f (m : Memo) :
  (forall r, body (f r) = body r /\ Next (f r) = Next r) ->
  plansFixed m -> plansFixed (updRel a f m).
Proof.
  intros Hf Hfix. apply (plansFixed_step m); [done|by apply advanced_updRel|].
  intros g e' He'. rewrite groups_updRel in He'. exists e'.
  split; [done|]. destruct (Hfix g e' He') as (_ & Hd & _). auto.
Qed.

Lemma advanced_updGroup g f (m : Memo) :
  (forall e, First (f e) = First e /\ (Done e = true -> Done (f e) = true) /\
             (Best e <> None -> Best (f e) <> None)) ->
  advanced m (updGroup g f m).
Proof.
  intros Hf. split; [done|]. split.
  - intros a r Ha. exists r. by rewrite exprs_updGroup.
  - intros g' e Hg. destruct (decide (g' = g)) as [->|Hne].
    + exists (f e). rewrite lookup_updGroup_eq, Hg. split; [done|apply Hf].
    + exists e. by rewrite lookup_updGroup_ne.
Qed.

(** [updateBest] is a write to the group that keeps its list and its
    done flag and sets its best to the candidate or leaves it. *)
Lemma updateBest_as_updGroup (m : Memo) grp n c :
  exists f,
    updateBest m grp n c = updGroup grp f m /\
    forall e, First (f e) = First e /\ Done (f e) = Done e /\
              Best (f e) <> None /\
              (Best (f e) = Best e \/ Best (f e) = Some n).
Proof.
  unfold updateBest.
  destruct (hints m) as [h|]; [destruct (satisfiedBy h m n)|];
    eexists; (split; [reflexivity|]); intros e; simpl.
  - destruct (HintOk e); simpl; [|eff].
    unfold ExprGroup_updateBest.
    destruct (Best e) eqn:Hb; [destruct (f64_leb c (Cost e))|];
      simpl; rewrite ?Hb; eff.
  - destruct (Best e) eqn:Hb; simpl.
    + destruct (HintOk e); simpl; [rewrite Hb; eff|].
      unfold ExprGroup_updateBest. rewrite Hb.
      destruct (f64_leb c (Cost e)); simpl; rewrite ?Hb; eff.
    + unfold ExprGroup_updateBest. rewrite Hb. simpl. eff.
  - unfold ExprGroup_updateBest.
    destruct (Best e) eqn:Hb; [destruct (f64_leb c (Cost e))|];
      simpl; rewrite ?Hb; eff.
Qed.

Lemma advanced_updateBest (m : Memo) grp n c :
  advanced m (updateBest m grp n c).
Proof.
  destruct (updateBest_as_updGroup m grp n c) as (f & -> & Hf).
  apply advanced_updGroup. intros e.
  destruct (Hf e) as (H1 & H2 & H3 & _). split; [done|]. split; [congruence|done].
Qed.

Lemma plansFixed_updateBest (m : Memo) grp n c :
  plansFixed m -> operandsDone m n -> plansFixed (updateBest m grp n c).
Proof.
  intros Hfix Hops.
  apply (plansFixed_step m); [done|apply advanced_updateBest|].
  pose proof (advanced_updateBest m grp n c) as Hadv.
  destruct (updateBest_as_updGroup m grp n c) as (f & Hup & Hf).
  rewrite Hup in *.
  intros g e' He'.
  destruct (lookup_updGroup_Some _ _ _ _ _ He') as (e & He & [[-> ->]|[Hne ->]]);
    exists e; (split; [done|]).
  - destruct (Hf e) as (_ & _ & Hb & Hcase). split; [done|].
    intros n' Hn'. destruct Hcase as [Hsame|Hset].
    + left. congruence.
    + right. assert (n' = n) as -> by congruence.
      by eapply operandsDone_advanced.
  - destruct (Hfix g e He) as (_ & Hd & _). auto.
Qed.

Lemma plansFixed_setDone (m : Memo) g :
  plansFixed m ->
  (forall e, groups m !! g = Some e -> Best e <> None) ->
  plansFixed (updGroup g (setDone true) m).
Proof.
  intros Hfix Hbest.
  apply (plansFixed_step m); [done|by apply advanced_updGroup|].
  intros g' e' He'.
  destruct (lookup_updGroup_Some _ _ _ _ _ He') as (e & He & [[-> ->]|[Hne ->]]);
    exists e; (split; [done|]).
  - split; [intros _; exact (Hbest e He)|]. auto.
  - destruct (Hfix g' e He) as (_ & Hd & _). auto.
Qed.

Lemma Children_source (b : @relBody JoinType Expression SqlIndex IndexedTableAccess) :
  isSourceRel b = true -> Children b = [].
Proof. by destruct b. Qed.

Lemma isIndexScan_source (b : @relBody JoinType Expression SqlIndex IndexedTableAccess) :
  isIndexScan b = true -> isSourceRel b = true.
Proof. by destruct b. Qed.

Lemma firstIndexScan_found fuel (m : Memo) :
  forall n err i,
    firstIndexScan fuel m n = Returned err (Some i) ->
    exists r, exprs m !! i = Some r /\ isIndexScan (body r) = true.
Proof.
  induction fuel as [|fuel IH]; intros n err i H;
    destruct n as [a|]; simpl in H; try discriminate;
    destruct (exprs m !! a) as [r|] eqn:Ha; try discriminate;
    destruct (isIndexScan (body r)) eqn:Hi; try discriminate.
  - injection H as _ <-. eauto.
  - injection H as _ <-. eauto.
  - by eapply IH.
Qed.

(** The source branch fixes the plan of the group. *)
Lemma optimizeSource_fixes fuel grp (m : Memo) log e a r st' :
  plansFixed m ->
  groups m !! grp = Some e -> First e = Some a ->
  exprs m !! a = Some r -> isSourceRel (body r) = true ->
  optimizeSource fuel grp (m, log) = Returned None st' ->
  optimizedFrom m grp (fst st').
Proof.
  intros Hfix Hg Hf Ha Hsrc Hrun. unfold optimizeSource in Hrun.
  set (f1 := fun e : ExprGroup =>
               setBest (First e) (setHintOk true (setDone true e))) in *.
  rewrite lookup_updGroup_eq, Hg in Hrun. simpl in Hrun.
  destruct (firstIndexScan fuel (updGroup grp f1 m) (First e))
    as [err found| |] eqn:Hscan; try discriminate.
  assert (Hb : exists b rb,
             match found with Some i => Some i | None => First e end = Some b /\
             exprs m !! b = Some rb /\ isSourceRel (body rb) = true).
  { destruct found as [i|].
    - destruct (firstIndexScan_found _ _ _ _ _ Hscan) as (ri & Hi & His).
      exists i, ri. rewrite exprs_updGroup in Hi.
      split; [done|]. split; [done|by apply isIndexScan_source].
    - exists a, r. by rewrite Hf. }
  destruct Hb as (b & rb & Hbest & Hrb & Hsb). rewrite Hbest in Hrun.
  injection Hrun as <-. simpl fst.
  set (m' := updRel b (SetDistinct noDistinctOp)
               (updGroup grp (setBest (Some b)) (updGroup grp f1 m))).
  assert (Hadv : advanced m m').
  { eapply advanced_trans; [|by apply advanced_updRel].
    rewrite updGroup_twice. apply advanced_updGroup. intros e0. by simpl. }
  assert (Hg' : groups m' !! grp = Some (setBest (Some b) (f1 e))).
  { subst m'. rewrite groups_updRel, updGroup_twice, lookup_updGroup_eq, Hg.
    reflexivity. }
  split; [exact Hadv|]. split; [|eauto].
  apply (plansFixed_step m); [done..|].
  intros g e' He'. subst m'. rewrite groups_updRel, updGroup_twice in He'.
  destruct (lookup_updGroup_Some _ _ _ _ _ He') as (e0 & He0 & [[-> ->]|[Hne ->]]);
    exists e0; (split; [done|]).
  - split; [done|]. intros n [= <-]. right.
    exists (SetDistinct noDistinctOp rb).
    rewrite lookup_updRel_eq, !exprs_updGroup, Hrb. split; [done|].
    simpl. rewrite (Children_source _ Hsb). intros c [].
  - destruct (Hfix g e0 He0) as (_ & Hd & _). auto.
Qed.

(** Costing an alternative whose operands are done keeps the plans
    fixed and leaves the group with a best expression. *)
Lemma costAlternative_fixes grp a cost (m : Memo) log st' :
  plansFixed m -> operandsDone m a ->
  costAlternative grp a cost (m, log) = Returned None st' ->
  advanced m (fst st') /\ plansFixed (fst st') /\
  exists e', groups (fst st') !! grp = Some e' /\ Best e' <> None.
Proof.
  intros Hfix Hops Hrun. unfold costAlternative in Hrun.
  destruct (EstimateCost m a) as [relCost|err]; [|discriminate].
  destruct (groups m !! grp) as [e|] eqn:Hg; [|discriminate].
  assert (Hgen : forall d c0 c1 (m1 : Memo),
            m1 = updRel a (SetDistinct d) m ->
            Returned None
              (updateBest (updRel a (SetCost c0) m1) grp a c1, log ++ [a])
            = Returned (E := error) None st' ->
            advanced m (fst st') /\ plansFixed (fst st') /\
            exists e', groups (fst st') !! grp = Some e' /\ Best e' <> None).
  { intros d c0 c1 m1 -> [= <-]. simpl fst.
    set (m2 := updRel a (SetCost c0) (updRel a (SetDistinct d) m)).
    assert (Hadv2 : advanced m m2).
    { eapply advanced_trans; by apply advanced_updRel. }
    assert (Hfix2 : plansFixed m2).
    { apply (plansFixed_updRel a (SetCost c0)); [done|].
      by apply (plansFixed_updRel a (SetDistinct d)). }
    split; [eapply advanced_trans; [exact Hadv2|apply advanced_updateBest]|].
    split.
    - apply plansFixed_updateBest; [done|]. by eapply operandsDone_advanced.
    - destruct (updateBest_effect m2 grp a c1 e Hg)
        as (e' & He' & _ & _ & _ & _ & _ & Hb & _). eauto. }
  destruct (IsHash (RelPropsDistinct e));
    [destruct (sortedInputs m a)|]; by eapply Hgen.
Qed.

Section Optimization.

(** [ExprGroup.fixConflicts] is not among the sources.  It is taken to
    keep the variants and next links of the expressions, the first
    expressions of the groups, the done flags and the best expressions
    that are set, and the root; and to leave the plans fixed when they
    were. *)
Hypothesis fixConflicts_advanced :
  forall g (m : Memo), advanced m (fixConflicts g m).
Hypothesis fixConflicts_plansFixed :
  forall g (m : Memo), plansFixed m -> plansFixed (fixConflicts g m).

Section Loop.

Variable rec : nat -> OptState -> outcome error OptState.
Hypothesis rec_fixes :
  forall g (st st' : OptState),
    plansFixed (fst st) -> rec g st = Returned None st' ->
    optimizedFrom (fst st) g (fst st').

Lemma optimizeChildrenWith_fixes gs :
  forall cost (st st' : OptState) cost',
    plansFixed (fst st) ->
    optimizeChildrenWith rec gs cost st = Returned None (st', cost') ->
    advanced (fst st) (fst st') /\ plansFixed (fst st') /\
    forall c, In c gs ->
      exists c' ec, c = Some c' /\ groups (fst st') !! c' = Some ec /\
                    Done ec = true.
Proof.
  induction gs as [|[g|] gs IH]; intros cost st st' cost' Hfix Hrun;
    simpl in Hrun; [|..|discriminate].
  - injection Hrun as <- _. split; [apply advanced_refl|]. split; [done|].
    intros c [].
  - destruct (rec g st) as [[err|] st1| |] eqn:Hg; try discriminate.
    destruct (rec_fixes g st st1 Hfix Hg) as (Hadv1 & Hfix1 & e1 & He1 & Hd1).
    rewrite He1 in Hrun.
    destruct (IH _ _ _ _ Hfix1 Hrun) as (Hadv & Hfix' & Hdone).
    split; [by eapply advanced_trans|]. split; [done|].
    intros c [<-|Hin]; [|by apply Hdone].
    destruct Hadv as (_ & _ & Hgr).
    destruct (Hgr g e1 He1) as (e' & He' & _ & Hd' & _).
    exists g, e'. auto.
Qed.

Lemma costLoopWith_fixes grp k :
  forall n (st st' : OptState),
    plansFixed (fst st) ->
    (n = None ->
     exists e, groups (fst st) !! grp = Some e /\ Best e <> None) ->
    costLoopWith rec grp k n st = Returned None st' ->
    optimizedFrom (fst st) grp (fst st').
Proof.
  assert (Hend : forall (st st' : OptState),
             plansFixed (fst st) ->
             (exists e, groups (fst st) !! grp = Some e /\ Best e <> None) ->
             Returned None
               (updGroup grp (setDone true) (fixConflicts grp (fst st)), snd st)
             = Returned (E := error) None st' ->
             optimizedFrom (fst st) grp (fst st')).
  { intros st st' Hfix (e & He & Hb) [= <-]. simpl fst.
    pose proof (fixConflicts_advanced grp (fst st)) as Hadv.
    destruct Hadv as (Hr & Hex & Hgr).
    destruct (Hgr grp e He) as (e' & He' & _ & _ & Hb').
    split; [|split].
    - eapply advanced_trans; [by split|]. by apply advanced_updGroup.
    - apply plansFixed_setDone; [by apply fixConflicts_plansFixed|].
      intros e0 He0. assert (e0 = e') as -> by congruence. auto.
    - exists (setDone true e'). by rewrite lookup_updGroup_eq, He'. }
  induction k as [|k IH]; intros n st st' Hfix Hbest Hrun;
    destruct n as [a|]; simpl in Hrun; try discriminate;
    try (by eapply Hend; eauto).
  destruct (exprs (fst st) !! a) as [r|] eqn:Ha; [|discriminate].
  destruct (optimizeChildrenWith rec (Children (body r)) f64_zero st)
    as [[err|] [st1 cost]| |] eqn:Hch; try discriminate.
  destruct (optimizeChildrenWith_fixes _ _ _ _ _ Hfix Hch)
    as (Hadv1 & Hfix1 & Hdone).
  destruct (costAlternative grp a cost st1) as [[err|] st2| |] eqn:Hcost;
    try discriminate.
  destruct (exprs (fst st2) !! a) as [r'|] eqn:Ha'; [|discriminate].
  destruct st1 as [m1 log1].
  destruct (costAlternative_fixes grp a cost m1 log1 st2 Hfix1)
    as (Hadv2 & Hfix2 & Hb2); [|exact Hcost|].
  { destruct Hadv1 as (_ & Hex & _).
    destruct (Hex a r Ha) as (r1 & Hr1 & Hb1 & _).
    exists r1. split; [exact Hr1|]. rewrite Hb1. exact Hdone. }
  destruct (IH _ _ _ Hfix2 (fun _ => Hb2) Hrun) as (Hadv3 & Hfix3 & Hd3).
  split; [|by split].
  eapply advanced_trans; [exact Hadv1|].
  eapply advanced_trans; [exact Hadv2|exact Hadv3].
Qed.

End Loop.

(** A run of [optimizeMemoGroup] that returns no error leaves the group
    done and the plans fixed. *)
Lemma optimizeMemoGroup_fixes fuel :
  forall grp (st st' : OptState),
    plansFixed (fst st) ->
    optimizeMemoGroup fuel grp st = Returned None st' ->
    optimizedFrom (fst st) grp (fst st').
Proof.
  induction fuel as [|fuel IH]; intros grp st st' Hfix Hrun; [discriminate|].
  rewrite optimizeMemoGroup_unfold in Hrun.
  destruct (groups (fst st) !! grp) as [e|] eqn:Hg; [|discriminate].
  destruct (Done e) eqn:Hd.
  { injection Hrun as <-. split; [apply advanced_refl|]. split; eauto. }
  destruct (Hfix grp e Hg) as (Hfirst & _).
  destruct (First e) as [a|] eqn:Hf; [|done].
  destruct (exprs (fst st) !! a) as [r|] eqn:Ha; [|discriminate].
  destruct (isSourceRel (body r)) eqn:Hsrc.
  - destruct st as [m log]. by eapply optimizeSource_fixes.
  - eapply (costLoopWith_fixes (optimizeMemoGroup fuel) IH); [done| |exact Hrun].
    discriminate.
Qed.

(** With the plans fixed, every group within reach of a done group
    through best expressions is done. *)
Lemma reach_done (m : Memo) g g' :
  plansFixed m -> reach m g g' ->
  forall e, groups m !! g = Some e -> Done e = true ->
  exists e', groups m !! g' = Some e' /\ Done e' = true.
Proof.
  intros Hfix Hreach. induction Hreach as [g|g e0 n r c g' Hg Hb Hr Hin _ IH];
    intros e He Hd; [eauto|].
  destruct (Hfix g e0 Hg) as (_ & _ & Hops).
  destruct (Hops n Hb) as (r0 & Hr0 & Hc).
  assert (r0 = r) as -> by congruence.
  destruct (Hc (Some c) Hin) as (c' & ec & [= <-] & Hec & Hdc).
  by eapply IH.
Qed.

Lemma buildChildren_no_panic rec (gs : list pExprGroup) :
  (forall g, In g gs -> rec g <> Panicked) ->
  @buildChildren error Node rec gs <> Panicked.
Proof.
  induction gs as [|g gs IH]; intros Hrec; simpl; [done|].
  pose proof (Hrec g (or_introl eq_refl)) as Hg.
  destruct (rec g) as [[err|] node| |]; try done.
  assert (Hgs : buildChildren rec gs <> Panicked).
  { apply IH. intros g' Hin. apply Hrec. by right. }
  by destruct (buildChildren rec gs) as [[err|] nodes| |].
Qed.

Lemma buildBestJoinPlan_no_panic d (m : Memo) input :
  plansFixed m ->
  forall g e, groups m !! g = Some e -> Done e = true ->
              buildBestJoinPlan d m (Some g) input <> Panicked.
Proof.
  intros Hfix. induction d as [|d IH]; intros g e Hg Hd; simpl; [done|].
  rewrite Hg, Hd. simpl.
  destruct (Hfix g e Hg) as (_ & Hbest & Hops).
  destruct (Best e) as [n|] eqn:Hb; [|by destruct (Hbest Hd)].
  destruct (Hops n eq_refl) as (r & Hr & Hc). rewrite Hr.
  assert (Hch : buildChildren (fun g' => buildBestJoinPlan d m g' input)
                  (Children (body r)) <> Panicked).
  { apply buildChildren_no_panic. intros c Hin.
    destruct (Hc c Hin) as (c' & ec & -> & Hec & Hdc). by eapply IH. }
  destruct (buildChildren _ (Children (body r))) as [[err|] nodes| |];
    try done.
  by destruct (buildRel m n nodes).
Qed.

Lemma unoptimized_plansFixed (m : Memo) : unoptimized m -> plansFixed m.
Proof.
  intros Hu g e Hg. destruct (Hu g e Hg) as (Hf & Hb & Hd & _).
  split; [done|]. split; [congruence|]. intros n Hn. congruence.
Qed.

(** Optimization fixes the plan of a group.  Let the plans of the memo
    be fixed, as they are when no group has a best expression yet.  If
    [optimizeMemoGroup] returns no error, then the group is done, the
    plans are fixed again (every done group has a best expression
    whose operand groups are done), the expressions have kept their
    variants and next links and the groups their first expressions, no
    group that was done has ceased to be, and a second call on the
    group returns at once and changes nothing. *)
Theorem optimizeMemoGroup_fixes_group fuel (m m' : Memo) log log' grp :
  plansFixed m ->
  optimizeMemoGroup fuel grp (m, log) = Returned None (m', log') ->
  advanced m m' /\ plansFixed m' /\
  (exists e', groups m' !! grp = Some e' /\ Done e' = true) /\
  forall fuel',
    optimizeMemoGroup (S fuel') grp (m', log') = Returned None (m', log').
Proof.
  intros Hfix Hrun.
  destruct (optimizeMemoGroup_fixes fuel grp (m, log) (m', log') Hfix Hrun)
    as (Hadv & Hfix' & e' & He' & Hd').
  do 3 (split; [eauto|]).
  intros fuel'. rewrite optimizeMemoGroup_unfold. simpl in *.
  by rewrite He', Hd'.
Qed.

(** Optimizing the root makes the memo ready for reification.  Let no
    group of the memo have a plan yet, as in a memo built through the
    constructors.  If [OptimizeRoot] returns no error, then the root and
    every group within its reach through best expressions are done, so
    that [BestRootPlan], given any fuel, is the depth-first build of the
    best expressions: the test of the done flag never fires and nothing
    is read through [nil]. *)
Theorem OptimizeRoot_then_BestRootPlan fuel (m m' : Memo) log log' :
  unoptimized m ->
  OptimizeRoot fuel (m, log) = Returned None (m', log') ->
  exists g e,
    root m' = Some g /\ root m = Some g /\
    groups m' !! g = Some e /\ Done e = true /\
    (forall g' e', reach m' g g' -> groups m' !! g' = Some e' ->
                   Done e' = true) /\
    forall fuel',
      BestRootPlan fuel' m' = depthFirstPlan fuel' m' (Some g) None /\
      BestRootPlan fuel' m' <> Panicked.
Proof.
  intros Hu Hrun. unfold OptimizeRoot in Hrun. simpl in Hrun.
  destruct (root m) as [g|] eqn:Hroot; [|discriminate].
  destruct (optimizeMemoGroup_fixes fuel g (m, log) (m', log')
              (unoptimized_plansFixed m Hu) Hrun)
    as (Hadv & Hfix' & e & He & Hd).
  assert (Hroot' : root m' = Some g).
  { destruct Hadv as (Hr & _). simpl in Hr. congruence. }
  simpl in He, Hfix'.
  assert (Hall : forall g' e', reach m' g g' -> groups m' !! g' = Some e' ->
                               Done e' = true).
  { intros g' e' Hreach Hg'.
    destruct (reach_done m' g g' Hfix' Hreach e He Hd) as (e'' & He'' & Hd'').
    congruence. }
  exists g, e. do 4 (split; [done|]). split; [exact Hall|].
  intros fuel'. unfold BestRootPlan. rewrite Hroot'. split.
  - apply buildBestJoinPlan_all_done. intros g0 g' e' [= <-]. apply Hall.
  - by eapply buildBestJoinPlan_no_panic.
Qed.

End Optimization.

(** *** Costing the alternatives of a group *)

Lemma optimizeChildrenWith_cons rec g gs cost (st : OptState) :
  optimizeChildrenWith rec (Some g :: gs) cost st
  = match rec g st with
    | Returned (Some err) st' => Returned (Some err) (st', cost)
    | Returned None st' =>
        match groups (fst st') !! g with
        | Some ge => optimizeChildrenWith rec gs (f64_add cost (Cost ge)) st'
        | None => Panicked
        end
    | Panicked => Panicked
    | OutOfFuel => OutOfFuel
    end.
Proof. reflexivity. Qed.

Lemma costLoopWith_end rec grp k (st : OptState) :
  costLoopWith rec grp k None st
  = Returned None
      (updGroup grp (setDone true) (fixConflicts grp (fst st)), snd st).
Proof. by destruct k. Qed.

Lemma costLoopWith_step rec grp k a (st : OptState) :
  costLoopWith rec grp (S k) (Some a) st
  = match exprs (fst st) !! a with
    | None => Panicked
    | Some r =>
        match optimizeChildrenWith rec (Children (body r)) f64_zero st with
        | Returned (Some err) (st', _) => Returned (Some err) st'
        | Returned None (st', cost) =>
            match costAlternative grp a cost st' with
            | Returned None st'' =>
                match exprs (fst st'') !! a with
                | Some r' => costLoopWith rec grp k (Next r') st''
                | None => Panicked
                end
            | o => o
            end
        | Panicked => Panicked
        | OutOfFuel => OutOfFuel
        end
    end.
Proof. reflexivity. Qed.

(** The operands [gs] are the groups with the records [ecs], all done. *)
Lemma optimizeChildrenWith_done fuel gs :
  forall ecs cost (st : OptState),
    Forall2 (fun c ec => exists c', c = Some c' /\
                           groups (fst st) !! c' = Some ec /\ Done ec = true)
      gs ecs ->
    optimizeChildrenWith (optimizeMemoGroup (S fuel)) gs cost st
    = Returned None
        (st, fold_left (fun acc ec => f64_add acc (Cost ec)) ecs cost).
Proof.
  induction gs as [|c gs IH]; intros ecs cost st Hall;
    inversion Hall as [|? ec ? ecs' (c' & -> & Hc & Hd) Hrest]; subst;
    [reflexivity|].
  rewrite optimizeChildrenWith_cons, optimizeMemoGroup_unfold, Hc, Hd, Hc.
  simpl fold_left. by apply IH.
Qed.

Lemma done_operands (m : Memo) gs :
  (forall c, In c gs ->
     exists c' ec, c = Some c' /\ groups m !! c' = Some ec /\ Done ec = true) ->
  exists ecs,
    Forall2 (fun c ec => exists c', c = Some c' /\
                           groups m !! c' = Some ec /\ Done ec = true)
      gs ecs.
Proof.
  induction gs as [|c gs IH]; intros Hall; [by exists []|].
  destruct (Hall c (or_introl eq_refl)) as (c' & ec & -> & Hc & Hd).
  destruct IH as (ecs & Hecs); [intros; apply Hall; by right|].
  exists (ec :: ecs). constructor; eauto.
Qed.

(** A failure of the coster is returned as it is.  Let a group that is
    not done have as its first expression a node that is not a source
    and whose operand groups are done.  If the coster fails on that
    node, [optimizeMemoGroup] returns the error of the coster; the memo
    is as it was, the group not done, and the node is the one
    expression that was handed to the coster. *)
Theorem optimizeMemoGroup_coster_error fuel (m : Memo) log grp e a r err :
  groups m !! grp = Some e -> Done e = false ->
  First e = Some a -> exprs m !! a = Some r ->
  isSourceRel (body r) = false ->
  (forall c, In c (Children (body r)) ->
     exists c' ec, c = Some c' /\ groups m !! c' = Some ec /\ Done ec = true) ->
  EstimateCost m a = inr err ->
  optimizeMemoGroup (S (S fuel)) grp (m, log)
  = Returned (Some err) (m, log ++ [a]).
Proof.
  intros Hg Hd Hf Ha Hsrc Hops Hcost.
  destruct (done_operands m _ Hops) as (ecs & Hecs).
  rewrite optimizeMemoGroup_unfold. simpl fst. rewrite Hg, Hd, Hf, Ha, Hsrc.
  rewrite costLoopWith_step. simpl fst. rewrite Ha.
  rewrite (optimizeChildrenWith_done fuel _ ecs) by exact Hecs.
  unfold costAlternative. by rewrite Hcost.
Qed.

(** The cost of a group is the cost of its operands and of its plan.
    Let a group that is not done and has no best yet have a single
    alternative, a node that is not a source and whose operand groups
    are done, and let the coster return [rc] for it.  Then
    [optimizeMemoGroup] returns no error; the node is given its
    distinct operator and its own cost ([rc], plus the cost of a hash
    distinct where the group requires one over unsorted inputs), and is
    the best of the group at the sum of the costs of the operand groups
    and its own; then [fixConflicts] is applied and the group is marked
    done. *)
Theorem optimizeMemoGroup_single_alternative
    fuel (m : Memo) log grp e a r ecs rc :
  groups m !! grp = Some e -> Done e = false -> Best e = None ->
  First e = Some a -> exprs m !! a = Some r -> Next r = None ->
  isSourceRel (body r) = false ->
  Forall2 (fun c ec => exists c', c = Some c' /\
                         groups m !! c' = Some ec /\ Done ec = true)
    (Children (body r)) ecs ->
  EstimateCost m a = inl rc ->
  exists (m1 : Memo) e1 r1,
    optimizeMemoGroup (S (S fuel)) grp (m, log)
    = Returned None
        (updGroup grp (setDone true) (fixConflicts grp m1), log ++ [a]) /\
    groups m1 !! grp = Some e1 /\
    Best e1 = Some a /\
    Cost e1 = f64_add (fold_left (fun acc ec => f64_add acc (Cost ec)) ecs
                         f64_zero) (rel_c r1) /\
    exprs m1 !! a = Some r1 /\
    rel_c r1
    = (if IsHash (RelPropsDistinct e) then
         if sortedInputs m a then f64_add rc f64_zero
         else f64_add rc (distinctRowCount
                            (updRel a (SetDistinct HashDistinctOp) m) grp)
       else rc) /\
    rel_d r1
    = (if IsHash (RelPropsDistinct e) then
         if sortedInputs m a then SortedDistinctOp else HashDistinctOp
       else noDistinctOp) /\
    body r1 = body r /\
    (forall g', g' <> grp -> groups m1 !! g' = groups m !! g') /\
    (forall a', a' <> a -> exprs m1 !! a' = exprs m !! a').
Proof.
  intros Hg Hd Hb Hf Ha Hn Hsrc Hecs Hcost.
  rewrite optimizeMemoGroup_unfold. simpl fst. rewrite Hg, Hd, Hf, Ha, Hsrc.
  rewrite costLoopWith_step. simpl fst. rewrite Ha.
  rewrite (optimizeChildrenWith_done fuel _ ecs) by exact Hecs.
  unfold costAlternative. rewrite Hcost, Hg.
  set (cost := fold_left (fun acc ec => f64_add acc (Cost ec)) ecs f64_zero).
  assert (Hgen : forall d c0,
    exists (m1 : Memo) e1 r1,
      match
        exprs (updateBest (updRel a (SetCost c0) (updRel a (SetDistinct d) m))
                 grp a (f64_add cost c0)) !! a
      with
      | Some r' =>
          costLoopWith (optimizeMemoGroup (S fuel)) grp fuel (Next r')
            (updateBest (updRel a (SetCost c0) (updRel a (SetDistinct d) m))
               grp a (f64_add cost c0), log ++ [a])
      | None => Panicked
      end
      = Returned None
          (updGroup grp (setDone true) (fixConflicts grp m1), log ++ [a]) /\
      groups m1 !! grp = Some e1 /\ Best e1 = Some a /\
      Cost e1 = f64_add cost (rel_c r1) /\
      exprs m1 !! a = Some r1 /\ rel_c r1 = c0 /\ rel_d r1 = d /\
      body r1 = body r /\
      (forall g', g' <> grp -> groups m1 !! g' = groups m !! g') /\
      (forall a', a' <> a -> exprs m1 !! a' = exprs m !! a')).
  { intros d c0.
    set (m2 := updRel a (SetCost c0) (updRel a (SetDistinct d) m)).
    destruct (updateBest_effect m2 grp a (f64_add cost c0) e Hg)
      as (e1 & He1 & _ & _ & _ & _ & _ & _ & [(Hne & _)|(Hb1 & Hc1)]);
      [congruence|].
    assert (Ha2 : exprs m2 !! a = Some (SetCost c0 (SetDistinct d r))).
    { subst m2. by rewrite !lookup_updRel_eq, Ha. }
    exists (updateBest m2 grp a (f64_add cost c0)), e1,
      (SetCost c0 (SetDistinct d r)).
    rewrite exprs_updateBest, Ha2.
    change (Next (SetCost c0 (SetDistinct d r))) with (Next r). rewrite Hn.
    split; [by rewrite costLoopWith_end|].
    do 2 (split; [done|]). split; [by rewrite Hc1|].
    do 4 (split; [done|]). split.
    - intros g' Hne. by rewrite updateBest_other.
    - intros a' Hne. subst m2. by rewrite !lookup_updRel_ne. }
  destruct (IsHash (RelPropsDistinct e));
    [destruct (sortedInputs m a)|]; apply Hgen.
Qed.

(** *** The registry by itself *)

Lemma unicode_ToLower_not_upper r :
  (forall x, MaxASCII < x -> ~ (65 <= unicodeLowerCase x <= 90)) ->
  ~ (65 <= unicode_ToLower r <= 90).
Proof.
  intros Hu. unfold unicode_ToLower, MaxASCII in *.
  destruct (Z.leb_spec r 127); [|apply Hu; lia].
  destruct (Z.leb_spec 65 r), (Z.leb_spec r 90); simpl; lia.
Qed.

(** [GetId] lowers the name it is asked for and [addTable] stores the
    name it is given as it is: a name with an upper-case ASCII letter
    that is added to the registry is found under no query, and the
    lookups are as they were before.  (No rune is lowered to an
    upper-case ASCII letter.) *)
Theorem addTable_upper_case_not_found p n id q :
  (forall x, MaxASCII < x -> ~ (65 <= unicodeLowerCase x <= 90)) ->
  (exists r, In r n /\ 65 <= r <= 90) ->
  GetId (addTable p n id) q = GetId p q.
Proof.
  intros Hu (r & Hin & Hr). apply GetId_addTable_ne. intros <-.
  unfold ToLower in Hin. apply in_map_iff in Hin as (x & <- & _).
  by apply (unicode_ToLower_not_upper x Hu).
Qed.

Lemma uint16_range z : 0 <= uint16 z < 65536.
Proof. unfold uint16. apply Z.mod_pos_bound. lia. Qed.

Lemma uint16_succ_ne z : uint16 (z + 1) <> uint16 z.
Proof.
  rewrite <- uint16_succ. pose proof (uint16_range z) as Hz.
  destruct (decide (uint16 z + 1 = 65536)) as [E|E].
  - rewrite E. change (uint16 65536) with 0. lia.
  - rewrite (uint16_small (uint16 z + 1)) by lia. lia.
Qed.

(** The later of two sources of the same name takes the name.  When
    two sources whose table names are equal once lowered are memoized
    one after the other, both groups are recorded under that name, but
    [getTableId] returns the id of the second for it. *)
Theorem getTableId_latest_registration
    (m : Memo) rel1 rel2 r1 r2 k1 k2 T1 T2 q :
  exprs m !! rel1 = Some r1 -> body r1 = Source k1 T1 ->
  exprs m !! rel2 = Some r2 -> body r2 = Source k2 T2 ->
  ToLower T1 = ToLower T2 ->
  ToLower q = ToLower T1 ->
  getTableId (fst (memoizeSourceRel m rel1)) q = (uint16 (cnt m + 1), true) /\
  getTableId (fst (memoizeSourceRel (fst (memoizeSourceRel m rel1)) rel2)) q
  = (uint16 (cnt m + 2), true) /\
  GetTable (TableProps (fst (memoizeSourceRel (fst (memoizeSourceRel m rel1))
                               rel2))) (uint16 (cnt m + 1))
  = (ToLower T1, true) /\
  GetTable (TableProps (fst (memoizeSourceRel (fst (memoizeSourceRel m rel1))
                               rel2))) (uint16 (cnt m + 2))
  = (ToLower T1, true).
Proof.
  intros H1 Hb1 H2 Hb2 HT Hq. unfold memoizeSourceRel.
  destruct (NewExprGroup_fields m rel1) as (_ & Hc1 & _ & _ & _ & He1 & Ht1).
  rewrite H1, Hb1 in Ht1. simpl in Ht1.
  set (m1 := fst (NewExprGroup m rel1)) in *.
  assert (H2' : exists r2', exprs m1 !! rel2 = Some r2' /\ body r2' = Source k2 T2).
  { rewrite He1. destruct (decide (rel2 = rel1)) as [->|Hne].
    - rewrite list_lookup_alter_eq, H2. eauto.
    - rewrite list_lookup_alter_ne by done. eauto. }
  destruct H2' as (r2' & H2' & Hb2').
  destruct (NewExprGroup_fields m1 rel2) as (_ & _ & _ & _ & _ & _ & Ht2).
  rewrite H2', Hb2' in Ht2. simpl in Ht2.
  rewrite Hc1, uint16_succ in Ht2.
  replace (cnt m + 1 + 1) with (cnt m + 2) in Ht2 by lia.
  unfold getTableId. rewrite Ht2, Ht1. unfold GetId, GetTable. simpl.
  rewrite Hq, <- HT. unfold gostring, rune in *.
  rewrite !lookup_insert_eq. rewrite lookup_insert_ne.
  - by rewrite lookup_insert_eq.
  - replace (cnt m + 2) with (cnt m + 1 + 1) by lia. apply uint16_succ_ne.
Qed.

(** *** Lookup joins and index scans *)

(** [MemoizeLookupJoin] marks the join it prepends to a group as
    injective exactly when [isInjectiveLookup] holds of it; the join it
    hands to [NewExprGroup], when it is given no group, is never
    marked: the constructor has returned before [isInjectiveLookup] is
    consulted. *)
Theorem MemoizeLookupJoin_marking
    (m : Memo) g e left right op filter lookup :
  groups m !! g = Some e ->
  (exists r,
      exprs (fst (MemoizeLookupJoin m (Some g) left right op filter lookup))
        !! length (exprs m) = Some r /\
      Injective r
      = isInjectiveLookup
          (Prepend (updRel (length (exprs m)) (SetGroup (Some g))
                      (fst (allocRel
                              (newRel (LookupJoin
                                         {| Op := AsLookup op;
                                            JoinFilter := filter;
                                            Left := left; Right := right |}
                                         lookup false)) m)))
             g (length (exprs m)))
          (ScanIndex lookup) (length (exprs m))
          (Expressions (Table lookup)) (NullMask (Table lookup))) /\
  (exists e' r',
      groups (fst (MemoizeLookupJoin m None left right op filter lookup))
        !! snd (MemoizeLookupJoin m None left right op filter lookup)
      = Some e' /\
      First e' = Some (length (exprs m)) /\
      exprs (fst (MemoizeLookupJoin m None left right op filter lookup))
        !! length (exprs m) = Some r' /\
      Injective r' = false).
Proof.
  intros Hg. split.
  - destruct (MemoizeLookupJoin_prepended_injective m g e left right op
                filter lookup Hg) as (r & Hr & Hb).
    exists r. split; [exact Hr|]. unfold Injective. by rewrite Hb.
  - destruct (MemoizeLookupJoin_created_not_injective m left right op
                filter lookup) as (e' & r' & He' & Hf & Hr' & _ & Hi).
    eauto 10.
Qed.

Lemma firstIndexScan_head fuel (m : Memo) a r :
  exprs m !! a = Some r -> isIndexScan (body r) = true ->
  firstIndexScan fuel m (Some a) = Returned None (Some a).
Proof. intros Ha Hi. destruct fuel; simpl; by rewrite Ha, Hi. Qed.

(** The index scan memoized last is the plan of the group.  After
    [MemoizeIndexScan] into a group that is not done, [optimizeMemoGroup]
    returns no error and costs nothing; the group is done and hint-ok,
    its best expression is the new index scan, which is given the
    distinct operator [noDistinctOp]. *)
Theorem MemoizeIndexScan_then_optimized
    fuel (m : Memo) g e ita alias index log :
  groups m !! g = Some e -> Done e = false ->
  exists rel (m' : Memo) e' r,
    exprs m !! rel = None /\
    optimizeMemoGroup (S fuel) g
      (fst (MemoizeIndexScan m (Some g) ita alias index), log)
    = Returned None (m', log) /\
    groups m' !! g = Some e' /\
    Best e' = Some rel /\ Done e' = true /\ HintOk e' = true /\
    exprs m' !! rel = Some r /\
    body r = IndexScanRel {| Table := ita; Alias := alias;
                             ScanIndex := index |} /\
    rel_d r = noDistinctOp.
Proof.
  intros Hg Hd.
  change (MemoizeIndexScan m (Some g) ita alias index)
    with (MemoizeNode (CallIndexScan ita alias index) m (Some g)).
  rewrite MemoizeNode_shape. simpl fst.
  destruct (prepend_node m g e (nodeOf (CallIndexScan ita alias index)) Hg)
    as (rel & r & e1 & Hfresh & Hr & Hb & _ & _ & Hg1 & Hf1 & _ & _ & _ & _ &
        Hd1 & _).
  set (m1 := Prepend _ g _) in *.
  set (f1 := fun e : @ExprGroup float64 =>
               setBest (First e) (setHintOk true (setDone true e))).
  exists rel,
    (updRel rel (SetDistinct noDistinctOp)
       (updGroup g (setBest (Some rel)) (updGroup g f1 m1))),
    (setBest (Some rel) (f1 e1)), (SetDistinct noDistinctOp r).
  split; [exact Hfresh|]. split.
  - rewrite optimizeMemoGroup_unfold. simpl fst.
    rewrite Hg1, Hd1, Hd, Hf1, Hr, Hb. simpl isSourceRel. cbv iota.
    unfold optimizeSource. fold f1.
    rewrite lookup_updGroup_eq, Hg1. simpl.
    rewrite Hf1.
    rewrite (firstIndexScan_head fuel _ rel r);
      [reflexivity|by rewrite exprs_updGroup|by rewrite Hb].
  - split.
    { by rewrite groups_updRel, updGroup_twice, lookup_updGroup_eq, Hg1. }
    do 3 (split; [reflexivity|]).
    split; [by rewrite lookup_updRel_eq, !exprs_updGroup, Hr|].
    split; [exact Hb|reflexivity].
Qed.


(** ** The choice of the best alternative in a run of the optimizer *)

(** *** Memos of the same shape *)

Lemma sameShape_refl (m : Memo) : sameShape m m.
Proof. by repeat split. Qed.

Lemma sameShape_sym (m m' : Memo) : sameShape m m' -> sameShape m' m.
Proof. intros (Hh & Hb & Hn & Hf). by repeat split. Qed.

Lemma sameShape_trans (m1 m2 m3 : Memo) :
  sameShape m1 m2 -> sameShape m2 m3 -> sameShape m1 m3.
Proof.
  intros (Hh & Hb & Hn & Hf) (Hh' & Hb' & Hn' & Hf').
  split; [congruence|].
  split; [intros a; by rewrite Hb'|].
  split; [intros a; by rewrite Hn'|].
  intros g; by rewrite Hf'.
Qed.

Lemma sameShape_updRel a f (m : Memo) :
  (forall r, body (f r) = body r /\ Next (f r) = Next r) ->
  sameShape m (updRel a f m).
Proof.
  intros Hf. split; [reflexivity|].
  assert (Hx : forall x,
             exprs (updRel a f m) !! x = exprs m !! x \/
             exists r, exprs m !! x = Some r /\
                       exprs (updRel a f m) !! x = Some (f r)).
  { intros x. destruct (decide (x = a)) as [->|Hne].
    - rewrite lookup_updRel_eq. destruct (exprs m !! a) as [r|]; eauto.
    - left. by apply lookup_updRel_ne. }
  split; [|split].
  - intros x. destruct (Hx x) as [->|(r & -> & ->)]; [done|].
    simpl. f_equal. apply Hf.
  - intros x. destruct (Hx x) as [->|(r & -> & ->)]; [done|].
    simpl. f_equal. apply Hf.
  - intros g. by rewrite groups_updRel.
Qed.

Lemma sameShape_updGroup g f (m : Memo) :
  (forall e, First (f e) = First e) -> sameShape m (updGroup g f m).
Proof.
  intros Hf. split; [reflexivity|].
  split; [intros a; by rewrite exprs_updGroup|].
  split; [intros a; by rewrite exprs_updGroup|].
  intros g'. destruct (decide (g' = g)) as [->|Hne].
  - rewrite lookup_updGroup_eq. destruct (groups m !! g) as [e|]; [|done].
    simpl. f_equal. apply Hf.
  - by rewrite lookup_updGroup_ne.
Qed.

Lemma sameShape_updateBest (m : Memo) grp n c :
  sameShape m (updateBest m grp n c).
Proof.
  destruct (updateBest_as_updGroup m grp n c) as (f & -> & Hf).
  apply sameShape_updGroup. intros e. apply Hf.
Qed.

Lemma sameShape_expr (m m' : Memo) a r :
  sameShape m m' -> exprs m !! a = Some r ->
  exists r', exprs m' !! a = Some r' /\ body r' = body r /\ Next r' = Next r.
Proof.
  intros (_ & Hb & Hn & _) Ha. specialize (Hb a). specialize (Hn a).
  rewrite Ha in Hb, Hn. destruct (exprs m' !! a) as [r'|]; [|discriminate].
  exists r'. simpl in Hb, Hn. split; [done|]. split; congruence.
Qed.

Lemma sameShape_group (m m' : Memo) g e :
  sameShape m m' -> groups m !! g = Some e ->
  exists e', groups m' !! g = Some e' /\ First e' = First e.
Proof.
  intros (_ & _ & _ & Hf) Hg. specialize (Hf g). rewrite Hg in Hf.
  destruct (groups m' !! g) as [e'|]; [|discriminate].
  exists e'. simpl in Hf. split; congruence.
Qed.

Lemma onList_sameShape (m m' : Memo) n a :
  sameShape m m' -> onList m n a -> onList m' n a.
Proof.
  intros Hs Hon. induction Hon as [a|a r a' Ha _ IH]; [constructor|].
  destruct (sameShape_expr m m' a r Hs Ha) as (r' & Hr' & _ & Hn).
  eapply onList_next; [exact Hr'|]. by rewrite Hn.
Qed.

Lemma operand_sameShape (m m' : Memo) g c :
  sameShape m m' -> operand m g c -> operand m' g c.
Proof.
  intros Hs (e & a & r & Hg & Hon & Ha & Hc).
  destruct (sameShape_group m m' g e Hs Hg) as (e' & He' & Hf).
  destruct (sameShape_expr m m' a r Hs Ha) as (r' & Hr' & Hb & _).
  exists e', a, r'. split; [done|]. split.
  - rewrite Hf. by eapply onList_sameShape.
  - split; [done|]. by rewrite Hb.
Qed.

Lemma within_sameShape (m m' : Memo) g g' :
  sameShape m m' -> within m g g' -> within m' g g'.
Proof.
  intros Hs Hw. induction Hw as [g|g c g' Hop _ IH]; [constructor|].
  eapply within_operand; [|exact IH]. by eapply operand_sameShape.
Qed.

Lemma chain_sameShape (m m' : Memo) n l :
  sameShape m m' -> chain m n l -> chain m' n l.
Proof.
  intros Hs Hc. induction Hc as [|a r l Ha _ IH]; [constructor|].
  destruct (sameShape_expr m m' a r Hs Ha) as (r' & Hr' & _ & Hn).
  econstructor; [exact Hr'|]. by rewrite Hn.
Qed.

Lemma chain_onList (m : Memo) n l a : chain m n l -> In a l -> onList m n a.
Proof.
  intros Hc. induction Hc as [|x r l Hx _ IH]; intros Hin; [destruct Hin|].
  destruct Hin as [->|Hin]; [constructor|].
  eapply onList_next; [exact Hx|]. by apply IH.
Qed.

Lemma onList_In (m : Memo) n l a : chain m n l -> onList m n a -> In a l.
Proof.
  intros Hc Hon. revert l Hc.
  induction Hon as [a|a r a' Ha _ IH]; intros l Hc;
    inversion Hc as [|? r0 l' Ha0 Hc']; subst; [by left|].
  right. apply IH. assert (r0 = r) as -> by congruence. exact Hc'.
Qed.

(** *** What a run of the optimizer leaves as it was *)

(** What costing an alternative does to the memo: the distinct operator
    and the cost of the alternative are written, and [updateBest] is
    called with the cost of the candidate. *)
Lemma costAlternative_call grp a cost (m : Memo) log st' :
  costAlternative grp a cost (m, log) = Returned None st' ->
  exists c d c0,
    candidateCost grp a cost m = Some c /\
    st' = (updateBest (updRel a (SetCost c0) (updRel a (SetDistinct d) m))
             grp a c, log ++ [a]).
Proof.
  unfold costAlternative, candidateCost.
  destruct (EstimateCost m a) as [relCost|err]; [|discriminate].
  destruct (groups m !! grp) as [e|]; [|discriminate].
  destruct (IsHash (RelPropsDistinct e)); [destruct (sortedInputs m a)|];
    intros [= <-]; eauto.
Qed.

Lemma sameShape_costAlternative grp a cost (m : Memo) log st' :
  costAlternative grp a cost (m, log) = Returned None st' ->
  sameShape m (fst st') /\
  forall g, g <> grp -> groups (fst st') !! g = groups m !! g.
Proof.
  intros Hrun.
  destruct (costAlternative_call _ _ _ _ _ _ Hrun) as (c & d & c0 & _ & ->).
  simpl fst. split.
  - eapply sameShape_trans; [|apply sameShape_updateBest].
    eapply sameShape_trans; by apply sameShape_updRel.
  - intros g Hne. by rewrite updateBest_other, !groups_updRel.
Qed.

Lemma sameShape_optimizeSource fuel grp (st st' : OptState) :
  optimizeSource fuel grp st = Returned None st' ->
  sameShape (fst st) (fst st') /\
  forall g, g <> grp -> groups (fst st') !! g = groups (fst st) !! g.
Proof.
  destruct st as [m log]. unfold optimizeSource.
  destruct (groups (updGroup grp _ m) !! grp) as [e|]; [|discriminate].
  destruct (firstIndexScan _ _ _) as [err found| |]; try discriminate.
  destruct (match found with Some i => Some i | None => Best e end) as [b|];
    [|discriminate].
  intros [= <-]. simpl fst. split.
  - eapply sameShape_trans; [|by apply sameShape_updRel].
    eapply sameShape_trans; by apply sameShape_updGroup.
  - intros g Hne. by rewrite groups_updRel, !lookup_updGroup_ne.
Qed.

Section Frame.

(** [ExprGroup.fixConflicts] is not among the sources.  It is taken to
    keep the shape of the memo, and to leave as they are the records of
    the groups that are not within the group it is called on. *)
Hypothesis fixConflicts_shape :
  forall g (m : Memo), sameShape m (fixConflicts g m).
Hypothesis fixConflicts_local :
  forall g (m : Memo) g',
    ~ within m g g' -> groups (fixConflicts g m) !! g' = groups m !! g'.

(** [untouched g st st']: from [st] to [st'] the shape of the memo is
    kept, and so is the record of every group that is not within
    [g]. *)
Local Abbreviation untouched g st st' :=
  (sameShape (fst st) (fst st') /\
   forall g', ~ within (fst st) g g' ->
              groups (fst st') !! g' = groups (fst st) !! g').

Section FrameLoop.

Variable rec : nat -> OptState -> outcome error OptState.
Hypothesis rec_frame :
  forall g (st st' : OptState),
    rec g st = Returned None st' -> untouched g st st'.

Lemma optimizeChildrenWith_frame gs :
  forall cost (st st' : OptState) cost',
    optimizeChildrenWith rec gs cost st = Returned None (st', cost') ->
    sameShape (fst st) (fst st') /\
    forall g', (forall c, In (Some c) gs -> ~ within (fst st) c g') ->
               groups (fst st') !! g' = groups (fst st) !! g'.
Proof.
  induction gs as [|[g|] gs IH]; intros cost st st' cost' Hrun;
    simpl in Hrun; [|..|discriminate].
  - injection Hrun as <- _. split; [apply sameShape_refl|done].
  - destruct (rec g st) as [[err|] st1| |] eqn:Hg; try discriminate.
    destruct (rec_frame g st st1 Hg) as (Hs1 & Hfr1).
    destruct (groups (fst st1) !! g) as [ge|]; [|discriminate].
    destruct (IH _ _ _ _ Hrun) as (Hs & Hfr).
    split; [by eapply sameShape_trans|].
    intros g' Hout. rewrite Hfr.
    + apply Hfr1. apply Hout. by left.
    + intros c Hc Hw. apply (Hout c); [by right|].
      eapply within_sameShape; [|exact Hw]. by apply sameShape_sym.
Qed.

Lemma costLoopWith_frame grp k :
  forall n (st st' : OptState),
    (forall a r c, onList (fst st) n a -> exprs (fst st) !! a = Some r ->
                   In (Some c) (Children (body r)) -> operand (fst st) grp c) ->
    costLoopWith rec grp k n st = Returned None st' ->
    untouched grp st st'.
Proof.
  induction k as [|k IH]; intros n st st' Hops Hrun;
    destruct n as [a|]; simpl in Hrun; try discriminate.
  1,3: injection Hrun as <-; simpl fst; split;
    [ eapply sameShape_trans;
        [apply fixConflicts_shape|by apply sameShape_updGroup]
    | intros g' Hout; rewrite lookup_updGroup_ne;
        [by apply fixConflicts_local|];
      intros ->; apply Hout; constructor ].
  destruct (exprs (fst st) !! a) as [r|] eqn:Ha; [|discriminate].
  destruct (optimizeChildrenWith rec (Children (body r)) f64_zero st)
    as [[err|] [st1 cost]| |] eqn:Hch; try discriminate.
  destruct (optimizeChildrenWith_frame _ _ _ _ _ Hch) as (Hs1 & Hfr1).
  destruct (costAlternative grp a cost st1) as [[err|] st2| |] eqn:Hcost;
    try discriminate.
  destruct (exprs (fst st2) !! a) as [r'|] eqn:Ha'; [|discriminate].
  destruct st1 as [m1 log1].
  destruct (sameShape_costAlternative _ _ _ _ _ _ Hcost) as (Hs2 & Hfr2).
  simpl fst in *.
  assert (Hs12 : sameShape (fst st) (fst st2)) by (by eapply sameShape_trans).
  assert (Hops2 : forall a2 r2 c,
             onList (fst st2) (Next r') a2 -> exprs (fst st2) !! a2 = Some r2 ->
             In (Some c) (Children (body r2)) -> operand (fst st2) grp c).
  { intros a2 r2 c Hon Ha2 Hc.
    apply (operand_sameShape (fst st)); [done|].
    apply sameShape_sym in Hs12.
    destruct (sameShape_expr _ _ _ _ Hs12 Ha2) as (r0 & Hr0 & Hb0 & _).
    destruct (sameShape_expr _ _ _ _ Hs12 Ha') as (ra & Hra & _ & Hna).
    apply (Hops a2 r0 c); [|done|by rewrite Hb0].
    eapply onList_next; [exact Hra|]. rewrite Hna.
    by eapply onList_sameShape. }
  destruct (IH _ _ _ Hops2 Hrun) as (Hs3 & Hfr3).
  split; [by eapply sameShape_trans|].
  intros g' Hout.
  rewrite Hfr3, Hfr2, Hfr1; [done| | |].
  - intros c Hc Hw. apply Hout.
    eapply within_operand; [|exact Hw].
    eapply (Hops a r c); [constructor|done..].
  - intros ->. apply Hout. constructor.
  - intros Hw. apply Hout. eapply within_sameShape; [|exact Hw].
    by apply sameShape_sym.
Qed.

End FrameLoop.

(** A run of [optimizeMemoGroup] on a group keeps the shape of the memo
    and the records of the groups that are not within the group. *)
Lemma optimizeMemoGroup_frame fuel :
  forall grp (st st' : OptState),
    optimizeMemoGroup fuel grp st = Returned None st' ->
    untouched grp st st'.
Proof.
  induction fuel as [|fuel IH]; intros grp st st' Hrun; [discriminate|].
  rewrite optimizeMemoGroup_unfold in Hrun.
  destruct (groups (fst st) !! grp) as [e|] eqn:Hg; [|discriminate].
  destruct (Done e) eqn:Hd.
  { injection Hrun as <-. split; [apply sameShape_refl|done]. }
  assert (Hloop : forall n,
             n = First e ->
             costLoopWith (optimizeMemoGroup fuel) grp fuel n st
             = Returned None st' ->
             untouched grp st st').
  { intros n -> Hl.
    eapply (costLoopWith_frame (optimizeMemoGroup fuel) IH); [|exact Hl].
    intros a r c Hon Ha Hc. by exists e, a, r. }
  destruct (First e) as [a|] eqn:Hf; [|by apply (Hloop None)].
  destruct (exprs (fst st) !! a) as [r|] eqn:Ha; [|discriminate].
  destruct (isSourceRel (body r)) eqn:Hsrc; [|by apply (Hloop (Some a))].
  destruct (sameShape_optimizeSource _ _ _ _ Hrun) as (Hs & Hfr).
  split; [done|]. intros g' Hout. apply Hfr. intros ->. apply Hout. constructor.
Qed.

(** *** The choice the loop leaves *)

Lemma firstIndexScan_onChain fuel (m : Memo) :
  forall n err i l,
    firstIndexScan fuel m n = Returned err (Some i) -> chain m n l -> In i l.
Proof.
  induction fuel as [|fuel IH]; intros n err i l H Hc;
    destruct Hc as [|a r l Ha Hc]; simpl in H; try discriminate;
    rewrite Ha in H; destruct (isIndexScan (body r)); try discriminate.
  - injection H as _ <-. by left.
  - injection H as _ <-. by left.
  - right. by eapply IH.
Qed.

(** The best of a source group after the source branch: a source on the
    list of the group, and the group is hint-ok. *)
Lemma optimizeSource_best fuel grp (m : Memo) log e a r l st' :
  groups m !! grp = Some e -> First e = Some a ->
  exprs m !! a = Some r -> isSourceRel (body r) = true ->
  chain m (First e) l ->
  optimizeSource fuel grp (m, log) = Returned None st' ->
  exists e' b rb,
    groups (fst st') !! grp = Some e' /\ HintOk e' = true /\
    Best e' = Some b /\ In b l /\
    exprs m !! b = Some rb /\ isSourceRel (body rb) = true.
Proof.
  intros Hg Hf Ha Hsrc Hc Hrun. unfold optimizeSource in Hrun.
  set (f1 := fun e : ExprGroup =>
               setBest (First e) (setHintOk true (setDone true e))) in *.
  rewrite lookup_updGroup_eq, Hg in Hrun. simpl in Hrun.
  destruct (firstIndexScan fuel (updGroup grp f1 m) (First e))
    as [err found| |] eqn:Hscan; try discriminate.
  assert (Hb : exists b rb,
             match found with Some i => Some i | None => First e end = Some b /\
             In b l /\ exprs m !! b = Some rb /\ isSourceRel (body rb) = true).
  { destruct found as [i|].
    - destruct (firstIndexScan_found _ _ _ _ _ Hscan) as (ri & Hi & His).
      exists i, ri. rewrite exprs_updGroup in Hi.
      split; [done|]. split; [|split; [done|by apply isIndexScan_source]].
      eapply firstIndexScan_onChain; [exact Hscan|].
      by eapply chain_ext; [|exact Hc].
    - exists a, r. rewrite Hf in Hc |- *. split; [done|].
      split; [|done]. inversion Hc; subst. by left. }
  destruct Hb as (b & rb & Hbest & Hin & Hrb & Hsb). rewrite Hbest in Hrun.
  injection Hrun as <-. simpl fst.
  exists (setBest (Some b) (f1 e)), b, rb.
  rewrite groups_updRel, updGroup_twice, lookup_updGroup_eq, Hg. done.
Qed.

Section HintedChoice.

(** The costs of the alternatives are compared as numbers: any two are
    comparable and the comparison is transitive (no cost is NaN). *)
Hypothesis f64_leb_total :
  forall a b, f64_leb a b = true \/ f64_leb b a = true.
Hypothesis f64_leb_trans :
  forall a b c, f64_leb a b = true -> f64_leb b c = true ->
                f64_leb a c = true.

(** [joinHints.satisfiedBy] is not among the sources.  Whether an
    alternative satisfies the hints is taken to depend on the shape of
    the memo only (the operators and their operands), and a source to
    satisfy any hints: hints constrain joins. *)
Hypothesis satisfiedBy_shape :
  forall h (m m' : Memo) n,
    sameShape m m' -> satisfiedBy h m' n = satisfiedBy h m n.
Hypothesis satisfiedBy_source :
  forall h (m : Memo) n r,
    exprs m !! n = Some r -> isSourceRel (body r) = true ->
    satisfiedBy h m n = true.

(** The loop over the alternatives from [n] on, entered with the choice
    among the candidates [P] in the record of the group, leaves the
    choice among [P] and its own calls of [updateBest] in the memo it
    hands to [fixConflicts]; the record of the group is then the one
    that [updateBestAll] over these calls makes of the record the loop
    was entered with. *)
Lemma costLoopWith_chosen rec h (m0 : Memo) grp k :
  (forall g (st st' : OptState),
      rec g st = Returned None st' -> untouched g st st') ->
  hints m0 = Some h ->
  (forall c, operand m0 grp c -> ~ within m0 c grp) ->
  forall n (st st' : OptState) P e l,
    sameShape m0 (fst st) ->
    (forall a r c, onList m0 n a -> exprs m0 !! a = Some r ->
                   In (Some c) (Children (body r)) -> operand m0 grp c) ->
    chain m0 n l ->
    groups (fst st) !! grp = Some e ->
    chosen (satisfiedBy h m0) P e ->
    costLoopWith rec grp k n st = Returned None st' ->
    exists m1 e1,
      fst st' = updGroup grp (setDone true) (fixConflicts grp m1) /\
      sameShape m0 m1 /\
      groups m1 !! grp = Some e1 /\
      chosen (satisfiedBy h m0) (P ++ updateBestCalls rec grp k n st) e1 /\
      map fst (updateBestCalls rec grp k n st) = l /\
      forall mx : Memo,
        hints mx = Some h -> sameShape m0 mx -> groups mx !! grp = Some e ->
        groups (updateBestAll mx grp (updateBestCalls rec grp k n st)) !! grp
        = Some e1.
Proof.
  intros rec_frame Hh Hacyc.
  induction k as [|k IH]; intros n st st' P e l Hs Hops Hc Hg Hch Hrun;
    destruct n as [a|]; simpl in Hrun; try discriminate.
  1,3: injection Hrun as <-; inversion Hc; subst; exists (fst st), e;
    simpl; rewrite app_nil_r; done.
  inversion Hc as [|? r0 l' Ha0 Hc']; subst.
  destruct (exprs (fst st) !! a) as [r|] eqn:Ha; [|discriminate].
  destruct (optimizeChildrenWith rec (Children (body r)) f64_zero st)
    as [[err|] [st1 cost]| |] eqn:Hch1; try discriminate.
  destruct (optimizeChildrenWith_frame rec rec_frame _ _ _ _ _ Hch1)
    as (Hs1 & Hfr1).
  destruct (costAlternative grp a cost st1) as [[err|] st2| |] eqn:Hcost;
    try discriminate.
  destruct (exprs (fst st2) !! a) as [r'|] eqn:Ha'; [|discriminate].
  destruct st1 as [m1 log1].
  destruct (costAlternative_call _ _ _ _ _ _ Hcost) as (c & d & c0 & Hcc & ->).
  simpl fst in *.
  set (m2 := updRel a (SetCost c0) (updRel a (SetDistinct d) m1)) in *.
  assert (Hs01 : sameShape m0 m1) by (by eapply sameShape_trans).
  assert (Hs02 : sameShape m0 m2).
  { eapply sameShape_trans; [exact Hs01|].
    eapply sameShape_trans; by apply sameShape_updRel. }
  assert (Hs03 : sameShape m0 (updateBest m2 grp a c)).
  { eapply sameShape_trans; [exact Hs02|apply sameShape_updateBest]. }
  destruct (sameShape_expr _ _ _ _ Hs Ha0) as (r1 & Hr1 & Hb1 & _).
  assert (r1 = r) as -> by congruence.
  assert (Hg1 : groups m1 !! grp = Some e).
  { rewrite Hfr1; [done|]. intros c1 Hc1 Hw.
    apply (Hacyc c1).
    - apply (Hops a r0 c1); [constructor|done|by rewrite <- Hb1].
    - eapply within_sameShape; [|exact Hw]. by apply sameShape_sym. }
  assert (Hg2 : groups m2 !! grp = Some e).
  { subst m2. by rewrite !groups_updRel. }
  assert (Hh2 : hints m2 = Some h).
  { destruct Hs02 as (-> & _). exact Hh. }
  pose proof (updateBest_group m2 grp a c e h Hh2 Hg2) as Hg3.
  rewrite (satisfiedBy_shape h m0 m2 a Hs02) in Hg3.
  pose proof (chosen_step f64_leb_total f64_leb_trans _ P e a c Hch) as Hch3.
  destruct (sameShape_expr _ _ _ _ Hs03 Ha0) as (r3 & Hr3 & _ & Hn3).
  assert (r3 = r') as -> by congruence.
  rewrite Hn3 in Hrun.
  assert (Hops' : forall a2 r2 c2,
             onList m0 (Next r0) a2 -> exprs m0 !! a2 = Some r2 ->
             In (Some c2) (Children (body r2)) -> operand m0 grp c2).
  { intros a2 r2 c2 Hon. apply Hops. by eapply onList_next. }
  destruct (IH (Next r0) (updateBest m2 grp a c, log1 ++ [a]) st'
              _ _ _ Hs03 Hops' Hc' Hg3 Hch3 Hrun)
    as (mf & ef & Hst' & Hsf & Hgf & Hchf & Hmap & Hfold).
  exists mf, ef. split; [done|]. split; [done|]. split; [done|].
  simpl updateBestCalls. rewrite Ha, Hch1. simpl fst. rewrite Hcc, Hcost.
  simpl fst. rewrite Ha', Hn3. rewrite <- app_assoc in Hchf.
  split; [exact Hchf|]. split; [simpl; by rewrite Hmap|].
  intros mx Hhx Hsx Hgx. unfold updateBestAll. simpl fold_left.
  apply (Hfold (updateBest mx grp a c)).
  - by rewrite hints_updateBest.
  - eapply sameShape_trans; [exact Hsx|apply sameShape_updateBest].
  - rewrite (updateBest_group mx grp a c e h Hhx Hgx).
    by rewrite (satisfiedBy_shape h m0 mx a Hsx).
Qed.

(** The loop of [optimizeMemoGroup] on a group that is not done and has
    no best yet leaves the choice among its candidates, one for each
    alternative of the group, in the memo it hands to [fixConflicts]:
    the record of the group is there what [updateBestAll] over the
    candidates makes of it. *)
Lemma optimizeMemoGroup_chosen fuel (m m' : Memo) log log' grp e a r h l :
  hints m = Some h ->
  groups m !! grp = Some e ->
  Done e = false -> Best e = None -> HintOk e = false ->
  First e = Some a -> exprs m !! a = Some r ->
  isSourceRel (body r) = false ->
  chain m (First e) l ->
  (forall c, operand m grp c -> ~ within m c grp) ->
  optimizeMemoGroup (S fuel) grp (m, log) = Returned None (m', log') ->
  exists m1 e1,
    m' = updGroup grp (setDone true) (fixConflicts grp m1) /\
    sameShape m m' /\
    groups m1 !! grp = Some e1 /\
    chosen (satisfiedBy h m) (candidates fuel grp (m, log)) e1 /\
    map fst (candidates fuel grp (m, log)) = l /\
    groups (updateBestAll m grp (candidates fuel grp (m, log))) !! grp
    = Some e1.
Proof.
  intros Hh Hg Hd Hb Hok Hf Ha Hsrc Hc Hacyc Hrun.
  rewrite optimizeMemoGroup_unfold in Hrun. simpl fst in Hrun.
  rewrite Hg, Hd, Hf, Ha, Hsrc in Hrun.
  unfold candidates. simpl fst. rewrite Hg, Hf. rewrite Hf in Hc.
  destruct (costLoopWith_chosen (optimizeMemoGroup fuel) h m grp fuel
              (optimizeMemoGroup_frame fuel) Hh Hacyc
              (Some a) (m, log) (m', log') [] e l)
    as (m1 & e1 & Hst' & Hs1 & Hg1 & Hch & Hmap & Hfold); try done.
  - intros a2 r2 c Hon Ha2 Hin. exists e, a2, r2. by rewrite Hf.
  - by apply chosen_fresh.
  - simpl in Hst'. exists m1, e1. split; [done|]. split.
    { rewrite Hst'. eapply sameShape_trans; [exact Hs1|].
      eapply sameShape_trans; [apply fixConflicts_shape|].
      by apply sameShape_updGroup. }
    do 3 (split; [done|]). apply Hfold; [done|apply sameShape_refl|done].
Qed.



End HintedChoice.

End Frame.

End MemoProperties.

(** ** The properties on the examples *)

Lemma Z_leb_total a b : (a <=? b) = true \/ (b <=? a) = true.
Proof. destruct (Z.leb_spec a b); [by left|right]. apply Z.leb_le. lia. Defined.

Lemma Z_leb_trans a b c :
  (a <=? b) = true -> (b <=? c) = true -> (a <=? c) = true.
Proof. rewrite !Z.leb_le. lia. Defined.

Lemma exSatisfiedBy_frame h (m : exMemo) g b c ok n :
  exSatisfiedBy h
    (updGroup g (fun e => setHintOk ok (setCost c (setBest b e))) m) n
  = exSatisfiedBy h m n.
Proof. reflexivity. Defined.

(** Looking up [XY] in any casing finds group id 1, [uv] finds 2, and an
    unknown name finds nothing. *)
Example getTableId_examples :
  getTableId exLowerCase exSources name_XY = (1, true) /\
  getTableId exLowerCase exSources name_xy = (1, true) /\
  getTableId exLowerCase exSources name_Xy = (1, true) /\
  getTableId exLowerCase exSources name_uv = (2, true) /\
  getTableId exLowerCase exSources [120] = (0, false).
Proof. vm_compute. auto. Qed.

(** With a merge hint the merge join is the best of group 2 although it
    is the dearest; with a hint that nothing satisfies, and with no
    hint, the cheapest alternative is. *)
Example updateBestAll_examples :
  (fun e => (Best e, Cost e, HintOk e))
    <$> groups (exUpdateBestAll (withHints [HintTypeMergeJoin] exJoins)
                  2%nat exCosts) !! 2%nat
    = Some (Some 3%nat, 50, true) /\
  (fun e => (Best e, Cost e, HintOk e))
    <$> groups (exUpdateBestAll (withHints [HintTypeHashJoin] exJoins)
                  2%nat exCosts) !! 2%nat
    = Some (Some 4%nat, 10, false) /\
  (fun e => (Best e, Cost e, HintOk e))
    <$> groups (exUpdateBestAll exJoins 2%nat exCosts) !! 2%nat
    = Some (Some 4%nat, 10, true).
Proof. vm_compute. auto. Qed.

(** The merge hint on the joins of group 2, at the costs of [exCosts]. *)
Lemma updateBestAll_prefers_satisfying_example :
  exists e' n,
    groups (exUpdateBestAll (withHints [HintTypeMergeJoin] exJoins)
              2%nat exCosts) !! 2%nat = Some e' /\
    HintOk e' = true /\
    Best e' = Some n /\
    In (n, Cost e') exCosts /\
    exSatisfiedBy [HintTypeMergeJoin]
      (withHints [HintTypeMergeJoin] exJoins) n = true /\
    exSatisfiedBy [HintTypeMergeJoin]
      (exUpdateBestAll (withHints [HintTypeMergeJoin] exJoins) 2%nat exCosts)
      n = true /\
    (forall n' c',
        In (n', c') exCosts ->
        exSatisfiedBy [HintTypeMergeJoin]
          (withHints [HintTypeMergeJoin] exJoins) n' = true ->
        (Cost e' <=? c') = true).
Proof.
  eapply (updateBestAll_prefers_satisfying Z.leb exSatisfiedBy
            Z_leb_total Z_leb_trans exSatisfiedBy_frame).
  - vm_compute; reflexivity.
  - vm_compute; reflexivity.
  - vm_compute; reflexivity.
  - vm_compute; reflexivity.
  - exists 3%nat, 50. split; [simpl; auto | vm_compute; reflexivity].
Defined.

(** A hash hint, which no join of group 2 satisfies, at the costs of
    [exCosts]. *)
Lemma updateBestAll_none_satisfying_example :
  exists e' n,
    groups (exUpdateBestAll (withHints [HintTypeHashJoin] exJoins)
              2%nat exCosts) !! 2%nat = Some e' /\
    HintOk e' = false /\
    Best e' = Some n /\
    In (n, Cost e') exCosts /\
    (forall n' c', In (n', c') exCosts -> (Cost e' <=? c') = true).
Proof.
  eapply (updateBestAll_none_satisfying Z.leb exSatisfiedBy
            Z_leb_total Z_leb_trans exSatisfiedBy_frame).
  - vm_compute; reflexivity.
  - vm_compute; reflexivity.
  - vm_compute; reflexivity.
  - vm_compute; reflexivity.
  - discriminate.
  - intros n c [[= <- <-]|[[= <- <-]|[[= <- <-]|[]]]];
      vm_compute; reflexivity.
Defined.

(** Witness of C3: a lookup join memoized into group 2 of [exJoins], and
    into no group. *)
Lemma MemoizeJoin_frame_witness :
  exists e,
    groups exJoins !! 2%nat = Some e /\
    prepended exJoins 2 e (Some 0%nat) (Some 1%nat)
      (fst (exMemoizeJoin exLookupCall exJoins (Some 2%nat)
              (Some 0%nat) (Some 1%nat))) /\
    snd (exMemoizeJoin exLookupCall exJoins (Some 2%nat)
           (Some 0%nat) (Some 1%nat)) = 2%nat /\
    created exJoins (Some 0%nat) (Some 1%nat)
      (exMemoizeJoin exLookupCall exJoins None (Some 0%nat) (Some 1%nat)).
Proof.
  eexists. split; [vm_compute; reflexivity|].
  apply (MemoizeJoin_frame 0 exAsLookup exExpressions exNullMask exLowerCase
           exIndexScanName exIsInjectiveLookup).
  vm_compute; reflexivity.
Defined.

(** The source group 0 of [exScans], whose list is 3, 2, 0, is optimized
    to its first index scan, expression 3, and nothing is costed. *)
Example optimizeMemoGroup_example :
  match exOptimizeMemoGroup 4 0 (exScans, []) with
  | Returned None (m', costed) =>
      (fun e => (Best e, Done e, HintOk e)) <$> groups m' !! 0%nat
      = Some (Some 3%nat, true, true) /\ costed = []
  | _ => False
  end.
Proof. vm_compute. auto. Qed.

(** Witness of C4: the source group 0 of [exScans]. *)
Lemma optimizeMemoGroup_source_witness :
  exists m',
    exOptimizeMemoGroup 4 0 (exScans, []) = Returned None (m', []) /\
    exists e',
      groups m' !! 0%nat = Some e' /\
      Done e' = true /\ HintOk e' = true /\ Best e' = Some 3%nat.
Proof.
  destruct (optimizeMemoGroup_source 0 Z.add Z.leb exSatisfiedBy
              exEstimateCost exSortedInputs exDistinctRowCount exFixConflicts
              4 exScans [] 0
              {| Id := 1; First := Some 3%nat; Best := None; Cost := 0;
                 Done := false; HintOk := false;
                 RelPropsDistinct := unknownDistinctOp |}
              3
              {| rel_g := Some 0%nat; rel_n := Some 2%nat; rel_c := 0;
                 rel_cnt := 0; rel_d := unknownDistinctOp;
                 body := IndexScanRel
                           {| Table := name_XY; Alias := name_XY;
                              ScanIndex := {| order := [2]; set := [2];
                                              idx := 2%nat |} |} |}
              [3; 2; 0]%nat)
    as (m' & Hrun & _ & Hnew).
  - vm_compute; reflexivity.
  - vm_compute; reflexivity.
  - vm_compute; reflexivity.
  - vm_compute; reflexivity.
  - repeat (econstructor; [vm_compute; reflexivity|]). constructor.
  - simpl. lia.
  - exists m'. split; [exact Hrun|].
    destruct (Hnew eq_refl) as (e' & He' & Hd & Hok & Hb & _).
    exists e'. auto.
Defined.


(** C6. [MemoizeLookupJoin] at a lookup that [isInjectiveLookup] accepts:
    prepended to group 2 of [exInner], the new lookup join (expression 3)
    is marked injective; given no group, the lookup join of the new
    group 3 (its first expression, 3) is not. *)
Theorem MemoizeLookupJoin_nil_group_not_injective :
  exIsInjectiveLookup (fst exLookupFresh) (ScanIndex (exScan name_uv 2)) 3
    (exExpressions name_uv) (exNullMask name_uv) = true /\
  snd exLookupPrepended = 2%nat /\
  First <$> groups (fst exLookupPrepended) !! 2%nat = Some (Some 3%nat) /\
  Injective <$> exprs (fst exLookupPrepended) !! 3%nat = Some true /\
  snd exLookupFresh = 3%nat /\
  First <$> groups (fst exLookupFresh) !! 3%nat = Some (Some 3%nat) /\
  Injective <$> exprs (fst exLookupFresh) !! 3%nat = Some false.
Proof. vm_compute. repeat split. Qed.

(** The plan of [exPlanned] is the merge join over the two table scans;
    with group 1 not done there is an error and no plan. *)
Example BestRootPlan_examples :
  exBestRootPlan 3 exPlanned
  = Returned None
      (Some (ExNode 3 [Some (ExNode 0 []); Some (ExNode 1 [])])) /\
  exBestRootPlan 3 exHalfPlanned = Returned (Some tt) None.
Proof. vm_compute. auto. Qed.

(** Witness of C10: [exHalfPlanned], where group 1 is reached from the
    root and is not done. *)
Lemma BestRootPlan_requires_done_witness :
  root exHalfPlanned = Some 2%nat /\
  planOk 3 exHalfPlanned 2 = true /\
  exists err, exBestRootPlan 3 exHalfPlanned = Returned (Some err) None.
Proof.
  assert (Hroot : root exHalfPlanned = Some 2%nat) by (vm_compute; reflexivity).
  assert (Hok : planOk 3 exHalfPlanned 2 = true) by (vm_compute; reflexivity).
  split; [exact Hroot|]. split; [exact Hok|].
  destruct (BestRootPlan_requires_done (Schema := unit) exBuildRel tt
              3 exHalfPlanned 2 Hroot Hok) as [Herr _].
  apply Herr.
  exists 1%nat. eexists. split; [|split; vm_compute; reflexivity].
  eapply reach_child; [vm_compute; reflexivity..| |apply reach_refl].
  vm_compute. auto.
Defined.


(** ** The further properties on the examples *)

Lemma exJoins_constructed : exConstructed exJoins.
Proof.
  unfold exConstructed, exJoins, exInner, exSources, exMemoizeJoin.
  do 3 apply constructed_join.
  unfold exTableScan.
  apply (constructed_NewExprGroup 0 exAsLookup exExpressions exNullMask []
           exLowerCase exIndexScanName exIsInjectiveLookup
           (fst (allocRel (newRel 0 (Source TableScan name_uv)) _)) 1).
  apply constructed_alloc.
  apply (constructed_NewExprGroup 0 exAsLookup exExpressions exNullMask []
           exLowerCase exIndexScanName exIsInjectiveLookup
           (fst (allocRel (newRel 0 (Source TableScan name_XY)) _)) 0).
  apply constructed_alloc.
  apply constructed_NewMemo.
Defined.

Lemma exRooted_constructed : exConstructed exRooted.
Proof. apply constructed_root. exact exJoins_constructed. Defined.

Lemma exFixConflicts_advanced (g : nat) (m : exMemo) :
  advanced m (exFixConflicts g m).
Proof. apply advanced_refl. Defined.

Lemma exFixConflicts_plansFixed (g : nat) (m : exMemo) :
  plansFixed m -> plansFixed (exFixConflicts g m).
Proof. intros H. exact H. Defined.

(** [exJoins] has the groups 0, 1 and 2 with the ids 1, 2 and 3. *)
Lemma constructed_group_ids_witness :
  exists e,
    groups exJoins !! 2%nat = Some e /\
    cnt exJoins = 3 /\ Id e = 3 /\ TableIdForSource (Id e) = 2 /\
    forall j e', groups exJoins !! j = Some e' -> Id e' = Id e -> j = 2%nat.
Proof.
  assert (Hg : exists e, groups exJoins !! 2%nat = Some e)
    by (vm_compute; eauto).
  destruct Hg as (e & He). exists e. split; [exact He|].
  destruct (constructed_group_ids 0 exAsLookup exExpressions exNullMask []
              exLowerCase exIndexScanName exIsInjectiveLookup
              exJoins 2 e exJoins_constructed He) as (Hc & Hid & Hrest).
  destruct Hrest as [Hpos Hinj]; [vm_compute; discriminate|].
  split; [rewrite Hc; vm_compute; reflexivity|].
  split; [rewrite Hid; vm_compute; reflexivity|].
  split; [exact Hpos|exact Hinj].
Defined.

Lemma constructed_groups_unoptimized_witness :
  exists e,
    groups exJoins !! 2%nat = Some e /\
    hints exJoins = Some [] /\
    First e <> None /\ Best e = None /\ Done e = false /\ HintOk e = false.
Proof.
  assert (Hg : exists e, groups exJoins !! 2%nat = Some e)
    by (vm_compute; eauto).
  destruct Hg as (e & He). exists e. split; [exact He|].
  exact (constructed_groups_unoptimized 0 exAsLookup exExpressions exNullMask
           [] exLowerCase exIndexScanName exIsInjectiveLookup
           exJoins 2 e exJoins_constructed He).
Defined.

(** In [exJoins] the name [XY] is that of the group of id 1. *)
Lemma getTableId_GetTable_round_trip_witness :
  getTableId exLowerCase exJoins name_XY = (1, true) /\
  GetTable (TableProps exJoins) 1 = (ToLower exLowerCase name_XY, true) /\
  exists i e, groups exJoins !! i = Some e /\ Id e = 1.
Proof.
  assert (Hq : getTableId exLowerCase exJoins name_XY = (1, true))
    by (vm_compute; reflexivity).
  split; [exact Hq|].
  apply (getTableId_GetTable_round_trip 0 exAsLookup exExpressions exNullMask
           [] exLowerCase exIndexScanName exIsInjectiveLookup
           exJoins name_XY 1 exJoins_constructed); [|exact Hq].
  vm_compute. discriminate.
Defined.

(** The inner join and the merge join of [exJoins], expressions 2 and
    3, have the same key: they are in the same group, over the same
    operands. *)
Lemma relKey_identifies_witness :
  relKey exJoins (exRel exJoins 2) = relKey exJoins (exRel exJoins 3) /\
  Group (exRel exJoins 2) = Group (exRel exJoins 3) /\
  Children (body (exRel exJoins 2)) = Children (body (exRel exJoins 3)).
Proof.
  assert (Hk : exists k, relKey exJoins (exRel exJoins 2) = Some k /\
                         relKey exJoins (exRel exJoins 3) = Some k)
    by (vm_compute; eauto).
  destruct Hk as (k & Hk & Hk'). split; [by rewrite Hk, Hk'|].
  apply (relKey_identifies 0 exAsLookup exExpressions exNullMask
           [] exLowerCase exIndexScanName exIsInjectiveLookup
           exJoins _ _ k exJoins_constructed); [|exact Hk|exact Hk'].
  vm_compute. discriminate.
Defined.

(** An index scan memoized into group 0 of [exSources], and into no
    group. *)
Lemma MemoizeNode_frame_witness :
  exists e,
    groups exSources !! 0%nat = Some e /\
    prependedNode exSources 0 e (nodeOf exIndexScanCall)
      (fst (MemoizeNode 0 exLowerCase exIndexScanName exIndexScanCall
              exSources (Some 0%nat))) /\
    snd (MemoizeNode 0 exLowerCase exIndexScanName exIndexScanCall
           exSources (Some 0%nat)) = 0%nat /\
    createdNode exLowerCase exIndexScanName exSources (nodeOf exIndexScanCall)
      (MemoizeNode 0 exLowerCase exIndexScanName exIndexScanCall
         exSources None).
Proof.
  assert (Hg : exists e, groups exSources !! 0%nat = Some e)
    by (vm_compute; eauto).
  destruct Hg as (e & He). exists e. split; [exact He|].
  exact (MemoizeNode_frame 0 exLowerCase exIndexScanName exIndexScanCall
           exSources 0 e He).
Defined.

(** The merge join, expression 3, offered to group 2 of [exJoins] under
    a merge hint. *)
Lemma updateBest_frame_witness :
  exists e e',
    groups (withHints [HintTypeMergeJoin] exJoins) !! 2%nat = Some e /\
    groups (updateBest Z.leb exSatisfiedBy
              (withHints [HintTypeMergeJoin] exJoins) 2 3 50) !! 2%nat
    = Some e' /\
    exprs (updateBest Z.leb exSatisfiedBy
             (withHints [HintTypeMergeJoin] exJoins) 2 3 50)
    = exprs (withHints [HintTypeMergeJoin] exJoins) /\
    Id e' = Id e /\ First e' = First e /\ Done e' = Done e /\
    Best e' <> None.
Proof.
  assert (Hg : exists e, groups (withHints [HintTypeMergeJoin] exJoins)
                           !! 2%nat = Some e)
    by (vm_compute; eauto).
  destruct Hg as (e & He). exists e.
  destruct (updateBest_frame Z.leb exSatisfiedBy
              (withHints [HintTypeMergeJoin] exJoins) 2 3 50 e He)
    as (Hex & _ & _ & _ & _ & _ & e' & He' & Hid & Hf & Hd & _ & _ & Hb & _).
  exists e'. auto 10.
Defined.

(** The candidates of group 2 in the order of [exCosts] and in the
    reverse order, under a merge hint. *)
Lemma updateBestAll_order_independent_witness :
  exists e1 e2,
    groups (exUpdateBests (withHints [HintTypeMergeJoin] exJoins)
              2%nat exCosts) !! 2%nat = Some e1 /\
    groups (exUpdateBests (withHints [HintTypeMergeJoin] exJoins)
              2%nat (rev exCosts)) !! 2%nat = Some e2 /\
    HintOk e1 = HintOk e2 /\
    (Cost e1 <=? Cost e2) = true /\ (Cost e2 <=? Cost e1) = true.
Proof.
  eapply (updateBestAll_order_independent Z.leb exSatisfiedBy
            Z_leb_total Z_leb_trans exSatisfiedBy_frame).
  - vm_compute; reflexivity.
  - vm_compute; reflexivity.
  - vm_compute; reflexivity.
  - vm_compute; reflexivity.
  - apply Permutation_rev.
Defined.

(** Optimizing group 2 of [exJoins]. *)
Lemma optimizeMemoGroup_fixes_group_witness :
  exOptimize 5 2 (exJoins, [])
  = Returned None (fst exJoinsPlanned, snd exJoinsPlanned) /\
  advanced exJoins (fst exJoinsPlanned) /\
  plansFixed (fst exJoinsPlanned) /\
  (exists e', groups (fst exJoinsPlanned) !! 2%nat = Some e' /\
              Done e' = true) /\
  forall fuel',
    exOptimize (S fuel') 2 (fst exJoinsPlanned, snd exJoinsPlanned)
    = Returned None (fst exJoinsPlanned, snd exJoinsPlanned).
Proof.
  assert (Hrun : exOptimize 5 2 (exJoins, [])
                 = Returned None (fst exJoinsPlanned, snd exJoinsPlanned))
    by (vm_compute; reflexivity).
  split; [exact Hrun|].
  assert (Hfix : plansFixed exJoins).
  { apply unoptimized_plansFixed.
    exact (constructed_unoptimized 0 exAsLookup exExpressions exNullMask
             [] exLowerCase exIndexScanName exIsInjectiveLookup
             exJoins exJoins_constructed). }
  exact (optimizeMemoGroup_fixes_group 0 Z.add Z.leb exSatisfiedBy
           exEstimateCost exSortedInputs exDistinctRowCount exFixConflicts
           exFixConflicts_advanced exFixConflicts_plansFixed
           5 exJoins (fst exJoinsPlanned) [] (snd exJoinsPlanned) 2
           Hfix Hrun).
Defined.

(** Optimizing the root of [exRooted], then building its plan. *)
Lemma OptimizeRoot_then_BestRootPlan_witness :
  exOptimizeTheRoot 5 (exRooted, [])
  = Returned None (fst exRootPlanned, snd exRootPlanned) /\
  exists g e,
    root (fst exRootPlanned) = Some g /\ root exRooted = Some g /\
    groups (fst exRootPlanned) !! g = Some e /\ Done e = true /\
    (forall g' e', reach (fst exRootPlanned) g g' ->
                   groups (fst exRootPlanned) !! g' = Some e' ->
                   Done e' = true) /\
    forall fuel',
      exRootPlan fuel' (fst exRootPlanned)
      = depthFirstPlan (Schema := unit) exBuildRel fuel' (fst exRootPlanned)
          (Some g) None /\
      exRootPlan fuel' (fst exRootPlanned) <> Panicked.
Proof.
  assert (Hrun : exOptimizeTheRoot 5 (exRooted, [])
                 = Returned None (fst exRootPlanned, snd exRootPlanned))
    by (vm_compute; reflexivity).
  split; [exact Hrun|].
  exact (OptimizeRoot_then_BestRootPlan 0 Z.add Z.leb exSatisfiedBy
           exEstimateCost exSortedInputs exDistinctRowCount exFixConflicts
           exBuildRel tt
           exFixConflicts_advanced exFixConflicts_plansFixed
           5 exRooted (fst exRootPlanned) [] (snd exRootPlanned)
           (constructed_unoptimized 0 exAsLookup exExpressions exNullMask
              [] exLowerCase exIndexScanName exIsInjectiveLookup
              exRooted exRooted_constructed)
           Hrun).
Defined.

(** The coster fails on the inner join of [exInnerReady]. *)
Lemma optimizeMemoGroup_coster_error_witness :
  exOptimizeFailing 2 2 (exInnerReady, [])
  = Returned (Some tt) (exInnerReady, [] ++ [2%nat]).
Proof.
  assert (H : exists e r,
             groups exInnerReady !! 2%nat = Some e /\ Done e = false /\
             First e = Some 2%nat /\ exprs exInnerReady !! 2%nat = Some r /\
             isSourceRel (body r) = false /\
             Children (body r) = [Some 0%nat; Some 1%nat]).
  { vm_compute. do 2 eexists. repeat split. }
  destruct H as (e & r & Hg & Hd & Hf & Ha & Hsrc & Hch).
  apply (optimizeMemoGroup_coster_error 0 Z.add Z.leb exSatisfiedBy
           exFailingCost exSortedInputs exDistinctRowCount exFixConflicts
           0 exInnerReady [] 2 e 2 r tt Hg Hd Hf Ha Hsrc);
    [|reflexivity].
  rewrite Hch. intros c [<-|[<-|[]]]; vm_compute; eauto.
Defined.

(** The inner join is the one alternative of group 2 of
    [exInnerReady]; its operands cost nothing and the coster returns 1
    for it. *)
Lemma optimizeMemoGroup_single_alternative_witness :
  exists (m1 : exMemo) e1,
    exOptimize 2 2 (exInnerReady, [])
    = Returned None
        (updGroup 2 (setDone true) (exFixConflicts 2 m1), [] ++ [2%nat]) /\
    groups m1 !! 2%nat = Some e1 /\
    Best e1 = Some 2%nat /\ Cost e1 = 1.
Proof.
  assert (H : exists e r e0 e1,
             groups exInnerReady !! 2%nat = Some e /\ Done e = false /\
             Best e = None /\ First e = Some 2%nat /\
             RelPropsDistinct e = unknownDistinctOp /\
             exprs exInnerReady !! 2%nat = Some r /\ Next r = None /\
             isSourceRel (body r) = false /\
             Children (body r) = [Some 0%nat; Some 1%nat] /\
             groups exInnerReady !! 0%nat = Some e0 /\ Done e0 = true /\
             Cost e0 = 0 /\
             groups exInnerReady !! 1%nat = Some e1 /\ Done e1 = true /\
             Cost e1 = 0).
  { vm_compute. do 4 eexists. repeat split. }
  destruct H as (e & r & e0 & e1 & Hg & Hd & Hb & Hf & Hrp & Ha & Hn & Hsrc &
                 Hch & Hg0 & Hd0 & Hc0 & Hg1 & Hd1 & Hc1).
  destruct (optimizeMemoGroup_single_alternative 0 Z.add Z.leb exSatisfiedBy
              exEstimateCost exSortedInputs exDistinctRowCount exFixConflicts
              0 exInnerReady [] 2 e 2 r [e0; e1] 1 Hg Hd Hb Hf Ha Hn Hsrc)
    as (m1 & e1' & r1 & Hrun & Hg' & Hb' & Hc' & _ & Hrc & _).
  - rewrite Hch. repeat constructor; eauto.
  - reflexivity.
  - exists m1, e1'. split; [exact Hrun|]. split; [exact Hg'|].
    split; [exact Hb'|].
    rewrite Hc', Hrc, Hrp. simpl. rewrite Hc0, Hc1. reflexivity.
Defined.

(** The name [XY], added as it is, is not found. *)
Lemma addTable_upper_case_not_found_witness :
  GetId exLowerCase (addTable newTableProps name_XY 7) name_XY
  = GetId exLowerCase newTableProps name_XY.
Proof.
  apply addTable_upper_case_not_found.
  - intros x Hx. unfold exLowerCase, MaxASCII in *. lia.
  - exists 88. split; [simpl; auto|lia].
Defined.

(** The scans of [XY] and of [xy] memoized one after the other: the
    name [xy] is that of the second group. *)
Lemma getTableId_latest_registration_witness :
  getTableId exLowerCase
    (fst (memoizeSourceRel 0 exLowerCase exIndexScanName exTwoScans 0)) name_Xy
  = (uint16 (cnt exTwoScans + 1), true) /\
  getTableId exLowerCase
    (fst (memoizeSourceRel 0 exLowerCase exIndexScanName
            (fst (memoizeSourceRel 0 exLowerCase exIndexScanName
                    exTwoScans 0)) 1)) name_Xy
  = (uint16 (cnt exTwoScans + 2), true) /\
  GetTable (TableProps
              (fst (memoizeSourceRel 0 exLowerCase exIndexScanName
                      (fst (memoizeSourceRel 0 exLowerCase exIndexScanName
                              exTwoScans 0)) 1)))
    (uint16 (cnt exTwoScans + 1))
  = (ToLower exLowerCase name_XY, true) /\
  GetTable (TableProps
              (fst (memoizeSourceRel 0 exLowerCase exIndexScanName
                      (fst (memoizeSourceRel 0 exLowerCase exIndexScanName
                              exTwoScans 0)) 1)))
    (uint16 (cnt exTwoScans + 2))
  = (ToLower exLowerCase name_XY, true).
Proof.
  apply (getTableId_latest_registration 0 exLowerCase exIndexScanName
           exTwoScans 0 1
           (newRel 0 (Source TableScan name_XY))
           (newRel 0 (Source TableScan name_xy))
           TableScan TableScan name_XY name_xy name_Xy);
    vm_compute; reflexivity.
Defined.

(** A lookup join memoized into group 2 of [exInner], and into no
    group. *)
Lemma MemoizeLookupJoin_marking_witness :
  (exists r,
      exprs (fst exLookupPrepended) !! 3%nat = Some r /\ Injective r = true) /\
  (exists r',
      exprs (fst exLookupFresh) !! 3%nat = Some r' /\ Injective r' = false).
Proof.
  assert (Hg : exists e, groups exInner !! 2%nat = Some e)
    by (vm_compute; eauto).
  destruct Hg as (e & He).
  destruct (MemoizeLookupJoin_marking 0 exAsLookup exExpressions exNullMask
              exLowerCase exIndexScanName exIsInjectiveLookup
              exInner 2 e (Some 0%nat) (Some 1%nat) JoinTypeInner []
              (exScan name_uv 2) He)
    as ((r & Hr & Hi) & (e' & r' & _ & _ & Hr' & Hi')).
  split; [exists r|exists r']; split; assumption.
Defined.

(** An index scan memoized into group 0 of [exSources] and the group
    optimized. *)
Lemma MemoizeIndexScan_then_optimized_witness :
  exists rel (m' : exMemo) e' r,
    exprs exSources !! rel = None /\
    exOptimize 1 0
      (fst (MemoizeIndexScan 0 exLowerCase exIndexScanName exSources
              (Some 0%nat) name_XY name_XY
              {| order := [1]; set := [1]; idx := 1%nat |}), [])
    = Returned None (m', []) /\
    groups m' !! 0%nat = Some e' /\
    Best e' = Some rel /\ Done e' = true /\ HintOk e' = true /\
    exprs m' !! rel = Some r /\
    body r = IndexScanRel {| Table := name_XY; Alias := name_XY;
                             ScanIndex := {| order := [1]; set := [1];
                                             idx := 1%nat |} |} /\
    rel_d r = noDistinctOp.
Proof.
  assert (Hg : exists e, groups exSources !! 0%nat = Some e /\ Done e = false).
  { vm_compute. eexists. split; reflexivity. }
  destruct Hg as (e & He & Hd).
  exact (MemoizeIndexScan_then_optimized 0 Z.add Z.leb exLowerCase
           exIndexScanName exSatisfiedBy exEstimateCost exSortedInputs
           exDistinctRowCount exFixConflicts
           0 exSources 0 e name_XY name_XY
           {| order := [1]; set := [1]; idx := 1%nat |} [] He Hd).
Defined.

(** ** The choice of the best alternative on the examples *)

Lemma exFixConflicts_shape (g : nat) (m : exMemo) :
  sameShape m (exFixConflicts g m).
Proof. apply sameShape_refl. Defined.

Lemma exFixConflicts_local (g : nat) (m : exMemo) (g' : nat) :
  ~ within m g g' -> groups (exFixConflicts g m) !! g' = groups m !! g'.
Proof. reflexivity. Defined.

Lemma exSatisfiedJoin_shape h (m m' : exMemo) n :
  sameShape m m' -> exSatisfiedJoin h m' n = exSatisfiedJoin h m n.
Proof.
  intros (_ & Hb & _). specialize (Hb n). unfold exSatisfiedJoin.
  destruct (exprs m' !! n) as [r'|], (exprs m !! n) as [r|];
    try discriminate; [|reflexivity].
  injection Hb as Hb. unfold hintMatches. rewrite Hb. reflexivity.
Defined.

Lemma exSatisfiedJoin_source h (m : exMemo) n r :
  exprs m !! n = Some r -> isSourceRel (body r) = true ->
  exSatisfiedJoin h m n = true.
Proof. intros Hn Hs. unfold exSatisfiedJoin. rewrite Hn, Hs. reflexivity. Defined.

(** The operands of the joins of group 2 of [exJoins] are the source
    groups 0 and 1, which have no operands. *)
Lemma exJoins_acyclic h c :
  operand (withHints h exJoins) 2 c -> ~ within (withHints h exJoins) c 2.
Proof.
  assert (Hsrc : forall g c', (g = 0 \/ g = 1)%nat ->
                   ~ operand (withHints h exJoins) g c').
  { intros g c' Hg (e & a & r & He & Hon & Ha & Hc).
    assert (Hl : exists l, chain (withHints h exJoins) (First e) l /\
                   forall x, In x l -> x = g).
    { destruct Hg as [-> | ->]; vm_compute in He; injection He as <-;
        eexists; (split; [repeat (econstructor; [reflexivity|]); constructor|]);
        intros x [<-|[]]; reflexivity. }
    destruct Hl as (l & Hl & Honly).
    pose proof (Honly a (onList_In _ _ _ _ Hl Hon)) as ->.
    destruct Hg as [-> | ->]; vm_compute in Ha; injection Ha as <-;
      destruct Hc. }
  intros (e & a & r & He & Hon & Ha & Hc) Hw.
  vm_compute in He. injection He as <-.
  assert (Hl : chain (withHints h exJoins) (Some 4%nat) [4; 3; 2]%nat)
    by (repeat (econstructor; [reflexivity|]); constructor).
  pose proof (onList_In _ _ _ _ Hl Hon) as Hin.
  assert (Hc01 : (c = 0 \/ c = 1)%nat).
  { destruct Hin as [<-|[<-|[<-|[]]]]; vm_compute in Ha; injection Ha as <-;
      destruct Hc as [[= <-]|[[= <-]|[]]]; auto. }
  inversion Hw as [g Heq|g c' g' Hop _]; subst.
  - destruct Hc01; discriminate.
  - by apply (Hsrc c c').
Defined.

(** The scans of group 0 of [exScans] have no operands. *)
Lemma exScans_acyclic h c :
  operand (withHints h exScans) 0 c -> ~ within (withHints h exScans) c 0.
Proof.
  intros (e & a & r & He & Hon & Ha & Hc).
  vm_compute in He. injection He as <-.
  assert (Hl : chain (withHints h exScans) (Some 3%nat) [3; 2; 0]%nat)
    by (repeat (econstructor; [reflexivity|]); constructor).
  pose proof (onList_In _ _ _ _ Hl Hon) as Hin.
  destruct Hin as [<-|[<-|[<-|[]]]]; vm_compute in Ha; injection Ha as <-;
    destruct Hc.
Defined.

(** Under the merge hint the candidates of group 2 are its joins with
    the costs 10, 50 and 20, and the best is the merge join, the
    dearest; under the hash hint it is the lookup join, the cheapest,
    and the group is not hint-ok.  The source group 0 of [exScans] is
    hint-ok with its first index scan as best, and nothing is costed. *)
Example optimizeMemoGroup_hinted_examples :
  exCandidates 4 2 (exMergeHinted, [])
  = [(4%nat, 10); (3%nat, 50); (2%nat, 20)] /\
  (fun e => (Best e, Cost e, HintOk e, Done e))
    <$> groups (fst exMergePlanned) !! 2%nat
  = Some (Some 3%nat, 50, true, true) /\
  (fun e => (Best e, Cost e, HintOk e, Done e))
    <$> groups (fst exHashPlanned) !! 2%nat
  = Some (Some 4%nat, 10, false, true) /\
  (fun e => (Best e, HintOk e, Done e))
    <$> groups (fst exScansPlanned) !! 0%nat
  = Some (Some 3%nat, true, true) /\
  snd exScansPlanned = [].
Proof. vm_compute. auto 10. Qed.


